(** * SASSDomain: the node-side compile domain of brackets-sass (2.0.1)

    A shallow embedding of [src/node/2.0.1/SASSDomain.js]: the request
    queue and its dispatcher ([_nextRender]), the worker handle
    ([_createChildProcess]), the completion callbacks built by [render]
    and [preview], and the staging registry ([deleteTempFiles]).

    The module's global variables become the fields of a [State] record
    that every function threads explicitly.  What the module reaches
    through Node (child processes and their listeners, timers, the file
    system, the console) is a second group of fields of the same record,
    followed by a trace of the effects that leave the module.

    Node runs one command or one event emission at a time, to its end:
    [step] is the effect of one of them.  An emitter keeps its listeners
    in an array and runs an emission from a copy of it; an entry added
    with [once] is taken off the array just before it runs, and
    [removeListener] finds entries added with [on] and with [once]
    alike.  A call of a completion callback is recorded in the trace
    with its arguments; what the callback does with them is [invoke],
    which reads and writes nothing of the dispatcher. *)

From stdpp Require Import base option list gmap strings fin_maps.
From Stdlib Require Import Ascii String ZArith Lia.

Open Scope string_scope.
Open Scope list_scope.

(** ** Strings as JavaScript uses them here *)

Definition is_sep (c : ascii) : bool := Ascii.eqb c "/"%char.

(** [s.charAt(0) === "/"] *)
Definition starts_with_sep (s : string) : bool :=
  match s with
  | String c _ => is_sep c
  | EmptyString => false
  end.

(** [s.charAt(s.length - 1) === "/"] *)
Fixpoint ends_with_sep (s : string) : bool :=
  match s with
  | EmptyString => false
  | String c EmptyString => is_sep c
  | String _ s' => ends_with_sep s'
  end.

(** [s.split("/")]: the pieces between separators, empty ones included. *)
Fixpoint split_sep (s : string) : list string :=
  match s with
  | EmptyString => [EmptyString]
  | String c s' =>
      if is_sep c then EmptyString :: split_sep s'
      else match split_sep s' with
           | x :: xs => String c x :: xs
           | [] => [String c EmptyString]
           end
  end.

Definition nonempty (s : string) : bool := negb (String.eqb s "").

(** [s.split("/").filter(function (p) { return !!p; })] *)
Definition segments (s : string) : list string := List.filter nonempty (split_sep s).

(** [parts.join("/")] *)
Definition join_sep (parts : list string) : string := String.concat "/" parts.

(** [s.slice(n)] for [0 <= n] *)
Fixpoint slice_from (n : nat) (s : string) : string :=
  match n, s with
  | O, _ => s
  | S n', String _ s' => slice_from n' s'
  | S _, EmptyString => EmptyString
  end.

(** [s.slice(0, n)] *)
Fixpoint slice_to (n : nat) (s : string) : string :=
  match n, s with
  | S n', String c s' => String c (slice_to n' s')
  | _, _ => EmptyString
  end.

(** [s.indexOf("/")]; [None] stands for -1. *)
Fixpoint index_of_sep (s : string) : option nat :=
  match s with
  | EmptyString => None
  | String c s' => if is_sep c then Some 0 else S <$> index_of_sep s'
  end.

(** [pat] occurs in [s] starting at its first character. *)
Fixpoint prefixb (pat s : string) : bool :=
  match pat, s with
  | EmptyString, _ => true
  | String a pat', String b s' => Ascii.eqb a b && prefixb pat' s'
  | String _ _, EmptyString => false
  end.

(** [s.indexOf(pat) >= 0] *)
Fixpoint occursb (pat s : string) : bool :=
  prefixb pat s ||
  match s with
  | EmptyString => false
  | String _ s' => occursb pat s'
  end.

(** ** Node's [path] module, POSIX flavour

    The domain calls [path.resolve], [path.normalize], [path.join],
    [path.relative], [path.dirname] and [path.basename].  They are
    written here after Node's own algorithms, on [/]-separated paths. *)

Module path.

Definition sep : string := "/".

(** One step of [normalizeArray], which walks the parts from the last
    to the first with a count [up] of pending [..]. *)
Definition normalize_step (p : string) (acc : nat * list string) : nat * list string :=
  let '(up, kept) := acc in
  if String.eqb p "." then (up, kept)
  else if String.eqb p ".." then (S up, kept)
  else match up with
       | S up' => (up', kept)
       | O => (O, p :: kept)
       end.

Definition normalizeArray (parts : list string) (allowAboveRoot : bool) : list string :=
  let '(up, kept) := fold_right normalize_step (O, []) parts in
  if allowAboveRoot then replicate up ".." ++ kept else kept.

(** The loop of [path.resolve], from the last argument to the first and
    then the working directory, until an absolute one is met. *)
Fixpoint resolve_loop (cwd : string) (args_rev : list string) (resolved : string)
  : string * bool :=
  match args_rev with
  | [] =>
      if nonempty cwd then (cwd +:+ "/" +:+ resolved, starts_with_sep cwd)
      else (resolved, false)
  | p :: rest =>
      if nonempty p then
        let r := p +:+ "/" +:+ resolved in
        if starts_with_sep p then (r, true) else resolve_loop cwd rest r
      else resolve_loop cwd rest resolved
  end.

Definition resolve (cwd : string) (args : list string) : string :=
  let '(resolved, isAbsolute) := resolve_loop cwd (rev args) "" in
  let body := join_sep (normalizeArray (segments resolved) (negb isAbsolute)) in
  let out := (if isAbsolute then "/" else "") +:+ body in
  if nonempty out then out else ".".

Definition normalize (p : string) : string :=
  let isAbsolute := starts_with_sep p in
  let trailingSlash := ends_with_sep p in
  let body := join_sep (normalizeArray (segments p) (negb isAbsolute)) in
  let body := if negb (nonempty body) && negb isAbsolute then "." else body in
  let body := if nonempty body && trailingSlash then body +:+ "/" else body in
  (if isAbsolute then "/" else "") +:+ body.

Definition join (args : list string) : string :=
  normalize (join_sep (List.filter nonempty args)).

(** Length of the common prefix of two lists of parts. *)
Fixpoint samePartsLength (a b : list string) : nat :=
  match a, b with
  | x :: a', y :: b' => if String.eqb x y then S (samePartsLength a' b') else O
  | _, _ => O
  end.

(** [path.relative].  Both arguments are resolved first, so their parts
    hold no empty piece and trimming is the same as [segments]. *)
Definition relative (cwd from to : string) : string :=
  let fromParts := segments (slice_from 1 (resolve cwd [from])) in
  let toParts := segments (slice_from 1 (resolve cwd [to])) in
  let same := samePartsLength fromParts toParts in
  join_sep (replicate (List.length fromParts - same) ".." ++ drop same toParts).

(** Characters of a path from the last to the first, without the
    trailing separators. *)
Fixpoint drop_seps (cs : list ascii) : list ascii :=
  match cs with
  | c :: cs' => if is_sep c then drop_seps cs' else cs
  | [] => []
  end.

Fixpoint drop_name (cs : list ascii) : list ascii :=
  match cs with
  | c :: cs' => if is_sep c then cs else drop_name cs'
  | [] => []
  end.

Fixpoint take_name (cs : list ascii) : list ascii :=
  match cs with
  | c :: cs' => if is_sep c then [] else c :: take_name cs'
  | [] => []
  end.

(** [path.dirname]: the index of the separator that ends the directory
    is looked for from the end, never at index 0. *)
Definition dirname (p : string) : string :=
  match p with
  | EmptyString => "."
  | String c body =>
      let hasRoot := is_sep c in
      match drop_name (drop_seps (rev (list_ascii_of_string body))) with
      | [] => if hasRoot then "/" else "."
      | rest =>
          let e := List.length rest in
          if hasRoot && Nat.eqb e 1 then "//" else slice_to e p
      end
  end.

(** [path.basename] with one argument. *)
Definition basename (p : string) : string :=
  string_of_list_ascii (rev (take_name (drop_seps (rev (list_ascii_of_string p))))).

End path.

(** ** Values exchanged with the worker and with the host *)

(** A position inside a source file, [{line: ..., ch: ...}]; a member
    that the object does not have is [None]. *)
Record Pos := { line : option nat; ch : option nat }.

(** An error object as the compiler reports it and as the dispatcher
    synthesizes it on a crash. *)
Record CompileError := {
  errorString : option string;
  path : string;
  pos : option Pos;
  message : string
}.

(** The value of [result.map].  Only its [sources] member is read by
    this module; [MapObject None] is an object whose [sources] is not an
    array, [MapNull] is [null], on which a member access throws. *)
Inductive MapValue :=
| MapNull
| MapObject (sources : option (list string)).

Record Result := {
  css : string;
  map : MapValue;
  error : option CompileError
}.

(** First argument of a completion callback: [null], an array of error
    objects, or the raw [Error] of a worker ['error'] event. *)
Inductive Errors :=
| NoErrors
| ErrorList (errs : list CompileError)
| RawError (err : string).

(** A message of the worker.  A member that is absent is [None].
    [msg_map] is what [JSON.parse(message.map)] evaluates to, [None] when
    it throws (the member is absent or is not JSON text). *)
Record Message := {
  msg_log : option string;
  msg_css : option string;
  msg_map : option MapValue;
  msg_error : option CompileError
}.

(** Truthiness of a string-valued member. *)
Definition truthy (o : option string) : bool :=
  match o with
  | Some s => nonempty s
  | None => false
  end.

(** [includePaths] and [imagePaths] as the callers pass them: nothing, a
    single string or an array. *)
Inductive PathsArg :=
| NoPaths
| OnePath (p : string)
| PathList (l : list string).

(** The variables of a [preview] call that its completion function
    closes over. *)
Record PreviewEnv := {
  pv_file : string;
  pv_tmpDirPath : string;
  pv_tmpFolder : string;
  pv_tmpOutFolder : string;
  pv_tmpFile : string;
  pv_originalParent : string
}.

(** Completion callbacks, by the closure that builds them: the host's
    own callback of a command invocation, the function [render] stores
    in [renderMsg._callback], and the function [preview] hands to
    [render]. *)
Inductive Callback :=
| HostCallback (id : nat)
| RenderCallback (file outFile : string) (callback : Callback)
| PreviewCallback (env : PreviewEnv) (callback : Callback).

(** The message object built by [render].  [rid] stands for the identity
    of the object: the number of [render] calls made before this one. *)
Record RenderMsg := {
  rid : nat;
  file : string;
  outFile : string;
  includePaths : list string;
  imagePaths : list string;
  outputStyle : string;
  sourceComments : bool;
  sourceMap : string;
  _file : string;
  _compiler : string;
  _callback : Callback
}.

(** The local variables of one run of [_nextRender] past its guard,
    shared by the listeners and the [cleanup] it defines. *)
Record Attempt := {
  renderMsg : RenderMsg;
  childProcess : nat;
  timeout : nat
}.

(** The functions this module registers on a child process. *)
Inductive Fn :=
| ResetHandle
| MessageListener (a : Attempt)
| ErrorListener (a : Attempt)
| ExitListener (a : Attempt).

(** An entry of an emitter's listener array; [once] entries are removed
    just before they run. *)
Record Listener := { once : bool; fn : Fn }.

Inductive EventType := EvMessage | EvError | EvExit.

Inductive EventArg :=
| ArgMessage (m : Message)
| ArgError (err : string)
| ArgExit (code : option Z) (signal : option string).

(** A forked worker as this module sees it. *)
Record ChildProcess := {
  on_message : list Listener;
  on_error : list Listener;
  on_exit : list Listener;
  exited : bool;
  killed : bool
}.

(** A pending [setTimeout(function () { childProcess.kill(); }, delay)]. *)
Record Timer := { delay : N; target : nat }.

Inductive Exception := TypeError | SyntaxError | ENOENT | UnhandledError (err : string).

(** Effects that leave the module, in the order they happen.
    [SlotCleared] marks the assignment [_currentRenderMsg = null] of
    [cleanup]. *)
Inductive Obs :=
| Forked (p : nat)
| Sent (p : nat) (m : RenderMsg)
| Kill (p : nat)
| ConsoleLog (text : string)
| SlotCleared (m : RenderMsg)
| Called (m : RenderMsg) (errors : Errors) (result : option Result)
| FsCallback (id : nat)
| Uncaught (e : Exception).

#[global] Instance Pos_eq_dec : EqDecision Pos.
Proof. solve_decision. Defined.
#[global] Instance CompileError_eq_dec : EqDecision CompileError.
Proof. solve_decision. Defined.
#[global] Instance PreviewEnv_eq_dec : EqDecision PreviewEnv.
Proof. solve_decision. Defined.
#[global] Instance Callback_eq_dec : EqDecision Callback.
Proof. solve_decision. Defined.
#[global] Instance RenderMsg_eq_dec : EqDecision RenderMsg.
Proof. solve_decision. Defined.
#[global] Instance Attempt_eq_dec : EqDecision Attempt.
Proof. solve_decision. Defined.
#[global] Instance Fn_eq_dec : EqDecision Fn.
Proof. solve_decision. Defined.

(** The host the domain runs on: the working directory of the node
    process, [os.tmpdir()], the hex MD5 digest of a string, and what
    [String.prototype.replace] does with a global regular expression
    whose source has special characters.  Such a source is taken to be
    a pattern that [new RegExp] accepts; the properties of messages are
    stated for sources without special characters. *)
Record Host := {
  cwd : string;
  os_tmpdir : string;
  md5_hex : string -> string;
  regexp_remove : string -> string -> string
}.

(** ** The state *)

Record State := {
  (* the module's variables *)
  _tmpdir : option string;
  _compilerProcess : option nat;
  _currentRenderMsg : option RenderMsg;
  _queue : list RenderMsg;
  tmpFolders : list string;
  (* Node *)
  procs : list ChildProcess;
  timers : gmap nat Timer;
  next_timer : nat;
  fs : gset string;
  next_rid : nat;
  trace : list Obs
}.

Definition init : State := {|
  _tmpdir := None; _compilerProcess := None; _currentRenderMsg := None;
  _queue := []; tmpFolders := []; procs := []; timers := ∅; next_timer := 0;
  fs := ∅; next_rid := 0; trace := []
|}.

Definition set_tmpdir (v : option string) (s : State) : State :=
  {| _tmpdir := v; _compilerProcess := _compilerProcess s;
     _currentRenderMsg := _currentRenderMsg s; _queue := _queue s;
     tmpFolders := tmpFolders s; procs := procs s; timers := timers s;
     next_timer := next_timer s; fs := fs s; next_rid := next_rid s;
     trace := trace s |}.

Definition set_compilerProcess (v : option nat) (s : State) : State :=
  {| _tmpdir := _tmpdir s; _compilerProcess := v;
     _currentRenderMsg := _currentRenderMsg s; _queue := _queue s;
     tmpFolders := tmpFolders s; procs := procs s; timers := timers s;
     next_timer := next_timer s; fs := fs s; next_rid := next_rid s;
     trace := trace s |}.

Definition set_currentRenderMsg (v : option RenderMsg) (s : State) : State :=
  {| _tmpdir := _tmpdir s; _compilerProcess := _compilerProcess s;
     _currentRenderMsg := v; _queue := _queue s;
     tmpFolders := tmpFolders s; procs := procs s; timers := timers s;
     next_timer := next_timer s; fs := fs s; next_rid := next_rid s;
     trace := trace s |}.

Definition set_queue (v : list RenderMsg) (s : State) : State :=
  {| _tmpdir := _tmpdir s; _compilerProcess := _compilerProcess s;
     _currentRenderMsg := _currentRenderMsg s; _queue := v;
     tmpFolders := tmpFolders s; procs := procs s; timers := timers s;
     next_timer := next_timer s; fs := fs s; next_rid := next_rid s;
     trace := trace s |}.

Definition set_tmpFolders (v : list string) (s : State) : State :=
  {| _tmpdir := _tmpdir s; _compilerProcess := _compilerProcess s;
     _currentRenderMsg := _currentRenderMsg s; _queue := _queue s;
     tmpFolders := v; procs := procs s; timers := timers s;
     next_timer := next_timer s; fs := fs s; next_rid := next_rid s;
     trace := trace s |}.

Definition set_procs (v : list ChildProcess) (s : State) : State :=
  {| _tmpdir := _tmpdir s; _compilerProcess := _compilerProcess s;
     _currentRenderMsg := _currentRenderMsg s; _queue := _queue s;
     tmpFolders := tmpFolders s; procs := v; timers := timers s;
     next_timer := next_timer s; fs := fs s; next_rid := next_rid s;
     trace := trace s |}.

Definition set_timers (v : gmap nat Timer) (n : nat) (s : State) : State :=
  {| _tmpdir := _tmpdir s; _compilerProcess := _compilerProcess s;
     _currentRenderMsg := _currentRenderMsg s; _queue := _queue s;
     tmpFolders := tmpFolders s; procs := procs s; timers := v;
     next_timer := n; fs := fs s; next_rid := next_rid s;
     trace := trace s |}.

Definition set_fs (v : gset string) (s : State) : State :=
  {| _tmpdir := _tmpdir s; _compilerProcess := _compilerProcess s;
     _currentRenderMsg := _currentRenderMsg s; _queue := _queue s;
     tmpFolders := tmpFolders s; procs := procs s; timers := timers s;
     next_timer := next_timer s; fs := v; next_rid := next_rid s;
     trace := trace s |}.

Definition set_next_rid (v : nat) (s : State) : State :=
  {| _tmpdir := _tmpdir s; _compilerProcess := _compilerProcess s;
     _currentRenderMsg := _currentRenderMsg s; _queue := _queue s;
     tmpFolders := tmpFolders s; procs := procs s; timers := timers s;
     next_timer := next_timer s; fs := fs s; next_rid := v;
     trace := trace s |}.

(** Append one effect to the trace. *)
Definition emit_obs (o : Obs) (s : State) : State :=
  {| _tmpdir := _tmpdir s; _compilerProcess := _compilerProcess s;
     _currentRenderMsg := _currentRenderMsg s; _queue := _queue s;
     tmpFolders := tmpFolders s; procs := procs s; timers := timers s;
     next_timer := next_timer s; fs := fs s; next_rid := next_rid s;
     trace := trace s ++ [o] |}.

(** ** Node: emitters, processes, timers, files *)

(** Change the entry of process [p] in the table. *)
Definition update_process (p : nat) (f : ChildProcess -> ChildProcess) (s : State) : State :=
  set_procs (alter f p (procs s)) s.

Definition get_listeners (ev : EventType) (c : ChildProcess) : list Listener :=
  match ev with
  | EvMessage => on_message c
  | EvError => on_error c
  | EvExit => on_exit c
  end.

Definition set_listeners (ev : EventType) (ls : list Listener) (c : ChildProcess) : ChildProcess :=
  match ev with
  | EvMessage => {| on_message := ls; on_error := on_error c; on_exit := on_exit c;
                    exited := exited c; killed := killed c |}
  | EvError => {| on_message := on_message c; on_error := ls; on_exit := on_exit c;
                  exited := exited c; killed := killed c |}
  | EvExit => {| on_message := on_message c; on_error := on_error c; on_exit := ls;
                 exited := exited c; killed := killed c |}
  end.

(** [emitter.on(ev, f)] and [emitter.once(ev, f)]: a new entry at the end
    of the array. *)
Definition add_listener (ev : EventType) (l : Listener) (p : nat) (s : State) : State :=
  update_process p (fun c => set_listeners ev (get_listeners ev c ++ [l]) c) s.

Fixpoint remove_first (f : Fn) (ls : list Listener) : list Listener :=
  match ls with
  | [] => []
  | l :: rest => if decide (fn l = f) then rest else l :: remove_first f rest
  end.

(** [emitter.removeListener(ev, f)] drops the most recently added entry
    for [f], whether it was added with [on] or with [once]. *)
Definition remove_last (f : Fn) (ls : list Listener) : list Listener :=
  rev (remove_first f (rev ls)).

Definition removeListener (ev : EventType) (f : Fn) (p : nat) (s : State) : State :=
  update_process p (fun c => set_listeners ev (remove_last f (get_listeners ev c)) c) s.

Definition fresh_process : ChildProcess :=
  {| on_message := []; on_error := []; on_exit := []; exited := false; killed := false |}.

(** [cp.fork(renderScript)]: the new handle is the next index. *)
Definition fork (s : State) : nat * State :=
  let p := List.length (procs s) in
  (p, emit_obs (Forked p) (set_procs (procs s ++ [fresh_process]) s)).

Definition alive (p : nat) (s : State) : bool :=
  match procs s !! p with
  | Some c => negb (exited c)
  | None => false
  end.

Definition set_killed (c : ChildProcess) : ChildProcess :=
  {| on_message := on_message c; on_error := on_error c; on_exit := on_exit c;
     exited := exited c; killed := true |}.

Definition set_exited (c : ChildProcess) : ChildProcess :=
  {| on_message := on_message c; on_error := on_error c; on_exit := on_exit c;
     exited := true; killed := killed c |}.

(** [childProcess.kill()]: SIGTERM for a process that still runs,
    nothing otherwise. *)
Definition kill (p : nat) (s : State) : State :=
  if alive p s then emit_obs (Kill p) (update_process p set_killed s) else s.

(** The process is gone; its ['exit'] event follows. *)
Definition mark_exited (p : nat) (s : State) : State := update_process p set_exited s.

Definition setTimeout (ms : N) (p : nat) (s : State) : nat * State :=
  let t := next_timer s in
  (t, set_timers (<[t := {| delay := ms; target := p |}]> (timers s)) (S t) s).

Definition clearTimeout (t : nat) (s : State) : State :=
  set_timers (delete t (timers s)) (next_timer s) s.

(** [childProcess.send(m)] *)
Definition send (p : nat) (m : RenderMsg) (s : State) : State := emit_obs (Sent p m) s.

(** The file system is the set of the paths that exist, each written as
    its resolved path; contents and the kind of a path (file or
    directory) are not modelled.  The functions below take the paths
    they are given as they are written and stand for the library's on
    resolved paths; of the ways they can fail, only the missing source
    of a copy is modelled. *)
Definition underb (d q : string) : bool := String.eqb q d || prefixb (d +:+ "/") q.

(** [fsextra.removeSync(d)]: [d] and all below it; no error when [d] is
    not there. *)
Definition removeSync (d : string) (files : gset string) : gset string :=
  filter (fun q => underb d q = false) files.

Definition existsSync (p : string) (files : gset string) : bool := bool_decide (p ∈ files).

(** The directories [mkdirs] makes sure of, from the root down to [p]. *)
Definition mkdirs (h : Host) (p : string) : gset string :=
  let segs := segments (path.resolve (cwd h) [p]) in
  list_to_set (List.map (fun k => "/" +:+ join_sep (take k segs)) (seq 1 (List.length segs))).

(** [fsextra.copySync(src, dst)]: throws when [src] is missing, else
    copies [src] and all below it. *)
Definition copySync (h : Host) (src dst : string) (files : gset string) : option (gset string) :=
  if existsSync src files then
    Some (files ∪ mkdirs h (path.dirname dst)
          ∪ set_map (fun q => dst +:+ slice_from (String.length src) q)
              (filter (fun q => underb src q = true) files))
  else None.

(** [fsextra.outputFileSync(p, text)] *)
Definition outputFileSync (h : Host) (p : string) (files : gset string) : gset string :=
  files ∪ mkdirs h (path.dirname p) ∪ {[ p ]}.

(** ** The worker handle and the dispatcher *)

Definition _createChildProcess (s : State) : nat * State :=
  match _compilerProcess s with
  | Some p => (p, s)
  | None =>
      let '(p, s) := fork s in
      let s := set_compilerProcess (Some p) s in
      (* Recreate the process if it dies unexpectedly *)
      let s := add_listener EvExit {| once := false; fn := ResetHandle |} p s in
      (p, s)
  end.

Definition _nextRender (s : State) : State :=
  match _currentRenderMsg s, _queue s with
  | Some _, _ => s
  | None, [] => s
  | None, m :: rest =>
      let s := set_queue rest (set_currentRenderMsg (Some m) s) in
      let '(p, s) := _createChildProcess s in
      let '(t, s) := setTimeout 10000%N p s in
      let a := {| renderMsg := m; childProcess := p; timeout := t |} in
      let s := add_listener EvMessage {| once := true; fn := MessageListener a |} p s in
      let s := add_listener EvError {| once := true; fn := ErrorListener a |} p s in
      let s := add_listener EvExit {| once := true; fn := ExitListener a |} p s in
      send p m s
  end.

Definition cleanup (a : Attempt) (s : State) : State :=
  let s := emit_obs (SlotCleared (renderMsg a)) (set_currentRenderMsg None s) in
  let s := clearTimeout (timeout a) s in
  let s := removeListener EvMessage (MessageListener a) (childProcess a) s in
  let s := removeListener EvError (ErrorListener a) (childProcess a) s in
  let s := removeListener EvExit (ExitListener a) (childProcess a) s in
  _nextRender s.

(** [callback(errors, result)] with [callback = renderMsg._callback]. *)
Definition call_callback (a : Attempt) (errors : Errors) (result : option Result)
    (s : State) : State :=
  emit_obs (Called (renderMsg a) errors result) s.

(** A listener returns the new state and the exception it raised. *)
Definition messageListener (a : Attempt) (m : Message) (s : State) : State * option Exception :=
  if truthy (msg_log m) then
    (emit_obs (ConsoleLog (default "" (msg_log m))) s, None)
  else if truthy (msg_css m) then
    let s := cleanup a s in
    match msg_map m with
    | None => (s, Some SyntaxError)
    | Some parsed =>
        (call_callback a NoErrors
           (Some {| css := default "" (msg_css m); map := parsed; error := msg_error m |}) s,
         None)
    end
  else match msg_error m with
       | Some e => (call_callback a (ErrorList [e]) None (cleanup a s), None)
       | None => (s, None)
       end.

Definition errorListener (a : Attempt) (err : string) (s : State) : State * option Exception :=
  (call_callback a (RawError err) None (cleanup a s), None).

(** [""  + signal] for a signal name or [null]. *)
Definition signal_text (signal : option string) : string := default "null" signal.

Definition fatal_error (m : RenderMsg) (signal : option string) : CompileError :=
  let errString := "Fatal node-sass error, signal=" +:+ signal_text signal in
  {| errorString := Some errString;
     path := file m;
     pos := Some {| line := None; ch := Some 0 |};
     message := errString |}.

Definition exitListener (a : Attempt) (code : option Z) (signal : option string)
    (s : State) : State * option Exception :=
  let s := cleanup a s in
  match code with
  | None => (call_callback a (ErrorList [fatal_error (renderMsg a) signal]) None s, None)
  | Some _ => (s, None)
  end.

Definition call_fn (f : Fn) (arg : EventArg) (s : State) : State * option Exception :=
  match f, arg with
  | ResetHandle, _ => (set_compilerProcess None s, None)
  | MessageListener a, ArgMessage m => messageListener a m s
  | ErrorListener a, ArgError err => errorListener a err s
  | ExitListener a, ArgExit code signal => exitListener a code signal s
  | _, _ => (s, None)
  end.

(** The listeners of an emission run in turn from a copy of the array;
    an exception ends the emission and reaches the event loop. *)
Fixpoint run_listeners (ls : list Listener) (ev : EventType) (p : nat) (arg : EventArg)
    (s : State) : State :=
  match ls with
  | [] => s
  | l :: rest =>
      let s := if once l then removeListener ev (fn l) p s else s in
      match call_fn (fn l) arg s with
      | (s, None) => run_listeners rest ev p arg s
      | (s, Some e) => emit_obs (Uncaught e) s
      end
  end.

Definition emit (ev : EventType) (p : nat) (arg : EventArg) (s : State) : State :=
  match procs s !! p with
  | None => s
  | Some c =>
      match get_listeners ev c, arg with
      | [], ArgError err => emit_obs (Uncaught (UnhandledError err)) s
      | ls, _ => run_listeners ls ev p arg s
      end
  end.

(** ** Path rewriting and the completion callbacks *)

Section Domain.

Context (h : Host).

(** [normalize] of the module: resolve, then keep the text from the
    first separator on. *)
Definition normalize (fullPath : string) : string :=
  let result := path.resolve (cwd h) [path.normalize fullPath] in
  match index_of_sep result with
  | Some firstSep => slice_from firstSep result
  | None => result
  end.

Definition tmpdir (s : State) : string :=
  match _tmpdir s with
  | Some d => if nonempty d then d else
      let baseTmpDir := os_tmpdir h in
      (if ends_with_sep baseTmpDir then baseTmpDir else baseTmpDir +:+ path.sep)
      +:+ "brackets-sass"
  | None =>
      let baseTmpDir := os_tmpdir h in
      (if ends_with_sep baseTmpDir then baseTmpDir else baseTmpDir +:+ path.sep)
      +:+ "brackets-sass"
  end.

Definition paths_of (pathsArray : PathsArg) : list string :=
  match pathsArray with
  | NoPaths => []
  | OnePath p => if nonempty p then [p] else []
  | PathList l => l
  end.

Definition _toRelativePaths (file : string) (pathsArray : PathsArg) : list string :=
  List.map (fun p => path.relative (cwd h) file (path.resolve (cwd h) [file; p]))
    (paths_of pathsArray).

Definition _toAbsolutePaths (file : string) (pathsArray : PathsArg) (tmpRoot : option string)
  : list string :=
  flat_map
    (fun p =>
       let absolute := path.resolve (cwd h) [file; p] in
       (* If tmpRoot is defined, and path is relative, add relative path in tmpRoot *)
       if truthy tmpRoot && negb (String.eqb p absolute)
       then [path.resolve (cwd h) [default "" tmpRoot; p]; absolute]
       else [absolute])
    (paths_of pathsArray).

(** The loop over [map.sources] in [render]'s callback: the input file
    goes to the front, every other source to the end. *)
Definition render_source (file outFolder : string) (newSources : list string)
    (source : string) : list string :=
  let absPath := path.resolve (cwd h) [outFolder; source] in
  if String.eqb (path.normalize absPath) file
  then path.relative (cwd h) outFolder file :: newSources
  else newSources ++ [path.relative (cwd h) outFolder absPath].

Definition render_sources (file outFile : string) (sources : list string) : list string :=
  fold_left (render_source file (path.dirname outFile)) sources [].

Definition render_result (file outFile : string) (result : option Result) : option Result :=
  match result with
  | Some r =>
      match map r with
      | MapObject (Some sources) =>
          Some {| css := css r;
                  map := MapObject (Some (render_sources file outFile sources));
                  error := error r |}
      | _ => result
      end
  | None => None
  end.

(** A global regular expression made from a string without special
    characters matches that string and nothing else. *)
Definition regexp_special (c : ascii) : bool :=
  existsb (Ascii.eqb c) (list_ascii_of_string "\^$.*+?()[]{}|").

Definition literal_source (src : string) : bool :=
  forallb (fun c => negb (regexp_special c)) (list_ascii_of_string src).

(** [s.replace(/pat/g, "")] for a literal [pat]: the matches are looked
    for from left to right, each search starting where the previous
    match ended; [skip] counts the characters of a match still to be
    left out. *)
Fixpoint remove_matches (pat : string) (skip : nat) (s : string) : string :=
  match s with
  | EmptyString => EmptyString
  | String c s' =>
      match skip with
      | S k => remove_matches pat k s'
      | O =>
          if prefixb pat s then
            match String.length pat with
            | S k => remove_matches pat k s'
            | O => String c (remove_matches pat O s')
            end
          else String c (remove_matches pat O s')
      end
  end.

Definition _removePathFromErrorString (errorString path : string) : string :=
  if literal_source path then remove_matches path 0 errorString
  else regexp_remove h path errorString.

(** The body of the [forEach] over the errors in [preview]'s callback. *)
Definition preview_error (env : PreviewEnv) (e : CompileError) : CompileError :=
  let normalizedTempFilePath := path.normalize (pv_tmpFile env) in
  let normalizedErrorPath := path.normalize (path e) in
  {| errorString := errorString e;
     path := if String.eqb normalizedErrorPath normalizedTempFilePath
             then pv_file env
             else path.resolve (cwd h) [pv_tmpFolder env; path e];
     pos := pos e;
     message := _removePathFromErrorString (message e) (pv_tmpDirPath env) |}.

Definition preview_source (env : PreviewEnv) (source : string) : string :=
  let absPath := path.resolve (cwd h) [pv_tmpOutFolder env; source] in
  if occursb (pv_tmpDirPath env) absPath
  then path.relative (cwd h) (pv_tmpOutFolder env) absPath
  else path.relative (cwd h) (pv_originalParent env) absPath.

(** What a callback does when it is called: the calls that reach the
    host, or the exception that escapes. *)
Inductive Outcome :=
| Returned (calls : list (nat * Errors * option Result))
| Threw (e : Exception).

(** [errorsToProcess] after the optional [push]; the array is the very
    one passed as [errors] when there is one, so the caller's [errors]
    grows with it.  [None]: [push] is not a function of a raw error. *)
Definition errors_to_process (errors : Errors) (result : option Result)
  : option (Errors * list CompileError) :=
  let extra := match result with
               | Some r => match error r with Some e => [e] | None => [] end
               | None => []
               end in
  match errors with
  | NoErrors => Some (NoErrors, extra)
  | ErrorList l => Some (ErrorList (l ++ extra), l ++ extra)
  | RawError err => match extra with [] => Some (RawError err, []) | _ => None end
  end.

Fixpoint invoke (cb : Callback) (errors : Errors) (result : option Result) : Outcome :=
  match cb with
  | HostCallback id => Returned [(id, errors, result)]
  | RenderCallback file outFile callback =>
      invoke callback errors (render_result file outFile result)
  | PreviewCallback env callback =>
      match errors_to_process errors result with
      | None => Threw TypeError
      | Some (errors, _) =>
          (* Remove tmpdir path prefix from error paths *)
          let errors := match errors with
                        | ErrorList l => ErrorList (List.map (preview_error env) l)
                        | _ => errors
                        end in
          match result with
          | None => invoke callback errors None
          | Some r =>
              let r := {| css := css r; map := map r;
                          error := preview_error env <$> error r |} in
              match map r with
              | MapNull => Threw TypeError
              | MapObject None => invoke callback errors (Some r)
              | MapObject (Some sources) =>
                  invoke callback errors
                    (Some {| css := css r;
                             map := MapObject (Some (List.map (preview_source env) sources));
                             error := error r |})
              end
          end
      end
  end.

(** ** The commands of the domain *)

Definition render (file outFile : string) (includePaths imagePaths : PathsArg)
    (outputStyle : string) (sourceComments : bool) (sourceMap compiler : string)
    (callback : Callback) (s : State) : State :=
  let cwd' := path.resolve (cwd h) [path.dirname file] +:+ path.sep in
  let includePaths := _toAbsolutePaths cwd' includePaths None in
  let imagePaths := _toAbsolutePaths cwd' imagePaths None in
  (* Paths are relative to current working directory (file parent folder) *)
  let renderMsg := {|
    rid := next_rid s;
    file := path.resolve (cwd h) [file];
    outFile := outFile;
    includePaths := includePaths;
    imagePaths := imagePaths;
    outputStyle := outputStyle;
    sourceComments := sourceComments;
    sourceMap := sourceMap;
    _file := file;
    _compiler := compiler;
    _callback := RenderCallback file outFile callback |} in
  let s := set_next_rid (S (next_rid s)) s in
  let s := set_queue (_queue s ++ [renderMsg]) s in
  _nextRender s.

Definition preview_env (file outFile : string) (s : State) : PreviewEnv :=
  let normalizedFile := normalize file in
  let originalParent := path.dirname normalizedFile in
  let md5 := md5_hex h file in
  let tmpDirPath := path.join [tmpdir s; md5] in
  let tmpFolder := path.join [tmpDirPath; originalParent] in
  let tmpOutFolder := path.join [tmpDirPath; path.dirname (normalize outFile)] in
  {| pv_file := file;
     pv_tmpDirPath := tmpDirPath;
     pv_tmpFolder := tmpFolder;
     pv_tmpOutFolder := tmpOutFolder;
     pv_tmpFile := tmpFolder +:+ path.sep +:+ path.basename file;
     pv_originalParent := originalParent |}.

(** Copy include paths to tmpDirPath *)
Definition copy_include (tmpDirPath : string) (files : gset string) (absPath : string)
  : gset string :=
  if existsSync absPath files then
    default files (copySync h absPath (path.join [tmpDirPath; normalize absPath]) files)
  else files.

(** Write in-memory files to temp folder *)
Definition write_in_memory (tmpDirPath : string) (files : gset string)
    (entry : string * string) : gset string :=
  outputFileSync h (path.join [tmpDirPath; normalize (fst entry)]) files.

Definition preview (file outFile : string) (inMemoryFiles : list (string * string))
    (includePaths imagePaths : PathsArg) (outputStyle : string) (sourceComments : bool)
    (sourceMap compiler : string) (callback : Callback) (s : State) : State :=
  let env := preview_env file outFile s in
  let tmpDirPath := pv_tmpDirPath env in
  let tmpFolder := pv_tmpFolder env in
  let tmpFile := pv_tmpFile env in
  let tmpOutFile := pv_tmpOutFolder env +:+ path.sep +:+ path.basename outFile in
  (* Delete temp files if they exist *)
  let s := set_fs (removeSync tmpDirPath (fs s)) s in
  (* Mark folder for delete *)
  let s := set_tmpFolders (tmpFolders s ++ [tmpDirPath]) s in
  (* Copy files to temp folder *)
  match copySync h file tmpFile (fs s) with
  | None => emit_obs (Uncaught ENOENT) s
  | Some files =>
      let s := set_fs files s in
      let tmpIncludePaths :=
        _toAbsolutePaths (pv_originalParent env) includePaths (Some tmpFolder) in
      let tmpImagePaths :=
        _toAbsolutePaths (pv_originalParent env) imagePaths (Some tmpFolder) in
      let s := set_fs (fold_left (copy_include tmpDirPath) tmpIncludePaths (fs s)) s in
      (* Add original file dir as includePath to handle "../" relative imports *)
      let tmpIncludePaths := pv_originalParent env :: tmpIncludePaths in
      let s := set_fs (fold_left (write_in_memory tmpDirPath) inMemoryFiles (fs s)) s in
      render tmpFile tmpOutFile (PathList tmpIncludePaths) (PathList tmpImagePaths)
        outputStyle sourceComments sourceMap compiler (PreviewCallback env callback) s
  end.

Definition deleteTempFiles (s : State) : State :=
  let s := set_fs (fold_left (fun files tmpFolder => removeSync tmpFolder files)
                     (tmpFolders s) (fs s)) s in
  set_tmpFolders [] s.

(** [fsextra.mkdirp] is taken to succeed and to call back before the
    next event. *)
Definition mkdirp (pathToDir : string) (callback : nat) (s : State) : State :=
  emit_obs (FsCallback callback) (set_fs (fs s ∪ mkdirs h pathToDir) s).

Definition setTempDir (pathToDir : string) (callback : nat) (s : State) : State :=
  let s := set_tmpdir (Some (path.join [pathToDir; "brackets-sass"])) s in
  mkdirp (default "" (_tmpdir s)) callback s.

(** Cleanup node-sass child process on quit *)
Definition on_process_exit (s : State) : State :=
  match _compilerProcess s with
  | None => s
  | Some p => kill p s
  end.

(** ** The event loop *)

(** What can happen to the domain: a command of the host, an event of
    a worker process, a timer that expires, the editor or any other
    program changing the files on disk, and the ['exit'] event of the
    node process itself. *)
Inductive Input :=
| Render (file outFile : string) (includePaths imagePaths : PathsArg)
    (outputStyle : string) (sourceComments : bool) (sourceMap compiler : string)
    (callback : nat)
| Preview (file outFile : string) (inMemoryFiles : list (string * string))
    (includePaths imagePaths : PathsArg) (outputStyle : string) (sourceComments : bool)
    (sourceMap compiler : string) (callback : nat)
| DeleteTempFiles
| Mkdirp (pathToDir : string) (callback : nat)
| SetTempDir (pathToDir : string) (callback : nat)
| WorkerMessage (p : nat) (m : Message)
| WorkerError (p : nat) (err : string)
| WorkerExit (p : nat) (code : option Z) (signal : option string)
| TimerFired (t : nat)
| FileSystemChanged (files : gset string)
| NodeExit.

Definition step (s : State) (i : Input) : State :=
  match i with
  | Render file outFile inc img style comments smap compiler cb =>
      render file outFile inc img style comments smap compiler (HostCallback cb) s
  | Preview file outFile mem inc img style comments smap compiler cb =>
      preview file outFile mem inc img style comments smap compiler (HostCallback cb) s
  | DeleteTempFiles => deleteTempFiles s
  | Mkdirp d cb => mkdirp d cb s
  | SetTempDir d cb => setTempDir d cb s
  | WorkerMessage p m => emit EvMessage p (ArgMessage m) s
  | WorkerError p err => emit EvError p (ArgError err) s
  | WorkerExit p code signal => emit EvExit p (ArgExit code signal) (mark_exited p s)
  | TimerFired t =>
      match timers s !! t with
      | Some tm => kill (target tm) (clearTimeout t s)
      | None => s
      end
  | FileSystemChanged files => set_fs files s
  | NodeExit => on_process_exit s
  end.

(** A process exits once, and only a process that was forked. *)
Definition admissible (s : State) (i : Input) : Prop :=
  match i with
  | WorkerExit p _ _ => alive p s = true
  | _ => True
  end.

(** The states the domain can be in between two events, from the
    moment the module is loaded. *)
Inductive reachable : State -> Prop :=
| reachable_init : reachable init
| reachable_step s i : reachable s -> admissible s i -> reachable (step s i).

(** The inputs of a list, one after the other. *)
Definition run (s : State) (inputs : list Input) : State := fold_left step inputs s.

End Domain.

(** ** Vocabulary of the properties *)

(** A source of the map is the input file when it resolves, from the
    folder of the output file, to [file]. *)
Definition is_entry (h : Host) (file outFile source : string) : bool :=
  String.eqb (path.normalize (path.resolve (cwd h) [path.dirname outFile; source])) file.

(** A source re-expressed relative to the folder of the output file. *)
Definition to_outFolder (h : Host) (outFile source : string) : string :=
  path.relative (cwd h) (path.dirname outFile)
    (path.resolve (cwd h) [path.dirname outFile; source]).

(** A source of the map resolves, from the folder of the output file,
    to the entry file that is compiled, [path.resolve(file)]. *)
Definition resolves_to_entry (h : Host) (file outFile source : string) : bool :=
  String.eqb (path.resolve (cwd h) [path.dirname outFile; source])
    (path.resolve (cwd h) [file]).

(** No match of [pat] starts inside [pre] in the text [pre ++ rest]. *)
Fixpoint no_match_in (pat pre rest : string) : bool :=
  match pre with
  | EmptyString => true
  | String c pre' => negb (prefixb pat (pre +:+ rest)) && no_match_in pat pre' rest
  end.

(** A text written as pieces, each followed by [root], and a last
    piece [post]. *)
Fixpoint interleave (root : string) (pieces : list string) (post : string) : string :=
  match pieces with
  | [] => post
  | p :: ps => p +:+ root +:+ interleave root ps post
  end.

(** The occurrences of [root] that a search from left to right finds in
    [interleave root pieces post] are the ones written out: none starts
    inside a piece, none is in [post]. *)
Fixpoint separated (root : string) (pieces : list string) (post : string) : bool :=
  match pieces with
  | [] => negb (occursb root post)
  | p :: ps =>
      no_match_in root p (root +:+ interleave root ps post) && separated root ps post
  end.

Definition reset_listener : Listener := {| once := false; fn := ResetHandle |}.

(** A process with no request in flight: only the handler that resets
    the handle listens. *)
Definition idle_proc (c : ChildProcess) : Prop :=
  on_message c = [] /\ on_error c = [] /\ on_exit c = [reset_listener].

(** A process serving attempt [a]: its error and exit listeners are in
    place; the message listener is, until a first message has run it. *)
Definition busy_proc (a : Attempt) (c : ChildProcess) : Prop :=
  (on_message c = [] \/ on_message c = [{| once := true; fn := MessageListener a |}])
  /\ on_error c = [{| once := true; fn := ErrorListener a |}]
  /\ on_exit c = [reset_listener; {| once := true; fn := ExitListener a |}].

(** The timer of attempt [a] is pending, or it has fired and the worker
    has been sent its signal. *)
Definition timer_state (a : Attempt) (c : ChildProcess) (tm : gmap nat Timer) : Prop :=
  tm = {[ timeout a := {| delay := 10000%N; target := childProcess a |} ]}
  \/ (tm = ∅ /\ killed c = true).

Definition gone_proc (c : ChildProcess) : Prop :=
  exited c = true /\ on_message c = [] /\ on_error c = [].

(** The shape of the dispatcher's state between two events. *)
Record InvS (s : State) : Prop := {
  inv_handle : forall p, _compilerProcess s = Some p ->
    exists c, procs s !! p = Some c /\ exited c = false;
  inv_others : forall p c, procs s !! p = Some c -> _compilerProcess s <> Some p ->
    gone_proc c;
  inv_idle : _currentRenderMsg s = None ->
    _queue s = [] /\ timers s = ∅
    /\ forall p c, _compilerProcess s = Some p -> procs s !! p = Some c -> idle_proc c;
  inv_busy : forall m, _currentRenderMsg s = Some m ->
    exists p c t, _compilerProcess s = Some p /\ procs s !! p = Some c
      /\ busy_proc {| renderMsg := m; childProcess := p; timeout := t |} c
      /\ timer_state {| renderMsg := m; childProcess := p; timeout := t |} c (timers s)
}.

(** The state in which [_nextRender] may dispatch: nothing in flight, no
    timer, the handle (if any) idle. *)
Record Dispatchable (s : State) : Prop := {
  d_current : _currentRenderMsg s = None;
  d_timers : timers s = ∅;
  d_handle : forall p, _compilerProcess s = Some p ->
    exists c, procs s !! p = Some c /\ exited c = false /\ idle_proc c;
  d_others : forall p c, procs s !! p = Some c -> _compilerProcess s <> Some p ->
    gone_proc c
}.

(** Projections of the trace. *)
Definition sent_of (tr : list Obs) : list RenderMsg :=
  omap (fun o => match o with Sent _ m => Some m | _ => None end) tr.

Definition cleared_of (tr : list Obs) : list RenderMsg :=
  omap (fun o => match o with SlotCleared m => Some m | _ => None end) tr.

Definition called_of (tr : list Obs) : list RenderMsg :=
  omap (fun o => match o with Called m _ _ => Some m | _ => None end) tr.

Definition in_flight (s : State) : list RenderMsg :=
  match _currentRenderMsg s with
  | Some m => [m]
  | None => []
  end.

(** Attempt [a] is the one in flight. *)
Record Busy (a : Attempt) (s : State) : Prop := {
  b_current : _currentRenderMsg s = Some (renderMsg a);
  b_handle : _compilerProcess s = Some (childProcess a);
  b_proc : exists c, procs s !! childProcess a = Some c /\ exited c = false
    /\ busy_proc a c /\ timer_state a c (timers s);
  b_others : forall q c, procs s !! q = Some c -> q <> childProcess a -> gone_proc c
}.

(** What [cleanup] of attempt [a] may rely on when a listener calls it:
    the listener that runs has already been taken off, and on an exit
    the handle has already been reset. *)
Record PreCleanup (a : Attempt) (s : State) : Prop := {
  pc_timers : delete (timeout a) (timers s) = ∅;
  pc_proc : exists c, procs s !! childProcess a = Some c
    /\ (on_message c = [] \/ on_message c = [{| once := true; fn := MessageListener a |}])
    /\ (on_error c = [] \/ on_error c = [{| once := true; fn := ErrorListener a |}])
    /\ (on_exit c = [reset_listener]
        \/ on_exit c = [reset_listener; {| once := true; fn := ExitListener a |}])
    /\ ((_compilerProcess s = Some (childProcess a) /\ exited c = false)
        \/ (_compilerProcess s = None /\ exited c = true));
  pc_others : forall q c, procs s !! q = Some c -> q <> childProcess a -> gone_proc c
}.

(** The completion calls of a trace, with their arguments. *)
Definition calls_of (tr : list Obs) : list (RenderMsg * Errors * option Result) :=
  omap (fun o => match o with Called m e r => Some (m, e, r) | _ => None end) tr.

(** The in-flight slot, followed along a trace: a request may be sent
    only while the slot is empty, and the slot is cleared only of the
    request it holds.  [None] when the trace breaks one of the two. *)
Fixpoint slot_after (slot : option RenderMsg) (tr : list Obs) : option (option RenderMsg) :=
  match tr with
  | [] => Some slot
  | Sent _ m :: tr' =>
      match slot with
      | None => slot_after (Some m) tr'
      | Some _ => None
      end
  | SlotCleared m :: tr' =>
      match slot with
      | Some m' => if decide (m' = m) then slot_after None tr' else None
      | None => None
      end
  | _ :: tr' => slot_after slot tr'
  end.

(** The order of the requests, read off the trace. *)
Record InvT (s : State) : Prop := {
  t_fifo : List.map rid (sent_of (trace s)) ++ List.map rid (_queue s) = seq 0 (next_rid s);
  t_flight : sent_of (trace s) = cleared_of (trace s) ++ in_flight s;
  t_called : sublist (called_of (trace s)) (cleared_of (trace s));
  t_slot : slot_after None (trace s) = Some (_currentRenderMsg s)
}.

Definition Inv (s : State) : Prop := InvS s /\ InvT s.

(** The request that [_nextRender] takes off the queue, if it does. *)
Definition dispatched (s : State) : list RenderMsg :=
  match _currentRenderMsg s, _queue s with
  | None, m :: _ => [m]
  | _, _ => []
  end.

(** The inputs of a run are admissible one after the other. *)
Fixpoint admissible_all (h : Host) (s : State) (inputs : list Input) : Prop :=
  match inputs with
  | [] => True
  | i :: rest => admissible s i /\ admissible_all h (step h s i) rest
  end.

(** ** Vocabulary of the further properties *)

(** A part of a path: not empty and with no separator in front. *)
Definition is_part (x : string) : Prop := nonempty x = true /\ starts_with_sep x = false.

(** A part of a path: not empty, no separator inside. *)
Fixpoint no_sep (x : string) : bool :=
  match x with
  | EmptyString => true
  | String c x' => negb (is_sep c) && no_sep x'
  end.

Definition clean_part (x : string) : Prop := nonempty x = true /\ no_sep x = true.

(** A part that [normalizeArray] keeps as it is. *)
Definition dot_free (x : string) : Prop := x <> "." /\ x <> "..".

(** There are no more processes than requests sent. *)
Definition Spawned (s : State) : Prop :=
  List.length (procs s) <= List.length (sent_of (trace s)).

(** All the requests accepted so far, in the order they are served. *)
Definition all_requests (s : State) : list RenderMsg := sent_of (trace s) ++ _queue s.

(** What [render] puts into a request besides the options it passes
    through: the resolved entry file, and a completion function that is
    its own wrapper around the host's callback or around the wrapper of
    a [preview] of the staged file. *)
Record built (h : Host) (m : RenderMsg) : Prop := {
  built_file : file m = path.resolve (cwd h) [_file m];
  built_callback : exists cb, _callback m = RenderCallback (_file m) (outFile m) cb
    /\ ((exists k, cb = HostCallback k)
        \/ (exists env k, cb = PreviewCallback env (HostCallback k)
              /\ _file m = pv_tmpFile env))
}.

Definition absolute_paths (m : RenderMsg) : Prop :=
  starts_with_sep (file m) = true
  /\ Forall (fun q => starts_with_sep q = true) (includePaths m)
  /\ Forall (fun q => starts_with_sep q = true) (imagePaths m).

(** ** A host and a request for the examples *)

(** The digest table of the example host holds the one path that the
    examples stage. *)
Definition sample_md5 (s : string) : string :=
  if String.eqb s "/proj/src/a.scss" then "3a83d065326f37bc9020cece0238f4e9"
  else "d41d8cd98f00b204e9800998ecf8427e".

(** The staging root of the examples has no special character, so
    [regexp_remove] is never asked. *)
Definition sample_host : Host :=
  {| cwd := "/"; os_tmpdir := "/tmp"; md5_hex := sample_md5;
     regexp_remove := fun _ text => text |}.

Definition sample_render : Input :=
  Render "/proj/src/a.scss" "/proj/out/a.css" NoPaths NoPaths "nested" false "true"
    "libsass" 1.

Definition sample_msg : RenderMsg :=
  {| rid := 0; file := "/proj/src/a.scss"; outFile := "/proj/out/a.css";
     includePaths := []; imagePaths := []; outputStyle := "nested";
     sourceComments := false; sourceMap := "true"; _file := "/proj/src/a.scss";
     _compiler := "libsass";
     _callback := RenderCallback "/proj/src/a.scss" "/proj/out/a.css" (HostCallback 1) |}.

(** One request dispatched to worker 0, its timer 0 pending. *)
Definition sample_state : State := step sample_host init sample_render.

Definition sample_log : Message :=
  {| msg_log := Some "compiling"; msg_css := None; msg_map := None; msg_error := None |}.

Definition sample_css : Message :=
  {| msg_log := None; msg_css := Some "a{}";
     msg_map := Some (MapObject (Some ["../src/a.scss"])); msg_error := None |}.

(** A second request behind the first, then a worker error. *)
Definition sample_run : State :=
  run sample_host init
    [sample_render;
     Render "/proj/src/b.scss" "/proj/out/b.css" NoPaths NoPaths "nested" false "true"
       "libsass" 2;
     WorkerError 0 "EPIPE"].

(** The closure of [preview "/proj/src/a.scss" "/proj/out/a.css"]. *)
Definition sample_env : PreviewEnv :=
  preview_env sample_host "/proj/src/a.scss" "/proj/out/a.css" init.

(** An error the compiler reports in the staged copy of the entry file. *)
Definition sample_entry_error : CompileError :=
  {| errorString := None;
     path := "/tmp/brackets-sass/3a83d065326f37bc9020cece0238f4e9/proj/src/a.scss";
     pos := Some {| line := Some 3; ch := Some 1 |};
     message := "Error: /tmp/brackets-sass/3a83d065326f37bc9020cece0238f4e9/proj/src/a.scss:3: invalid property name" |}.

(** An error in a staged include file, whose message quotes a line of
    the source that itself spells a path around the staging root. *)
Definition sample_include_error : CompileError :=
  {| errorString := None;
     path := "/tmp/brackets-sass/3a83d065326f37bc9020cece0238f4e9/proj/src/inc/_p.scss";
     pos := Some {| line := Some 7; ch := Some 1 |};
     message := "/tmp/brackets-sass/3a83d065326f37bc9020cece0238f4e/tmp/brackets-sass/3a83d065326f37bc9020cece0238f4e99/proj/src/inc/_p.scss:7: file to import not found" |}.

(** An error in the staged entry file whose message names the staging
    root twice. *)
Definition sample_twice_error : CompileError :=
  {| errorString := None;
     path := "/tmp/brackets-sass/3a83d065326f37bc9020cece0238f4e9/proj/src/a.scss";
     pos := Some {| line := Some 3; ch := Some 1 |};
     message := "/tmp/brackets-sass/3a83d065326f37bc9020cece0238f4e9/proj/src/a.scss:3: import of /tmp/brackets-sass/3a83d065326f37bc9020cece0238f4e9/proj/src/inc/_p.scss failed" |}.

(** The entry file on disk, a preview of it, and a success message
    whose [map] member is the JSON text [null]. *)
Definition sample_preview_run : State :=
  run sample_host init
    [FileSystemChanged {[ "/proj/src/a.scss" ]};
     Preview "/proj/src/a.scss" "/proj/out/a.css" [] NoPaths NoPaths "nested" false "true"
       "libsass" 3;
     WorkerMessage 0 {| msg_log := None; msg_css := Some "a{}"; msg_map := Some MapNull;
                        msg_error := None |}].

(** ** More states for the examples *)

Definition sample_render_b : Input :=
  Render "/proj/src/b.scss" "/proj/out/b.css" NoPaths NoPaths "nested" false "true"
    "libsass" 2.

Definition sample_msg_b : RenderMsg :=
  {| rid := 1; file := "/proj/src/b.scss"; outFile := "/proj/out/b.css";
     includePaths := []; imagePaths := []; outputStyle := "nested";
     sourceComments := false; sourceMap := "true"; _file := "/proj/src/b.scss";
     _compiler := "libsass";
     _callback := RenderCallback "/proj/src/b.scss" "/proj/out/b.css" (HostCallback 2) |}.

(** The first request in flight on worker 0, the second in the queue. *)
Definition sample_two : State := run sample_host init [sample_render; sample_render_b].

(** The attempt of the first request and the worker that serves it. *)
Definition sample_attempt : Attempt :=
  {| renderMsg := sample_msg; childProcess := 0; timeout := 0 |}.

Definition sample_worker : ChildProcess :=
  {| on_message := [{| once := true; fn := MessageListener sample_attempt |}];
     on_error := [{| once := true; fn := ErrorListener sample_attempt |}];
     on_exit := [reset_listener; {| once := true; fn := ExitListener sample_attempt |}];
     exited := false; killed := false |}.

(** The first request completed: worker 0 is idle. *)
Definition sample_idle : State :=
  run sample_host init [sample_render; WorkerMessage 0 sample_css].

(** The entry file on disk, and a preview of it with an unsaved file
    of the editor. *)
Definition sample_disk : State :=
  step sample_host init (FileSystemChanged {[ "/proj/src/a.scss" ]}).

Definition sample_preview : Input :=
  Preview "/proj/src/a.scss" "/proj/out/a.css" [("/proj/src/_unsaved.scss", "a{}")]
    (OnePath "inc") NoPaths "nested" false "true" "libsass" 3.

Definition sample_staged : State := step sample_host sample_disk sample_preview.

Definition sample_staged_msg : RenderMsg :=
  {| rid := 0;
     file := pv_tmpFile sample_env;
     outFile := pv_tmpOutFolder sample_env +:+ "/a.css";
     includePaths := ["/proj/src"; pv_tmpFolder sample_env +:+ "/inc"; "/proj/src/inc"];
     imagePaths := []; outputStyle := "nested"; sourceComments := false;
     sourceMap := "true";
     _file := pv_tmpFile sample_env;
     _compiler := "libsass";
     _callback :=
       RenderCallback (pv_tmpFile sample_env) (pv_tmpOutFolder sample_env +:+ "/a.css")
         (PreviewCallback sample_env (HostCallback 3)) |}.

(** A message with none of the members the listener looks at. *)
Definition sample_empty : Message :=
  {| msg_log := None; msg_css := None; msg_map := None; msg_error := None |}.

(** A success message whose [map] member is not JSON text. *)
Definition sample_bad_map : Message :=
  {| msg_log := None; msg_css := Some "a{}"; msg_map := None; msg_error := None |}.

(** * Proofs *)

(** ** Node's paths on examples *)

Example resolve_up : path.resolve "/" ["/proj/out"; "../src/a.scss"] = "/proj/src/a.scss".
Proof. reflexivity. Qed.

Example resolve_cwd : path.resolve "/home/me" ["src/./a.scss"] = "/home/me/src/a.scss".
Proof. reflexivity. Qed.

Example relative_up : path.relative "/" "/proj/out" "/proj/src/a.scss" = "../src/a.scss".
Proof. reflexivity. Qed.

Example normalize_dots : path.normalize "/proj/src/../src//a.scss" = "/proj/src/a.scss".
Proof. reflexivity. Qed.

Example join_abs : path.join ["/tmp/brackets-sass/0f"; "/proj/src"] = "/tmp/brackets-sass/0f/proj/src".
Proof. reflexivity. Qed.

Example dirname_file : path.dirname "/proj/out/a.css" = "/proj/out".
Proof. reflexivity. Qed.

Example dirname_bare : path.dirname "a.css" = ".".
Proof. reflexivity. Qed.

Example basename_file : path.basename "/proj/src/a.scss" = "a.scss".
Proof. reflexivity. Qed.

(** ** Path rewriting, staging registry *)

Section Rewriting.

Context (h : Host).

Lemma render_source_cases file outFile acc source :
  render_source h file (path.dirname outFile) acc source
  = if is_entry h file outFile source
    then path.relative (cwd h) (path.dirname outFile) file :: acc
    else acc ++ [to_outFolder h outFile source].
Proof. reflexivity. Qed.

Lemma render_sources_acc file outFile sources k rest :
  fold_left (render_source h file (path.dirname outFile)) sources
    (replicate k (path.relative (cwd h) (path.dirname outFile) file) ++ rest)
  = replicate (k + List.length (List.filter (is_entry h file outFile) sources))
      (path.relative (cwd h) (path.dirname outFile) file)
    ++ rest ++ List.map (to_outFolder h outFile)
                 (List.filter (fun s => negb (is_entry h file outFile s)) sources).
Proof.
  revert k rest. induction sources as [|src sources IH]; intros k rest; simpl.
  - by rewrite Nat.add_0_r, app_nil_r.
  - rewrite render_source_cases. destruct (is_entry h file outFile src); simpl.
    + change (?x :: replicate k ?x ++ rest) with (replicate (S k) x ++ rest).
      rewrite IH. do 2 f_equal. lia.
    + rewrite <- app_assoc, IH. by rewrite <- app_assoc.
Qed.

Lemma elem_of_remove_all (ds : list string) (files : gset string) (q : string) :
  q ∈ fold_left (fun files d => removeSync d files) ds files
  <-> q ∈ files /\ forall d, d ∈ ds -> underb d q = false.
Proof.
  revert files. induction ds as [|d ds IH]; intros files; simpl.
  - split; [intros H; split; [done|] | tauto]. intros d Hd. by apply elem_of_nil in Hd.
  - rewrite IH. unfold removeSync. rewrite elem_of_filter. split.
    + intros [[Hq Hin] Hall]. split; [done|]. intros d' Hd'.
      apply elem_of_cons in Hd' as [->|Hd']; auto.
    + intros [Hin Hall]. repeat split; auto.
      * apply Hall. apply elem_of_cons; auto.
      * intros d' Hd'. apply Hall. apply elem_of_cons; auto.
Qed.

Lemma nextRender_tmpFolders s : tmpFolders (_nextRender s) = tmpFolders s.
Proof.
  unfold _nextRender, _createChildProcess.
  destruct (_currentRenderMsg s), (_queue s); try reflexivity.
  simpl. destruct (_compilerProcess s); reflexivity.
Qed.

Lemma preview_registers file outFile mem inc img style comments smap compiler cb s :
  tmpFolders (preview h file outFile mem inc img style comments smap compiler cb s)
  = tmpFolders s ++ [pv_tmpDirPath (preview_env h file outFile s)].
Proof.
  unfold preview. cbn [fs set_tmpFolders set_fs].
  destruct (copySync _ _ _ _); [|reflexivity].
  unfold render. by rewrite nextRender_tmpFolders.
Qed.

End Rewriting.

(** ** The invariant of the dispatcher *)

Lemma lookup_update_process p f s q :
  procs (update_process p f s) !! q
  = if decide (p = q) then f <$> procs s !! q else procs s !! q.
Proof. unfold update_process. simpl. rewrite list_lookup_alter. by destruct (decide (p = q)); subst. Qed.

Lemma InvS_frame s s' :
  _compilerProcess s' = _compilerProcess s ->
  _currentRenderMsg s' = _currentRenderMsg s ->
  _queue s' = _queue s ->
  procs s' = procs s ->
  timers s' = timers s ->
  InvS s -> InvS s'.
Proof.
  intros E1 E2 E3 E4 E5 [H1 H2 H3 H4].
  split; rewrite ?E1, ?E2, ?E3, ?E4, ?E5; assumption.
Qed.

Lemma nextRender_inv s : Dispatchable s -> InvS (_nextRender s).
Proof.
  intros [Hc Ht Hh Ho]. unfold _nextRender. rewrite Hc.
  destruct (_queue s) as [|m rest] eqn:Hq.
  { split.
    - intros p Hp. destruct (Hh p Hp) as (c & ? & ? & ?). eauto.
    - exact Ho.
    - intros _. split; [done|]. split; [done|]. intros p c Hp Hl.
      destruct (Hh p Hp) as (c' & ? & ? & ?). congruence.
    - intros m. rewrite Hc. discriminate. }
  unfold _createChildProcess. cbn [_compilerProcess set_queue set_currentRenderMsg].
  destruct (_compilerProcess s) as [p|] eqn:Hp.
  - destruct (Hh p eq_refl) as (c & Hl & Hex & Hm & He & Hx).
    split; cbn; rewrite ?Hp.
    + intros p' [= <-]. rewrite !list_lookup_alter_eq, Hl. simpl. eexists; split; [reflexivity|].
      destruct c; simpl in *. done.
    + intros p' c' Hl' Hne. rewrite !list_lookup_alter_ne in Hl' by congruence. eauto.
    + discriminate.
    + intros m' [= <-]. exists p. eexists. exists (next_timer s). split; [done|].
      rewrite !list_lookup_alter_eq, Hl. simpl. split; [reflexivity|].
      destruct c; simpl in *; subst. split.
      * unfold busy_proc; simpl. auto.
      * left. simpl. by rewrite Ht, insert_empty.
  - split; cbn.
    + intros p' [= <-]. rewrite !list_lookup_alter_eq.
      rewrite list_lookup_middle by done. simpl. eauto.
    + intros p' c' Hl' Hne.
      rewrite !list_lookup_alter_ne in Hl' by congruence.
      apply lookup_app_Some in Hl' as [Hl'|[Hge Hl']].
      * apply (Ho p' c' Hl'). discriminate.
      * destruct (p' - List.length (procs s)) as [|k] eqn:Hk.
        -- exfalso. apply Hne. f_equal. lia.
        -- simpl in Hl'. by rewrite lookup_nil in Hl'.
    + discriminate.
    + intros m' [= <-]. exists (List.length (procs s)). eexists. exists (next_timer s).
      split; [done|]. rewrite !list_lookup_alter_eq.
      rewrite list_lookup_middle by done. simpl. split; [reflexivity|]. split.
      * unfold busy_proc; simpl. auto.
      * left. simpl. by rewrite Ht, insert_empty.
Qed.

Lemma InvS_busy s m :
  InvS s -> _currentRenderMsg s = Some m ->
  exists p t, Busy {| renderMsg := m; childProcess := p; timeout := t |} s.
Proof.
  intros [H1 H2 H3 H4] Hm. destruct (H4 m Hm) as (p & c & t & Hp & Hl & Hb & Ht).
  exists p, t. split; simpl; auto.
  - destruct (H1 p Hp) as (c' & Hl' & Hex). exists c. split; [done|].
    split; [congruence|]. auto.
  - intros q c' Hl' Hne. apply (H2 q c' Hl'). congruence.
Qed.

Lemma Busy_InvS a s : Busy a s -> InvS s.
Proof.
  intros [Hc Hh (c & Hl & Hex & Hb & Ht) Ho]. split.
  - intros p Hp. rewrite Hh in Hp. injection Hp as <-. eauto.
  - intros q c' Hl' Hne. apply (Ho q c' Hl'). congruence.
  - rewrite Hc. discriminate.
  - intros m Hm. rewrite Hc in Hm. injection Hm as <-.
    exists (childProcess a), c, (timeout a). destruct a; simpl in *. auto.
Qed.

Lemma remove_last_single f x : fn x = f -> remove_last f [x] = [].
Proof. intros H. unfold remove_last. simpl. by rewrite decide_True. Qed.

Lemma remove_last_second f y x : fn y <> f -> fn x = f -> remove_last f [y; x] = [y].
Proof. intros Hy Hx. unfold remove_last. simpl. by rewrite decide_True. Qed.

Lemma remove_last_other f y : fn y <> f -> remove_last f [y] = [y].
Proof. intros Hy. unfold remove_last. simpl. by rewrite decide_False. Qed.

Lemma Busy_PreCleanup a s : Busy a s -> PreCleanup a s.
Proof.
  intros [Hc Hh (c & Hl & Hex & (Hm & He & Hx) & Ht) Ho]. split; auto.
  - destruct Ht as [-> | [-> _]]; [apply delete_singleton_eq | apply delete_empty].
  - exists c. split; [done|]. repeat split; auto.
Qed.

Lemma PreCleanup_removeListener a s ev f :
  (ev = EvMessage /\ f = MessageListener a) \/ (ev = EvError /\ f = ErrorListener a)
  \/ (ev = EvExit /\ f = ExitListener a) ->
  PreCleanup a s -> PreCleanup a (removeListener ev f (childProcess a) s).
Proof.
  intros Hev [Ht (c & Hl & Hm & He & Hx & Hh) Ho]. split.
  - exact Ht.
  - unfold removeListener. rewrite lookup_update_process, decide_True by done.
    rewrite Hl. simpl. eexists. split; [reflexivity|].
    destruct Hev as [[-> ->]|[[-> ->]|[-> ->]]]; simpl; repeat split; auto.
    + left. destruct Hm as [->| ->]; [done | by apply remove_last_single].
    + left. destruct He as [->| ->]; [done | by apply remove_last_single].
    + left. destruct Hx as [->| ->]; [by apply remove_last_other | by apply remove_last_second].
  - intros q c' Hl' Hne. unfold removeListener in Hl'.
    rewrite lookup_update_process, decide_False in Hl' by done. eauto.
Qed.

Ltac solve_removed :=
  cbn; repeat first [rewrite decide_True by done | rewrite decide_False by done]; cbn.

Lemma cleanup_dispatchable a s :
  PreCleanup a s ->
  Dispatchable
    (removeListener EvExit (ExitListener a) (childProcess a)
       (removeListener EvError (ErrorListener a) (childProcess a)
          (removeListener EvMessage (MessageListener a) (childProcess a)
             (clearTimeout (timeout a)
                (emit_obs (SlotCleared (renderMsg a)) (set_currentRenderMsg None s)))))).
Proof.
  intros [Ht (c & Hl & Hm & He & Hx & Hh) Ho].
  set (p := childProcess a) in *.
  split.
  - reflexivity.
  - exact Ht.
  - intros q Hq. cbn in Hq. destruct Hh as [[Hh Hex]|[Hh Hex]]; [|congruence].
    rewrite Hh in Hq. injection Hq as <-.
    unfold removeListener. rewrite !lookup_update_process, !decide_True by done.
    cbn. rewrite Hl. simpl. eexists. split; [reflexivity|]. split; [done|].
    unfold idle_proc; simpl.
    destruct Hm as [->| ->], He as [->| ->], Hx as [->| ->]; by solve_removed.
  - intros q c' Hl' Hne. cbn in Hne. unfold removeListener in Hl'.
    rewrite !lookup_update_process in Hl'. cbn in Hl'.
    destruct (decide (p = q)) as [<-|Hpq].
    + rewrite Hl in Hl'. simpl in Hl'. injection Hl' as <-.
      destruct Hh as [[Hh Hex]|[Hh Hex]]; [congruence|].
      unfold gone_proc; simpl.
      destruct Hm as [->| ->], He as [->| ->]; by solve_removed.
    + eauto.
Qed.

Lemma cleanup_inv a s : PreCleanup a s -> InvS (cleanup a s).
Proof. intros H. unfold cleanup. by apply nextRender_inv, cleanup_dispatchable. Qed.

Lemma nextRender_busy s m : _currentRenderMsg s = Some m -> _nextRender s = s.
Proof. intros H. unfold _nextRender. by rewrite H. Qed.

Lemma Busy_frame a s s' :
  _compilerProcess s' = _compilerProcess s ->
  _currentRenderMsg s' = _currentRenderMsg s ->
  procs s' = procs s ->
  timers s' = timers s ->
  Busy a s -> Busy a s'.
Proof.
  intros E1 E2 E3 E4 [H1 H2 H3 H4].
  split; rewrite ?E1, ?E2, ?E3, ?E4; assumption.
Qed.

Lemma InvS_dispatchable s s' :
  _compilerProcess s' = _compilerProcess s ->
  _currentRenderMsg s' = _currentRenderMsg s ->
  procs s' = procs s ->
  timers s' = timers s ->
  InvS s -> _currentRenderMsg s = None -> Dispatchable s'.
Proof.
  intros E1 E2 E3 E4 [H1 H2 H3 H4] Hc. destruct (H3 Hc) as (Hq & Ht & Hi).
  split; rewrite ?E1, ?E2, ?E3, ?E4; auto.
  intros p Hp. destruct (H1 p Hp) as (c & Hl & Hex). eauto.
Qed.

(** Enqueueing: whatever changes outside the dispatcher's own fields,
    a following [_nextRender] re-establishes the invariant. *)
Lemma nextRender_enqueue s s' :
  _compilerProcess s' = _compilerProcess s ->
  _currentRenderMsg s' = _currentRenderMsg s ->
  procs s' = procs s ->
  timers s' = timers s ->
  InvS s -> InvS (_nextRender s').
Proof.
  intros E1 E2 E3 E4 HI. destruct (_currentRenderMsg s) as [m|] eqn:Hc.
  - rewrite (nextRender_busy s' m) by congruence.
    destruct (InvS_busy s m HI Hc) as (p & t & Hb).
    eapply Busy_InvS. apply (Busy_frame _ s s'); [done|congruence|done|done|exact Hb].
  - apply nextRender_inv.
    apply (InvS_dispatchable s s'); [done|congruence|done|done|done|done].
Qed.

Lemma Busy_exit a s :
  Busy a s ->
  PreCleanup a (set_compilerProcess None (mark_exited (childProcess a) s)).
Proof.
  intros [Hc Hh (c & Hl & Hex & (Hm & He & Hx) & Ht) Ho]. split.
  - cbn. destruct Ht as [-> | [-> _]]; [apply delete_singleton_eq | apply delete_empty].
  - unfold mark_exited. cbn [procs set_compilerProcess].
    rewrite lookup_update_process, decide_True, Hl by done. simpl.
    eexists. split; [reflexivity|]. simpl. repeat split; auto.
  - intros q c' Hl' Hne. unfold mark_exited in Hl'. cbn [procs set_compilerProcess] in Hl'.
    rewrite lookup_update_process, decide_False in Hl' by done. eauto.
Qed.

Lemma Busy_message_taken a s :
  Busy a s -> Busy a (removeListener EvMessage (MessageListener a) (childProcess a) s).
Proof.
  intros [Hc Hh (c & Hl & Hex & (Hm & He & Hx) & Ht) Ho]. split; [exact Hc|exact Hh| |].
  - unfold removeListener. rewrite lookup_update_process, decide_True, Hl by done. simpl.
    eexists. split; [reflexivity|]. simpl. split; [done|]. split; [|done].
    unfold busy_proc; simpl. split; [|done].
    left. destruct Hm as [->| ->]; [done | by apply remove_last_single].
  - intros q c' Hl' Hne. unfold removeListener in Hl'.
    rewrite lookup_update_process, decide_False in Hl' by done. eauto.
Qed.

Lemma Busy_timer a s t tm :
  Busy a s -> timers s !! t = Some tm ->
  t = timeout a /\ tm = {| delay := 10000%N; target := childProcess a |}
  /\ Busy a (kill (target tm) (clearTimeout t s)).
Proof.
  intros [Hc Hh (c & Hl & Hex & Hb & Ht) Ho] Htm.
  destruct Ht as [Ht | [Ht _]]; rewrite Ht in Htm;
    [|by rewrite lookup_empty in Htm].
  apply lookup_singleton_Some in Htm as [<- <-]. do 2 (split; [done|]).
  unfold kill, alive. cbn [procs clearTimeout set_timers target]. rewrite Hl, Hex. simpl.
  split; [exact Hc|exact Hh| |]; cbn.
  - rewrite list_lookup_alter_eq, Hl. simpl. eexists. split; [reflexivity|]. simpl.
    split; [done|]. split; [done|]. right. split; [|done].
    rewrite Ht. apply delete_singleton_eq.
  - intros q c' Hl' Hne. rewrite list_lookup_alter_ne in Hl' by done. eauto.
Qed.

(** The message listeners of any process: none, or the one of the
    attempt in flight. *)
Lemma InvS_on_message s p c :
  InvS s -> procs s !! p = Some c ->
  on_message c = []
  \/ exists a, Busy a s /\ childProcess a = p
       /\ on_message c = [{| once := true; fn := MessageListener a |}].
Proof.
  intros HI Hl. destruct (decide (_compilerProcess s = Some p)) as [Hp|Hp].
  - destruct (_currentRenderMsg s) as [m|] eqn:Hc.
    + destruct (InvS_busy s m HI Hc) as (p' & t & Hb).
      pose proof Hb as [_ Hh (c' & Hl' & _ & (Hm & _) & _) _]. simpl in *.
      assert (p' = p) as -> by congruence. assert (c' = c) as -> by congruence.
      destruct Hm as [Hm|Hm]; [by left|]. right. eexists. split; [exact Hb|]. auto.
    + left. destruct HI as [_ _ H3 _]. destruct (H3 Hc) as (_ & _ & Hi).
      by destruct (Hi p c Hp Hl).
  - left. destruct HI as [_ H2 _ _]. by destruct (H2 p c Hl Hp) as (_ & ? & _).
Qed.

Lemma InvS_on_error s p c :
  InvS s -> procs s !! p = Some c ->
  on_error c = []
  \/ exists a, Busy a s /\ childProcess a = p
       /\ on_error c = [{| once := true; fn := ErrorListener a |}].
Proof.
  intros HI Hl. destruct (decide (_compilerProcess s = Some p)) as [Hp|Hp].
  - destruct (_currentRenderMsg s) as [m|] eqn:Hc.
    + destruct (InvS_busy s m HI Hc) as (p' & t & Hb).
      pose proof Hb as [_ Hh (c' & Hl' & _ & (_ & He & _) & _) _]. simpl in *.
      assert (p' = p) as -> by congruence. assert (c' = c) as -> by congruence.
      right. eexists. split; [exact Hb|]. auto.
    + left. destruct HI as [_ _ H3 _]. destruct (H3 Hc) as (_ & _ & Hi).
      by destruct (Hi p c Hp Hl) as (_ & ? & _).
  - left. destruct HI as [_ H2 _ _]. by destruct (H2 p c Hl Hp) as (_ & _ & ?).
Qed.

(** The exit listeners of a process that still runs. *)
Lemma InvS_on_exit s p c :
  InvS s -> procs s !! p = Some c -> exited c = false ->
  _compilerProcess s = Some p
  /\ ((_currentRenderMsg s = None /\ on_exit c = [reset_listener])
      \/ exists a, Busy a s /\ childProcess a = p
           /\ on_exit c = [reset_listener; {| once := true; fn := ExitListener a |}]).
Proof.
  intros HI Hl Hex. destruct (decide (_compilerProcess s = Some p)) as [Hp|Hp].
  - split; [done|]. destruct (_currentRenderMsg s) as [m|] eqn:Hc.
    + destruct (InvS_busy s m HI Hc) as (p' & t & Hb).
      pose proof Hb as [_ Hh (c' & Hl' & _ & (_ & _ & Hx) & _) _]. simpl in *.
      assert (p' = p) as -> by congruence. assert (c' = c) as -> by congruence.
      right. eexists. split; [exact Hb|]. auto.
    + left. split; [done|]. destruct HI as [_ _ H3 _]. destruct (H3 Hc) as (_ & _ & Hi).
      by destruct (Hi p c Hp Hl) as (_ & _ & ?).
  - destruct HI as [_ H2 _ _]. destruct (H2 p c Hl Hp) as (? & _). congruence.
Qed.

(** *** What one event does *)

Lemma emit_message_none s p c m :
  procs s !! p = Some c -> on_message c = [] -> emit EvMessage p (ArgMessage m) s = s.
Proof. intros Hl Hm. unfold emit. rewrite Hl. simpl. by rewrite Hm. Qed.

Lemma emit_message_one s a c m :
  procs s !! childProcess a = Some c ->
  on_message c = [{| once := true; fn := MessageListener a |}] ->
  emit EvMessage (childProcess a) (ArgMessage m) s
  = match messageListener a m
            (removeListener EvMessage (MessageListener a) (childProcess a) s) with
    | (s', None) => s'
    | (s', Some e) => emit_obs (Uncaught e) s'
    end.
Proof.
  intros Hl Hm. unfold emit. rewrite Hl. simpl. rewrite Hm. simpl.
  by destruct (messageListener _ _ _) as [s' [e|]].
Qed.

Lemma emit_error_none s p c err :
  procs s !! p = Some c -> on_error c = [] ->
  emit EvError p (ArgError err) s = emit_obs (Uncaught (UnhandledError err)) s.
Proof. intros Hl Hm. unfold emit. rewrite Hl. simpl. by rewrite Hm. Qed.

Lemma emit_error_one s a c err :
  procs s !! childProcess a = Some c ->
  on_error c = [{| once := true; fn := ErrorListener a |}] ->
  emit EvError (childProcess a) (ArgError err) s
  = call_callback a (RawError err) None
      (cleanup a (removeListener EvError (ErrorListener a) (childProcess a) s)).
Proof. intros Hl Hm. unfold emit. rewrite Hl. simpl. by rewrite Hm. Qed.

Lemma emit_exit_idle s p c code signal :
  procs s !! p = Some c -> on_exit c = [reset_listener] ->
  emit EvExit p (ArgExit code signal) (mark_exited p s)
  = set_compilerProcess None (mark_exited p s).
Proof.
  intros Hl Hx. unfold emit, mark_exited.
  rewrite lookup_update_process, decide_True, Hl by done. simpl. by rewrite Hx.
Qed.

Lemma emit_exit_busy s a c code signal :
  procs s !! childProcess a = Some c ->
  on_exit c = [reset_listener; {| once := true; fn := ExitListener a |}] ->
  emit EvExit (childProcess a) (ArgExit code signal) (mark_exited (childProcess a) s)
  = let s' := cleanup a (removeListener EvExit (ExitListener a) (childProcess a)
                           (set_compilerProcess None (mark_exited (childProcess a) s))) in
    match code with
    | None => call_callback a (ErrorList [fatal_error (renderMsg a) signal]) None s'
    | Some _ => s'
    end.
Proof.
  intros Hl Hx. unfold emit, mark_exited.
  rewrite lookup_update_process, decide_True, Hl by done. simpl. rewrite Hx. simpl.
  unfold exitListener. by destruct code.
Qed.

(** *** The trace of a dispatch *)

Lemma nextRender_sent s :
  sent_of (trace (_nextRender s)) = sent_of (trace s) ++ dispatched s.
Proof.
  unfold _nextRender, dispatched, _createChildProcess, sent_of.
  destruct (_currentRenderMsg s), (_queue s); rewrite ?app_nil_r; try reflexivity.
  cbn. destruct (_compilerProcess s); cbn; rewrite ?omap_app; cbn; by rewrite ?app_nil_r.
Qed.

Lemma nextRender_cleared s : cleared_of (trace (_nextRender s)) = cleared_of (trace s).
Proof.
  unfold _nextRender, _createChildProcess, cleared_of.
  destruct (_currentRenderMsg s), (_queue s); try reflexivity.
  cbn. destruct (_compilerProcess s); cbn; rewrite ?omap_app; cbn; by rewrite ?app_nil_r.
Qed.

Lemma nextRender_called s : called_of (trace (_nextRender s)) = called_of (trace s).
Proof.
  unfold _nextRender, _createChildProcess, called_of.
  destruct (_currentRenderMsg s), (_queue s); try reflexivity.
  cbn. destruct (_compilerProcess s); cbn; rewrite ?omap_app; cbn; by rewrite ?app_nil_r.
Qed.

Lemma nextRender_next_rid s : next_rid (_nextRender s) = next_rid s.
Proof.
  unfold _nextRender, _createChildProcess.
  destruct (_currentRenderMsg s), (_queue s); try reflexivity.
  cbn. by destruct (_compilerProcess s).
Qed.

Lemma nextRender_slot s :
  in_flight (_nextRender s) = in_flight s ++ dispatched s
  /\ dispatched s ++ _queue (_nextRender s) = _queue s.
Proof.
  unfold _nextRender, _createChildProcess, in_flight, dispatched.
  destruct (_currentRenderMsg s) eqn:Hc, (_queue s) eqn:Hq; rewrite ?Hc, ?Hq; try done.
  cbn. by destruct (_compilerProcess s).
Qed.

(** *** The order invariant *)

Lemma InvT_frame s s' :
  trace s' = trace s -> _queue s' = _queue s -> next_rid s' = next_rid s ->
  _currentRenderMsg s' = _currentRenderMsg s ->
  InvT s -> InvT s'.
Proof.
  intros E1 E2 E3 E4 [H1 H2 H3 H4]. unfold in_flight in *.
  split; unfold in_flight; rewrite ?E1, ?E2, ?E3, ?E4; assumption.
Qed.

Lemma slot_after_app slot tr1 tr2 :
  slot_after slot (tr1 ++ tr2) = slot_after slot tr1 ≫= fun slot' => slot_after slot' tr2.
Proof.
  revert slot. induction tr1 as [|o tr1 IH]; intros slot; [done|].
  destruct o; simpl; auto.
  - destruct slot; auto.
  - destruct slot as [m'|]; auto. destruct (decide (m' = m)); auto.
Qed.

Lemma nextRender_slot_after s :
  slot_after None (trace s) = Some (_currentRenderMsg s) ->
  slot_after None (trace (_nextRender s)) = Some (_currentRenderMsg (_nextRender s)).
Proof.
  intros H. unfold _nextRender, _createChildProcess.
  destruct (_currentRenderMsg s) eqn:Hc, (_queue s); rewrite ?Hc; try done.
  cbn. destruct (_compilerProcess s); cbn; rewrite ?slot_after_app, H; cbn;
    by rewrite ?slot_after_app.
Qed.

Lemma nextRender_InvT s : InvT s -> InvT (_nextRender s).
Proof.
  intros [H1 H2 H3 H4]. destruct (nextRender_slot s) as [Hf Hq]. split.
  - rewrite nextRender_sent, nextRender_next_rid, <- H1, <- Hq.
    by rewrite !map_app, <- !app_assoc.
  - by rewrite nextRender_sent, nextRender_cleared, Hf, H2, <- app_assoc.
  - by rewrite nextRender_called, nextRender_cleared.
  - by apply nextRender_slot_after.
Qed.

Lemma sent_of_snoc tr o :
  sent_of (tr ++ [o]) = sent_of tr ++ match o with Sent _ m => [m] | _ => [] end.
Proof. unfold sent_of. rewrite omap_app. by destruct o. Qed.

Lemma cleared_of_snoc tr o :
  cleared_of (tr ++ [o]) = cleared_of tr ++ match o with SlotCleared m => [m] | _ => [] end.
Proof. unfold cleared_of. rewrite omap_app. by destruct o. Qed.

Lemma called_of_snoc tr o :
  called_of (tr ++ [o]) = called_of tr ++ match o with Called m _ _ => [m] | _ => [] end.
Proof. unfold called_of. rewrite omap_app. by destruct o. Qed.

Lemma cleanup_cleared a s :
  cleared_of (trace (cleanup a s)) = cleared_of (trace s) ++ [renderMsg a].
Proof. unfold cleanup. rewrite nextRender_cleared. cbn. apply cleared_of_snoc. Qed.

Lemma cleanup_called a s : called_of (trace (cleanup a s)) = called_of (trace s).
Proof.
  unfold cleanup. rewrite nextRender_called. cbn. rewrite called_of_snoc. apply app_nil_r.
Qed.

Lemma cleanup_InvT a s :
  InvT s -> _currentRenderMsg s = Some (renderMsg a) -> InvT (cleanup a s).
Proof.
  intros [H1 H2 H3 H4] Hc. unfold cleanup. apply nextRender_InvT.
  unfold in_flight in H2. rewrite Hc in H2. split; cbn.
  - by rewrite sent_of_snoc, app_nil_r.
  - by rewrite sent_of_snoc, cleared_of_snoc, !app_nil_r.
  - rewrite called_of_snoc, cleared_of_snoc, app_nil_r. by apply sublist_inserts_r.
  - rewrite slot_after_app, H4, Hc. cbn. by rewrite decide_True.
Qed.

Lemma call_InvT a s errors result cl :
  InvT s -> cleared_of (trace s) = cl ++ [renderMsg a] -> sublist (called_of (trace s)) cl ->
  InvT (call_callback a errors result s).
Proof.
  intros [H1 H2 H3 H4] Hcl Hsub. unfold in_flight in H2.
  split; unfold call_callback, in_flight, emit_obs;
    cbn [trace _queue next_rid _currentRenderMsg].
  - by rewrite sent_of_snoc, app_nil_r.
  - by rewrite sent_of_snoc, cleared_of_snoc, !app_nil_r.
  - rewrite called_of_snoc, cleared_of_snoc, app_nil_r, Hcl.
    apply sublist_app; [done|]. constructor. constructor.
  - by rewrite slot_after_app, H4.
Qed.

(** [cleanup] and then the callback of the same attempt. *)
Lemma cleanup_call_InvT a s errors result :
  InvT s -> _currentRenderMsg s = Some (renderMsg a) ->
  InvT (call_callback a errors result (cleanup a s)).
Proof.
  intros HT Hc. apply (call_InvT a _ errors result (cleared_of (trace s))).
  - by apply cleanup_InvT.
  - apply cleanup_cleared.
  - rewrite cleanup_called. by destruct HT.
Qed.

Lemma InvT_obs o s :
  match o with Sent _ _ | SlotCleared _ | Called _ _ _ => False | _ => True end ->
  InvT s -> InvT (emit_obs o s).
Proof.
  intros Ho [H1 H2 H3 H4]. split; cbn;
    rewrite ?sent_of_snoc, ?cleared_of_snoc, ?called_of_snoc, ?slot_after_app, ?H4;
    destruct o; try done; by rewrite ?app_nil_r.
Qed.

(** *** Every reachable state satisfies the invariant *)

Lemma Inv_frame s s' :
  _compilerProcess s' = _compilerProcess s ->
  _currentRenderMsg s' = _currentRenderMsg s ->
  _queue s' = _queue s ->
  procs s' = procs s ->
  timers s' = timers s ->
  trace s' = trace s ->
  next_rid s' = next_rid s ->
  Inv s -> Inv s'.
Proof.
  intros E1 E2 E3 E4 E5 E6 E7 [HS HT]. split.
  - by apply (InvS_frame s s').
  - by apply (InvT_frame s s').
Qed.

Lemma InvS_call_callback a errors result s :
  InvS s -> InvS (call_callback a errors result s).
Proof. by apply InvS_frame. Qed.

Lemma Inv_obs o s :
  match o with Sent _ _ | SlotCleared _ | Called _ _ _ => False | _ => True end ->
  Inv s -> Inv (emit_obs o s).
Proof.
  intros Ho [HS HT]. split; [|by apply InvT_obs]. by apply (InvS_frame s).
Qed.

Lemma Inv_init : Inv init.
Proof.
  split; split; done.
Qed.

Section Reachable.

Context (h : Host).

Lemma render_Inv file outFile inc img style comments smap compiler cb s :
  Inv s -> Inv (render h file outFile inc img style comments smap compiler cb s).
Proof.
  intros [HS HT]. unfold render. split.
  - by apply (nextRender_enqueue s).
  - apply nextRender_InvT. destruct HT as [H1 H2 H3 H4].
    split; cbn [trace _queue next_rid set_queue set_next_rid]; try done.
    by rewrite map_app, app_assoc, H1, seq_S.
Qed.

Lemma preview_Inv file outFile mem inc img style comments smap compiler cb s :
  Inv s -> Inv (preview h file outFile mem inc img style comments smap compiler cb s).
Proof.
  intros HI. unfold preview. cbn [fs set_fs set_tmpFolders].
  destruct (copySync _ _ _ _).
  - apply render_Inv. by apply (Inv_frame s).
  - apply Inv_obs; [done|]. by apply (Inv_frame s).
Qed.

Lemma cleanup_call_Inv a s errors result :
  PreCleanup a s -> InvT s -> _currentRenderMsg s = Some (renderMsg a) ->
  Inv (call_callback a errors result (cleanup a s)).
Proof.
  intros HP HT Hc. split; [|by apply cleanup_call_InvT].
  apply InvS_call_callback. by apply cleanup_inv.
Qed.

Lemma cleanup_Inv a s :
  PreCleanup a s -> InvT s -> _currentRenderMsg s = Some (renderMsg a) ->
  Inv (cleanup a s).
Proof. intros HP HT Hc. split; [by apply cleanup_inv | by apply cleanup_InvT]. Qed.

Lemma message_Inv s p m : Inv s -> Inv (step h s (WorkerMessage p m)).
Proof.
  intros [HS HT]. simpl. destruct (procs s !! p) as [c|] eqn:Hl;
    [|unfold emit; by rewrite Hl].
  destruct (InvS_on_message s p c HS Hl) as [Hm|(a & Hb & <- & Hm)].
  { by rewrite (emit_message_none s p c). }
  rewrite (emit_message_one s a c) by done.
  set (s1 := removeListener EvMessage (MessageListener a) (childProcess a) s).
  assert (Busy a s1) as Hb1 by by apply Busy_message_taken.
  assert (PreCleanup a s1) as Hp1 by by apply Busy_PreCleanup.
  assert (InvT s1) as HT1 by by apply (InvT_frame s).
  assert (_currentRenderMsg s1 = Some (renderMsg a)) as Hc1 by by destruct Hb1.
  unfold messageListener.
  destruct (truthy (msg_log m)).
  { apply Inv_obs; [done|]. split; [by apply (Busy_InvS a)|done]. }
  destruct (truthy (msg_css m)).
  { destruct (msg_map m).
    - by apply cleanup_call_Inv.
    - apply Inv_obs; [done|]. by apply cleanup_Inv. }
  destruct (msg_error m).
  - by apply cleanup_call_Inv.
  - split; [by apply (Busy_InvS a)|done].
Qed.

Lemma error_Inv s p err : Inv s -> Inv (step h s (WorkerError p err)).
Proof.
  intros [HS HT]. simpl. destruct (procs s !! p) as [c|] eqn:Hl;
    [|unfold emit; by rewrite Hl].
  destruct (InvS_on_error s p c HS Hl) as [Hm|(a & Hb & <- & Hm)].
  { rewrite (emit_error_none s p c) by done. by apply Inv_obs. }
  rewrite (emit_error_one s a c) by done.
  apply cleanup_call_Inv.
  - apply PreCleanup_removeListener; [auto|]. by apply Busy_PreCleanup.
  - by apply (InvT_frame s).
  - by destruct Hb.
Qed.

Lemma exit_Inv s p code signal :
  Inv s -> alive p s = true -> Inv (step h s (WorkerExit p code signal)).
Proof.
  intros [HS HT] Ha. simpl. unfold alive in Ha.
  destruct (procs s !! p) as [c|] eqn:Hl; [|done].
  apply negb_true_iff in Ha.
  destruct (InvS_on_exit s p c HS Hl Ha) as [Hp [[Hc Hx]|(a & Hb & <- & Hx)]].
  - rewrite (emit_exit_idle s p c) by done. split.
    + destruct HS as [H1 H2 H3 H4]. destruct (H3 Hc) as (Hq & Ht & Hi).
      destruct (Hi p c Hp Hl) as (Hm & He & _).
      split; cbn; try done.
      * intros q c' Hl' _. rewrite list_lookup_alter in Hl'.
        destruct (decide (p = q)) as [<-|Hne].
        -- rewrite Hl in Hl'. simpl in Hl'. injection Hl' as <-. by split.
        -- apply (H2 q c' Hl'). congruence.
      * intros m. rewrite Hc. discriminate.
    + by apply (InvT_frame s).
  - rewrite (emit_exit_busy s a c) by done. cbn zeta.
    set (s1 := removeListener EvExit (ExitListener a) (childProcess a)
                 (set_compilerProcess None (mark_exited (childProcess a) s))).
    assert (PreCleanup a s1) as Hp1.
    { apply PreCleanup_removeListener; [auto|]. by apply Busy_exit. }
    assert (InvT s1) as HT1 by by apply (InvT_frame s).
    assert (_currentRenderMsg s1 = Some (renderMsg a)) as Hc1 by by destruct Hb.
    destruct code; [by apply cleanup_Inv | by apply cleanup_call_Inv].
Qed.

Lemma timer_Inv s t : Inv s -> Inv (step h s (TimerFired t)).
Proof.
  intros [HS HT]. simpl. destruct (timers s !! t) as [tm|] eqn:Htm; [|done].
  destruct (_currentRenderMsg s) as [m|] eqn:Hc.
  - destruct (InvS_busy s m HS Hc) as (p & t' & Hb).
    destruct (Busy_timer _ s t tm Hb Htm) as (_ & -> & Hb').
    split; [by apply (Busy_InvS _ _ Hb')|].
    pose proof Hb as [_ _ (c & Hl & Hex & _) _]. simpl in *.
    unfold kill, alive. cbn [procs clearTimeout set_timers target]. rewrite Hl, Hex. simpl.
    apply InvT_obs; [done|]. by apply (InvT_frame s).
  - destruct HS as [_ _ H3 _]. destruct (H3 Hc) as (_ & Ht & _).
    by rewrite Ht, lookup_empty in Htm.
Qed.

Lemma process_exit_Inv s : Inv s -> Inv (on_process_exit s).
Proof.
  intros [HS HT]. unfold on_process_exit.
  destruct (_compilerProcess s) as [p|] eqn:Hp; [|done].
  pose proof HS as [H1 H2 H3 H4]. destruct (H1 p Hp) as (c & Hl & Hex).
  unfold kill, alive. rewrite Hl, Hex. simpl.
  split; [|apply InvT_obs; [done|]; by apply (InvT_frame s)].
  split; cbn; rewrite ?Hp.
  - intros q [= <-]. rewrite list_lookup_alter_eq, Hl. simpl. eauto.
  - intros q c' Hl' Hne. rewrite list_lookup_alter_ne in Hl' by congruence.
    apply (H2 q c' Hl'). congruence.
  - intros Hc. destruct (H3 Hc) as (Hq & Ht & Hi). do 2 (split; [done|]).
    intros q c' [= <-]. rewrite list_lookup_alter_eq, Hl. simpl. intros [= <-].
    by apply (Hi p c).
  - intros m Hc. destruct (H4 m Hc) as (q & c' & t & Hq & Hl' & Hb & Ht).
    assert (q = p) as -> by congruence. assert (c' = c) as -> by congruence.
    exists p, (set_killed c), t. split; [done|].
    rewrite list_lookup_alter_eq, Hl. split; [done|]. split; [exact Hb|].
    destruct Ht as [Ht|[Ht _]]; [by left | by right].
Qed.

Lemma step_Inv s i : Inv s -> admissible s i -> Inv (step h s i).
Proof.
  intros HI Ha. destruct i.
  - by apply render_Inv.
  - by apply preview_Inv.
  - by apply (Inv_frame s).
  - apply Inv_obs; [done|]. by apply (Inv_frame s).
  - apply Inv_obs; [done|]. by apply (Inv_frame s).
  - by apply message_Inv.
  - by apply error_Inv.
  - by apply exit_Inv.
  - by apply timer_Inv.
  - by apply (Inv_frame s).
  - by apply process_exit_Inv.
Qed.

Lemma reachable_Inv s : reachable h s -> Inv s.
Proof.
  induction 1 as [|s i _ IH Ha]; [apply Inv_init | by apply step_Inv].
Qed.

End Reachable.

(** ** Steps of the attempt in flight *)

Lemma calls_of_snoc tr o :
  calls_of (tr ++ [o]) = calls_of tr ++ match o with Called m e r => [(m, e, r)] | _ => [] end.
Proof. unfold calls_of. rewrite omap_app. by destruct o. Qed.

Lemma nextRender_calls s : calls_of (trace (_nextRender s)) = calls_of (trace s).
Proof.
  unfold _nextRender, _createChildProcess, calls_of.
  destruct (_currentRenderMsg s), (_queue s); try reflexivity.
  cbn. destruct (_compilerProcess s); cbn; rewrite ?omap_app; cbn; by rewrite ?app_nil_r.
Qed.

Lemma cleanup_calls a s : calls_of (trace (cleanup a s)) = calls_of (trace s).
Proof.
  unfold cleanup. rewrite nextRender_calls. cbn. rewrite calls_of_snoc. apply app_nil_r.
Qed.

Lemma call_callback_calls a errors result s :
  calls_of (trace (call_callback a errors result s))
  = calls_of (trace s) ++ [(renderMsg a, errors, result)].
Proof. unfold call_callback. cbn. apply calls_of_snoc. Qed.

Lemma call_callback_cleared a errors result s :
  cleared_of (trace (call_callback a errors result s)) = cleared_of (trace s).
Proof. unfold call_callback. cbn. rewrite cleared_of_snoc. apply app_nil_r. Qed.



(** In a reachable state the request in flight has its attempt. *)
Lemma reachable_busy h s m :
  reachable h s -> _currentRenderMsg s = Some m ->
  exists p t, Busy {| renderMsg := m; childProcess := p; timeout := t |} s.
Proof. intros Hr Hc. destruct (reachable_Inv h s Hr) as [HS _]. by apply InvS_busy. Qed.

Section Steps.

Context (h : Host).

Lemma step_error_busy a s err :
  Busy a s ->
  step h s (WorkerError (childProcess a) err)
  = call_callback a (RawError err) None
      (cleanup a (removeListener EvError (ErrorListener a) (childProcess a) s)).
Proof.
  intros [_ _ (c & Hl & _ & (_ & He & _) & _) _]. simpl. by apply (emit_error_one s a c).
Qed.

Lemma step_exit_busy a s code signal :
  Busy a s ->
  step h s (WorkerExit (childProcess a) code signal)
  = let s' := cleanup a (removeListener EvExit (ExitListener a) (childProcess a)
                           (set_compilerProcess None (mark_exited (childProcess a) s))) in
    match code with
    | None => call_callback a (ErrorList [fatal_error (renderMsg a) signal]) None s'
    | Some _ => s'
    end.
Proof.
  intros [_ _ (c & Hl & _ & (_ & _ & Hx) & _) _]. simpl. by apply (emit_exit_busy s a c).
Qed.

Lemma step_message_busy a s c msg :
  Busy a s -> procs s !! childProcess a = Some c -> on_message c <> [] ->
  step h s (WorkerMessage (childProcess a) msg)
  = match messageListener a msg
            (removeListener EvMessage (MessageListener a) (childProcess a) s) with
    | (s', None) => s'
    | (s', Some e) => emit_obs (Uncaught e) s'
    end.
Proof.
  intros [_ _ (c' & Hl' & _ & (Hm & _) & _) _] Hl Hne. simpl.
  assert (c' = c) as -> by congruence.
  destruct Hm as [Hm|Hm]; [done|]. by apply (emit_message_one s a c).
Qed.

Lemma step_message_detached s p c msg :
  procs s !! p = Some c -> on_message c = [] -> step h s (WorkerMessage p msg) = s.
Proof. intros Hl Hm. simpl. by apply (emit_message_none s p c). Qed.

End Steps.

Lemma sublist_map {A B} (f : A -> B) (l1 l2 : list A) :
  sublist l1 l2 -> sublist (List.map f l1) (List.map f l2).
Proof. induction 1; simpl; by constructor. Qed.

Lemma reachable_called_NoDup h s :
  reachable h s -> NoDup (List.map rid (called_of (trace s))).
Proof.
  intros Hr. destruct (reachable_Inv h s Hr) as [_ [H1 H2 H3 _]].
  assert (NoDup (List.map rid (sent_of (trace s)))) as Hs.
  { pose proof (NoDup_seq 0 (next_rid s)) as Hn. rewrite <- H1 in Hn.
    by apply NoDup_app in Hn as [? _]. }
  rewrite H2, map_app in Hs. apply NoDup_app in Hs as [Hs _].
  eapply sublist_NoDup; [exact Hs|]. by apply sublist_map.
Qed.

(** ** Node's paths: absolute, resolved and relative *)

Lemma nonempty_absolute s : starts_with_sep s = true -> nonempty s = true.
Proof. by destruct s. Qed.

Lemma starts_with_sep_app x y :
  nonempty x = true -> starts_with_sep (x +:+ y) = starts_with_sep x.
Proof. by destruct x. Qed.

Lemma resolve_loop_absolute cwd args resolved :
  starts_with_sep cwd = true -> (path.resolve_loop cwd args resolved).2 = true.
Proof.
  intros Hc. revert resolved. induction args as [|p rest IH]; intros resolved; simpl.
  - by rewrite (nonempty_absolute cwd Hc).
  - destruct (nonempty p); [|apply IH]. destruct (starts_with_sep p); [done|apply IH].
Qed.

Lemma resolve_absolute cwd args :
  starts_with_sep cwd = true -> starts_with_sep (path.resolve cwd args) = true.
Proof.
  intros Hc. unfold path.resolve.
  pose proof (resolve_loop_absolute cwd (rev args) "" Hc) as H.
  destruct (path.resolve_loop cwd (rev args) "") as [resolved isAbsolute].
  simpl in H. subst isAbsolute. reflexivity.
Qed.

Lemma split_sep_pieces s : Forall (fun x => starts_with_sep x = false) (split_sep s).
Proof.
  induction s as [|c s IH]; simpl; [by constructor|].
  destruct (is_sep c) eqn:Hc; [by constructor|].
  destruct (split_sep s) as [|x xs]; [by repeat constructor|].
  apply Forall_cons in IH as [_ IH]. constructor; [exact Hc|exact IH].
Qed.

Lemma segments_parts s : Forall is_part (segments s).
Proof.
  unfold segments. pose proof (split_sep_pieces s) as H.
  induction H as [|x l Hx Hl IH]; simpl; [constructor|].
  destruct (nonempty x) eqn:Hn; [|exact IH]. constructor; [by split|exact IH].
Qed.

Lemma join_sep_parts l : Forall is_part l -> starts_with_sep (join_sep l) = false.
Proof.
  intros H. destruct H as [|x l [Hn Hx] Hl]; [done|].
  unfold join_sep. simpl. destruct l; [exact Hx|].
  by rewrite starts_with_sep_app.
Qed.

Lemma relative_not_absolute cwd from to :
  starts_with_sep (path.relative cwd from to) = false.
Proof.
  unfold path.relative. apply join_sep_parts. apply Forall_app. split.
  - apply Forall_replicate. by split.
  - apply Forall_drop, segments_parts.
Qed.

Lemma normalize_nonempty p : nonempty (path.normalize p) = true.
Proof.
  unfold path.normalize. destruct (starts_with_sep p); [done|].
  generalize (join_sep (path.normalizeArray (segments p) (negb false))). intros b.
  destruct b, (ends_with_sep p); done.
Qed.

Lemma index_of_sep_absolute s : starts_with_sep s = true -> index_of_sep s = Some 0.
Proof. destruct s as [|c s]; [done|]. simpl. by intros ->. Qed.

Lemma append_cons c x y : String c x +:+ y = String c (x +:+ y).
Proof. reflexivity. Qed.

Lemma split_sep_no_sep s : Forall (fun x => no_sep x = true) (split_sep s).
Proof.
  induction s as [|c s IH]; simpl; [by repeat constructor|].
  destruct (is_sep c) eqn:E; [by constructor|].
  destruct (split_sep s) as [|x xs]; [repeat constructor; simpl; by rewrite E|].
  inversion IH; subst. constructor; [simpl; by rewrite E|done].
Qed.

Lemma segments_clean s : Forall clean_part (segments s).
Proof.
  unfold segments. pose proof (split_sep_no_sep s) as H.
  induction H as [|x l Hx Hl IH]; simpl; [constructor|].
  destruct (nonempty x) eqn:Hn; [|exact IH]. constructor; [by split|exact IH].
Qed.

Lemma split_sep_single x : no_sep x = true -> split_sep x = [x].
Proof.
  induction x as [|c x IH]; [done|]. simpl. intros [Hc Hx]%andb_true_iff.
  apply negb_true_iff in Hc. by rewrite Hc, IH.
Qed.

Lemma split_sep_app x y :
  no_sep x = true -> split_sep (x +:+ String "/" y) = x :: split_sep y.
Proof.
  induction x as [|c x IH]; [done|]. intros [Hc Hx]%andb_true_iff.
  apply negb_true_iff in Hc. rewrite append_cons. simpl. by rewrite Hc, IH.
Qed.

Lemma segments_join_sep l : Forall clean_part l -> segments (join_sep l) = l.
Proof.
  unfold segments, join_sep. induction 1 as [|x l [Hn Hs] Hl IH]; [done|].
  destruct l as [|y l].
  - simpl. rewrite split_sep_single by done. simpl. by rewrite Hn.
  - change (String.concat "/" (x :: y :: l))
      with (x +:+ String "/" (String.concat "/" (y :: l))).
    rewrite split_sep_app by done. cbn [List.filter]. by rewrite Hn, IH.
Qed.

Lemma normalize_step_sub p acc (P : string -> Prop) :
  P p -> Forall P (snd acc) -> Forall P (snd (path.normalize_step p acc)).
Proof.
  destruct acc as [up kept]. unfold path.normalize_step. intros Hp Hk.
  destruct (String.eqb p "."); [done|]. destruct (String.eqb p ".."); [done|].
  destruct up; [by constructor|done].
Qed.

Lemma normalizeArray_sub parts (P : string -> Prop) :
  Forall P parts -> Forall P (path.normalizeArray parts false).
Proof.
  intros H. unfold path.normalizeArray.
  assert (Forall P (snd (fold_right path.normalize_step (0, []) parts))) as Hk.
  { induction H as [|p parts Hp _ IH]; [constructor|]. simpl.
    by apply normalize_step_sub. }
  by destruct (fold_right _ _ _).
Qed.

(** *** Resolved paths *)

Lemma string_app_assoc (x y z : string) : (x +:+ y) +:+ z = x +:+ (y +:+ z).
Proof.
  induction x as [|c x IH]; [done|].
  change (String c ((x +:+ y) +:+ z) = String c (x +:+ (y +:+ z))). by rewrite IH.
Qed.

Lemma split_sep_nonnil s : split_sep s <> [].
Proof.
  destruct s as [|c s]; [done|]. simpl. destruct (is_sep c); [done|].
  by destruct (split_sep s).
Qed.

Lemma split_sep_append x y :
  split_sep (x +:+ String "/" y) = split_sep x ++ split_sep y.
Proof.
  induction x as [|c x IH]; [done|]. rewrite append_cons. simpl.
  destruct (is_sep c); [by rewrite IH|]. rewrite IH.
  pose proof (split_sep_nonnil x). by destruct (split_sep x).
Qed.

Lemma segments_append x y : segments (x +:+ String "/" y) = segments x ++ segments y.
Proof. unfold segments. by rewrite split_sep_append, List.filter_app. Qed.

Lemma segments_empty : segments "" = [].
Proof. reflexivity. Qed.

Lemma segments_root x : segments ("/" +:+ x) = segments x.
Proof. reflexivity. Qed.

(** The kept parts hold no [.] and no [..]. *)
Lemma normalize_step_dot_free p acc :
  Forall dot_free (snd acc) -> Forall dot_free (snd (path.normalize_step p acc)).
Proof.
  destruct acc as [up kept]. unfold path.normalize_step. intros Hk.
  destruct (String.eqb p ".") eqn:E1; [done|]. destruct (String.eqb p "..") eqn:E2; [done|].
  destruct up; [|done]. constructor; [|done].
  apply String.eqb_neq in E1, E2. by split.
Qed.

Lemma normalizeArray_dot_free parts : Forall dot_free (path.normalizeArray parts false).
Proof.
  unfold path.normalizeArray.
  assert (Forall dot_free (snd (fold_right path.normalize_step (0, []) parts))) as Hk.
  { induction parts as [|p parts IH]; [constructor|]. simpl.
    by apply normalize_step_dot_free. }
  by destruct (fold_right _ _ _).
Qed.

Lemma fold_dot_free parts :
  Forall dot_free parts -> fold_right path.normalize_step (0, []) parts = (0, parts).
Proof.
  induction 1 as [|p parts [H1 H2] _ IH]; [done|]. simpl. rewrite IH.
  unfold path.normalize_step. apply String.eqb_neq in H1, H2. by rewrite H1, H2.
Qed.

Lemma normalizeArray_id parts :
  Forall dot_free parts -> path.normalizeArray parts false = parts.
Proof. intros H. unfold path.normalizeArray. by rewrite fold_dot_free. Qed.

(** The loop of [path.resolve] puts the arguments it visits, each
    followed by a separator, in front of what it was given. *)
Lemma resolve_loop_prefix cwd args :
  starts_with_sep cwd = true ->
  exists b, forall resolved,
    path.resolve_loop cwd args resolved = (b +:+ String "/" resolved, true).
Proof.
  intros Hc. induction args as [|p rest (b & IH)]; simpl.
  - exists cwd. intros resolved. by rewrite (nonempty_absolute cwd Hc), Hc.
  - destruct (nonempty p) eqn:Hn; [|by exists b].
    destruct (starts_with_sep p); [by exists p|].
    exists (b +:+ String "/" p). intros resolved. rewrite IH.
    by rewrite string_app_assoc.
Qed.

(** An absolute [path.resolve] in terms of the parts it keeps. *)
Lemma resolve_shape cwd args :
  starts_with_sep cwd = true ->
  exists parts, Forall clean_part parts /\ Forall dot_free parts
    /\ path.resolve cwd args = "/" +:+ join_sep parts.
Proof.
  intros Hc. unfold path.resolve.
  destruct (resolve_loop_prefix cwd (rev args) Hc) as (b & Hb). rewrite Hb.
  exists (path.normalizeArray (segments (b +:+ String "/" "")) false).
  split; [apply normalizeArray_sub, segments_clean|].
  split; [apply normalizeArray_dot_free|]. reflexivity.
Qed.

Lemma ends_with_sep_cons c s : s <> "" -> ends_with_sep (String c s) = ends_with_sep s.
Proof. by destruct s. Qed.

Lemma ends_with_sep_app x y : y <> "" -> ends_with_sep (x +:+ y) = ends_with_sep y.
Proof.
  intros Hy. induction x as [|c x IH]; [done|]. rewrite append_cons, ends_with_sep_cons; [done|].
  destruct x; [done|discriminate].
Qed.

Lemma ends_with_sep_clean x : clean_part x -> ends_with_sep x = false.
Proof.
  intros [_ Hs]. induction x as [|c x IH]; [done|]. simpl in Hs.
  apply andb_true_iff in Hs as [Hc Hx]. destruct x as [|d x].
  - simpl. by apply negb_true_iff.
  - rewrite ends_with_sep_cons by done. by apply IH.
Qed.

Lemma clean_nonempty x : clean_part x -> x <> "".
Proof. intros [Hn _] ->. done. Qed.

Lemma ends_with_sep_join parts :
  Forall clean_part parts -> ends_with_sep (join_sep parts) = false.
Proof.
  unfold join_sep. induction 1 as [|x l Hx Hl IH]; [done|].
  destruct l as [|y l]; [by apply ends_with_sep_clean|].
  change (String.concat "/" (x :: y :: l))
    with (x +:+ String "/" (String.concat "/" (y :: l))).
  rewrite ends_with_sep_app by done. rewrite ends_with_sep_cons; [exact IH|].
  inversion Hl as [|? ? Hy Hl']; subst. destruct l.
  - by apply clean_nonempty.
  - simpl. pose proof (clean_nonempty y Hy). by destruct y.
Qed.

(** [path.normalize] leaves a resolved path as it is. *)
Lemma normalize_resolve cwd args :
  starts_with_sep cwd = true ->
  path.normalize (path.resolve cwd args) = path.resolve cwd args.
Proof.
  intros Hc. destruct (resolve_shape cwd args Hc) as (parts & Hcl & Hd & ->).
  unfold path.normalize. change (starts_with_sep ("/" +:+ join_sep parts)) with true.
  cbn [negb]. rewrite segments_root, segments_join_sep, normalizeArray_id by done.
  rewrite andb_false_r. destruct (nonempty (join_sep parts)) eqn:Hn; [|done].
  cbn [andb].
  change (ends_with_sep ("/" +:+ join_sep parts))
    with (ends_with_sep (String "/" (join_sep parts))).
  rewrite ends_with_sep_cons.
  - by rewrite ends_with_sep_join.
  - intros E. by rewrite E in Hn.
Qed.

(** Resolving a resolved path gives it back. *)
Lemma resolve_resolve cwd args :
  starts_with_sep cwd = true ->
  path.resolve cwd [path.resolve cwd args] = path.resolve cwd args.
Proof.
  intros Hc. destruct (resolve_shape cwd args Hc) as (parts & Hcl & Hd & ->).
  unfold path.resolve. cbn [rev app path.resolve_loop].
  change (nonempty ("/" +:+ join_sep parts)) with true.
  change (starts_with_sep ("/" +:+ join_sep parts)) with true. cbv iota. cbn [negb].
  change ("/" +:+ "") with (String "/" "").
  rewrite string_app_assoc, segments_root, segments_append, segments_empty, app_nil_r.
  by rewrite segments_join_sep, normalizeArray_id.
Qed.

(** An absolute last argument is all that [path.resolve] looks at. *)
Lemma resolve_last_absolute cwd args p :
  starts_with_sep p = true -> path.resolve cwd (args ++ [p]) = path.resolve cwd [p].
Proof.
  intros Hp. unfold path.resolve. rewrite rev_app_distr. cbn [rev app path.resolve_loop].
  by rewrite (nonempty_absolute p Hp), Hp.
Qed.

(** *** From a relative path back to the absolute one *)

Lemma normalizeArray_snd parts :
  path.normalizeArray parts false = (fold_right path.normalize_step (0, []) parts).2.
Proof. unfold path.normalizeArray. by destruct (fold_right _ _ _). Qed.

(** [u] pending [..] take away the last [u] parts that would be kept. *)
Lemma fold_pending parts u kept :
  fold_right path.normalize_step (u, kept) parts
  = (let '(u0, kept0) := fold_right path.normalize_step (0, []) parts in
     (u0 + (u - List.length kept0), take (List.length kept0 - u) kept0 ++ kept)).
Proof.
  induction parts as [|p parts IH]; simpl.
  { f_equal. lia. }
  rewrite IH. destruct (fold_right path.normalize_step (0, []) parts) as [u0 kept0].
  unfold path.normalize_step.
  destruct (String.eqb p "."); [done|]. destruct (String.eqb p ".."); [done|].
  destruct u0 as [|u0]; simpl.
  - destruct (decide (u <= List.length kept0)) as [Hu|Hu].
    + replace (u - List.length kept0) with 0 by lia.
      replace (S (List.length kept0) - u) with (S (List.length kept0 - u)) by lia.
      replace (u - S (List.length kept0)) with 0 by lia. done.
    + replace (u - List.length kept0) with (S (u - S (List.length kept0))) by lia.
      replace (List.length kept0 - u) with 0 by lia.
      replace (S (List.length kept0) - u) with 0 by lia. done.
  - done.
Qed.

Lemma fold_ups k u kept :
  fold_right path.normalize_step (u, kept) (replicate k "..") = (k + u, kept).
Proof. induction k as [|k IH]; [done|]. simpl. by rewrite IH. Qed.

Lemma normalizeArray_back parts k rest :
  Forall dot_free rest -> k <= List.length (path.normalizeArray parts false) ->
  path.normalizeArray (parts ++ replicate k ".." ++ rest) false
  = take (List.length (path.normalizeArray parts false) - k) (path.normalizeArray parts false)
    ++ rest.
Proof.
  intros Hr Hk. rewrite !normalizeArray_snd in *.
  rewrite !fold_right_app, (fold_dot_free rest Hr), fold_ups, fold_pending.
  destruct (fold_right path.normalize_step (0, []) parts) as [u0 kept0]. simpl in *.
  by rewrite Nat.add_0_r.
Qed.

Lemma samePartsLength_le a b :
  path.samePartsLength a b <= List.length a /\ path.samePartsLength a b <= List.length b.
Proof.
  revert b. induction a as [|x a IH]; intros [|y b]; simpl; try lia.
  destruct (String.eqb x y); simpl; [|lia]. specialize (IH b). lia.
Qed.

Lemma samePartsLength_take a b :
  take (path.samePartsLength a b) a = take (path.samePartsLength a b) b.
Proof.
  revert b. induction a as [|x a IH]; intros [|y b]; simpl; try done.
  destruct (String.eqb x y) eqn:E; [|done]. apply String.eqb_eq in E as ->.
  simpl. by rewrite IH.
Qed.

Lemma clean_up : clean_part "..".
Proof. by split. Qed.

Lemma resolve_loop_cons cwd p rest resolved :
  path.resolve_loop cwd (p :: rest) resolved
  = if nonempty p
    then if starts_with_sep p then (p +:+ String "/" resolved, true)
         else path.resolve_loop cwd rest (p +:+ String "/" resolved)
    else path.resolve_loop cwd rest resolved.
Proof. reflexivity. Qed.

(** [path.resolve(from, path.relative(from, to))] is [path.resolve(to)]. *)
Lemma resolve_relative cwd from to :
  starts_with_sep cwd = true ->
  path.resolve cwd [from; path.relative cwd from to] = path.resolve cwd [to].
Proof.
  intros Hc. unfold path.relative.
  destruct (resolve_shape cwd [to] Hc) as (B & HBc & HBd & ET). rewrite ET.
  change (slice_from 1 ("/" +:+ join_sep B)) with (join_sep B).
  rewrite (segments_join_sep B HBc).
  destruct (resolve_loop_prefix cwd [from] Hc) as (b & Hb).
  assert (path.resolve cwd [from]
          = "/" +:+ join_sep (path.normalizeArray (segments b) false)) as EF.
  { unfold path.resolve. cbn [rev app]. rewrite Hb.
    by rewrite segments_append, segments_empty, app_nil_r. }
  rewrite EF.
  change (slice_from 1 ("/" +:+ ?x)) with x.
  set (A := path.normalizeArray (segments b) false).
  assert (Forall clean_part A) as HAc by apply normalizeArray_sub, segments_clean.
  rewrite (segments_join_sep A HAc).
  set (same := path.samePartsLength A B).
  destruct (samePartsLength_le A B) as [HsA HsB]. fold same in HsA, HsB.
  set (R := replicate (List.length A - same) ".." ++ drop same B).
  assert (Forall clean_part R) as HRc.
  { apply Forall_app. split; [apply Forall_replicate, clean_up|by apply Forall_drop]. }
  assert (take same A ++ drop same B = B) as Eback.
  { unfold same. rewrite samePartsLength_take. apply take_drop. }
  unfold path.resolve at 1. change (rev [from; join_sep R]) with [join_sep R; from].
  rewrite resolve_loop_cons.
  destruct (nonempty (join_sep R)) eqn:Hn.
  - assert (starts_with_sep (join_sep R) = false) as ->.
    { apply join_sep_parts. eapply Forall_impl; [exact HRc|]. intros x [H1 H2].
      split; [done|]. destruct x as [|c x]; [done|]. simpl in *.
      apply andb_true_iff in H2 as [H2 _]. by apply negb_true_iff. }
    rewrite Hb. cbn [negb].
    rewrite segments_append, segments_append, segments_empty, app_nil_r.
    rewrite (segments_join_sep R HRc). unfold R.
    rewrite normalizeArray_back; [|by apply Forall_drop|fold A; lia].
    fold A. replace (List.length A - (List.length A - same)) with same by lia.
    rewrite Eback. reflexivity.
  - rewrite Hb. cbn [negb].
    rewrite segments_append, segments_empty, app_nil_r. fold A.
    assert (R = []) as ER.
    { destruct R as [|x R']; [done|]. exfalso.
      inversion HRc as [|? ? Hx _]; subst. unfold join_sep in Hn. simpl in Hn.
      destruct R'; [by rewrite (proj1 Hx) in Hn|].
      pose proof (clean_nonempty x Hx). by destruct x. }
    unfold R in ER. apply app_eq_nil in ER as [E1 E2].
    assert (List.length A = same) as EA.
    { destruct (List.length A - same) eqn:E; [lia|done]. }
    assert (List.length B <= same) as EB.
    { apply (f_equal (@List.length _)) in E2. rewrite length_drop in E2. simpl in E2. lia. }
    rewrite <- Eback, E2, app_nil_r, <- EA, firstn_all. reflexivity.
Qed.

(** *** The test for the entry file *)

Lemma is_entry_resolved h file outFile source :
  starts_with_sep (cwd h) = true -> path.resolve (cwd h) [file] = file ->
  is_entry h file outFile source = resolves_to_entry h file outFile source.
Proof.
  intros Hc Hf. unfold is_entry, resolves_to_entry. by rewrite normalize_resolve, Hf.
Qed.

Lemma is_entry_unresolved h file outFile source :
  starts_with_sep (cwd h) = true -> path.resolve (cwd h) [file] <> file ->
  is_entry h file outFile source = false.
Proof.
  intros Hc Hf. unfold is_entry. rewrite normalize_resolve by done.
  apply String.eqb_neq. intros E. apply Hf. rewrite <- E. by apply resolve_resolve.
Qed.

Lemma filter_all {A} (f : A -> bool) (l : list A) :
  (forall x, f x = true) -> List.filter f l = l.
Proof. intros H. induction l as [|x l IH]; [done|]. simpl. by rewrite H, IH. Qed.

Lemma filter_none {A} (f : A -> bool) (l : list A) :
  (forall x, f x = false) -> List.filter f l = [].
Proof. intros H. induction l as [|x l IH]; [done|]. simpl. by rewrite H. Qed.

(** ** Removing the staging root from a message *)

Lemma prefixb_app p s : prefixb p (p +:+ s) = true.
Proof.
  induction p as [|c p IH]; [done|]. simpl. rewrite IH. by rewrite Ascii.eqb_refl.
Qed.

Lemma remove_matches_skip p x y :
  remove_matches p (String.length x) (x +:+ y) = remove_matches p 0 y.
Proof.
  induction x as [|c x IH]; simpl; [|exact IH].
  destruct y; reflexivity.
Qed.

Lemma remove_matches_none p s : occursb p s = false -> remove_matches p 0 s = s.
Proof.
  induction s as [|c s IH]; [done|]. intros H.
  change (occursb p (String c s)) with (prefixb p (String c s) || occursb p s) in H.
  apply orb_false_iff in H as [H1 H2]. simpl. rewrite H1. f_equal. by apply IH.
Qed.

Lemma remove_matches_cons p c s :
  remove_matches p 0 (String c s)
  = if prefixb p (String c s)
    then match String.length p with
         | S k => remove_matches p k s
         | O => String c (remove_matches p 0 s)
         end
    else String c (remove_matches p 0 s).
Proof. reflexivity. Qed.

Lemma remove_matches_leftmost p pre rest :
  no_match_in p pre (p +:+ rest) = true ->
  remove_matches p 0 (pre +:+ p +:+ rest) = pre +:+ remove_matches p 0 rest.
Proof.
  induction pre as [|c pre IH]; intros H.
  - change (remove_matches p 0 (p +:+ rest) = remove_matches p 0 rest).
    destruct p as [|c p]; [done|].
    change (String c p +:+ rest) with (String c (p +:+ rest)) at 1.
    rewrite remove_matches_cons.
    change (String c (p +:+ rest)) with (String c p +:+ rest).
    rewrite prefixb_app. cbn [String.length]. apply remove_matches_skip.
  - cbn [no_match_in] in H. apply andb_true_iff in H as [H1 H2].
    apply negb_true_iff in H1.
    change (remove_matches p 0 (String c (pre +:+ p +:+ rest))
            = String c (pre +:+ remove_matches p 0 rest)).
    rewrite remove_matches_cons.
    change (String c (pre +:+ p +:+ rest)) with (String c pre +:+ p +:+ rest).
    rewrite H1. f_equal. by apply IH.
Qed.

Lemma remove_matches_interleave root pieces post :
  separated root pieces post = true ->
  remove_matches root 0 (interleave root pieces post) = String.concat "" pieces +:+ post.
Proof.
  induction pieces as [|p ps IH]; simpl.
  - intros H. apply remove_matches_none. by apply negb_true_iff.
  - intros [H1 H2]%andb_true_iff. rewrite remove_matches_leftmost by done.
    rewrite IH by done. destruct ps as [|q ps].
    + simpl. done.
    + by rewrite string_app_assoc.
Qed.

(** ** Runs *)

Lemma reachable_run h s inputs :
  reachable h s -> admissible_all h s inputs -> reachable h (run h s inputs).
Proof.
  revert s. induction inputs as [|i rest IH]; intros s Hr Ha; [exact Hr|].
  destruct Ha as [Hi Hrest]. apply (IH (step h s i)); [|exact Hrest].
  by apply reachable_step.
Qed.

(** Rewrite with the equation of a step taken by the attempt in flight. *)
Ltac use_step E :=
  let H := fresh in
  pose proof E as H; cbn [childProcess renderMsg timeout] in H; cbn zeta in H;
  rewrite H; clear H.

(** * The claims *)

(** ** C1: one completion per request *)

(** C1, as amended.  In every reachable state with a request [m] in
    flight, [renderMsg._callback] has been called at most once per
    request so far, and the terminal events of the worker [p] resolve
    [m] as follows, the in-flight slot being cleared of [m] each time:
    a worker ['error'] calls it once with the raw error and no result;
    an exit with a null code calls it once with the one-element list
    holding the fatal error and no result; an exit with a non-null code
    calls nothing; a message that the still attached message listener
    receives calls it once with no error and the result when it carries
    [css] and a [map] that parses, and once with the one-element list of
    the reported error when it carries only [error].  The callback that
    [render] builds hands each of its calls to the host's callback
    once. *)
Theorem completion_per_terminal_event (h : Host) s m :
  reachable h s -> _currentRenderMsg s = Some m ->
  NoDup (List.map rid (called_of (trace s)))
  /\ (exists p, _compilerProcess s = Some p
      /\ (forall err, let s' := step h s (WorkerError p err) in
            calls_of (trace s') = calls_of (trace s) ++ [(m, RawError err, None)]
            /\ cleared_of (trace s') = cleared_of (trace s) ++ [m])
      /\ (forall signal, let s' := step h s (WorkerExit p None signal) in
            calls_of (trace s')
            = calls_of (trace s) ++ [(m, ErrorList [fatal_error m signal], None)]
            /\ cleared_of (trace s') = cleared_of (trace s) ++ [m])
      /\ (forall code signal, let s' := step h s (WorkerExit p (Some code) signal) in
            calls_of (trace s') = calls_of (trace s)
            /\ cleared_of (trace s') = cleared_of (trace s) ++ [m])
      /\ (forall c msg, procs s !! p = Some c -> on_message c <> [] ->
            truthy (msg_log msg) = false ->
            let s' := step h s (WorkerMessage p msg) in
            (forall parsed, truthy (msg_css msg) = true -> msg_map msg = Some parsed ->
               calls_of (trace s')
               = calls_of (trace s)
                 ++ [(m, NoErrors, Some {| css := default "" (msg_css msg);
                                           map := parsed; error := msg_error msg |})]
               /\ cleared_of (trace s') = cleared_of (trace s) ++ [m])
            /\ (forall e, truthy (msg_css msg) = false -> msg_error msg = Some e ->
               calls_of (trace s') = calls_of (trace s) ++ [(m, ErrorList [e], None)]
               /\ cleared_of (trace s') = cleared_of (trace s) ++ [m])))
  /\ (forall file outFile k errors result,
        invoke h (RenderCallback file outFile (HostCallback k)) errors result
        = Returned [(k, errors, render_result h file outFile result)]).
Proof.
  intros Hr Hc. split; [by apply (reachable_called_NoDup h)|]. split; [|done].
  destruct (reachable_busy h s m Hr Hc) as (p & t & Hb). exists p.
  split; [by destruct Hb|].
  split; [|split; [|split]].
  - intros err s'. unfold s'. use_step (step_error_busy h _ s err Hb).
    by rewrite call_callback_calls, call_callback_cleared, cleanup_calls, cleanup_cleared.
  - intros signal s'. unfold s'. use_step (step_exit_busy h _ s None signal Hb).
    by rewrite call_callback_calls, call_callback_cleared, cleanup_calls, cleanup_cleared.
  - intros code signal s'. unfold s'.
    use_step (step_exit_busy h _ s (Some code) signal Hb).
    by rewrite cleanup_calls, cleanup_cleared.
  - intros c msg Hl Hne Hlog s'. unfold s'.
    use_step (step_message_busy h _ s c msg Hb Hl Hne).
    unfold messageListener. rewrite Hlog. split.
    + intros parsed Hcss Hmap. rewrite Hcss, Hmap.
      by rewrite call_callback_calls, call_callback_cleared, cleanup_calls, cleanup_cleared.
    + intros e Hcss He. rewrite Hcss, He.
      by rewrite call_callback_calls, call_callback_cleared, cleanup_calls, cleanup_cleared.
Qed.

(** The sample request, resolved by a worker error. *)
Lemma completion_per_terminal_event_witness :
  reachable sample_host sample_state
  /\ _currentRenderMsg sample_state = Some sample_msg
  /\ calls_of (trace (step sample_host sample_state (WorkerError 0 "EPIPE")))
     = [(sample_msg, RawError "EPIPE", None)].
Proof.
  assert (reachable sample_host sample_state) as Hr.
  { apply reachable_step; [apply reachable_init | exact I]. }
  assert (_currentRenderMsg sample_state = Some sample_msg) as Hc by (vm_compute; reflexivity).
  split; [exact Hr|]. split; [exact Hc|].
  destruct (completion_per_terminal_event sample_host sample_state sample_msg Hr Hc)
    as (_ & (p & Hp & Herr & _) & _).
  assert (p = 0) as -> by (vm_compute in Hp; congruence).
  exact (proj1 (Herr "EPIPE")).
Defined.

(** C1 as stated fails: the worker of the sample request exits with
    code 0.  The request has been sent and its slot cleared, its
    callback has not been called, and nothing is left that could call
    it: no request in flight or queued, no timer, no listener of this
    module but the one that resets the handle. *)
Lemma normal_exit_completes_nothing :
  let s' := step sample_host sample_state (WorkerExit 0 (Some 0%Z) None) in
  sent_of (trace sample_state) = [sample_msg]
  /\ cleared_of (trace s') = [sample_msg]
  /\ calls_of (trace s') = []
  /\ _currentRenderMsg s' = None
  /\ _queue s' = []
  /\ timers s' = ∅
  /\ procs s' = [{| on_message := []; on_error := []; on_exit := [reset_listener];
                    exited := true; killed := false |}].
Proof. vm_compute. repeat split; reflexivity. Qed.

(** ** C2: one request in flight, first in first out *)

(** C2.  In every reachable state: the requests sent so far followed by
    the queued ones are the requests in the order of their [render]
    calls, none missing; along the whole trace a request is sent only
    while the in-flight slot is empty and the slot is cleared only of
    the request it holds; the requests sent are those whose slot was
    cleared followed by the one in flight, if any; and the completion
    calls follow the order in which the slots were cleared. *)
Theorem one_request_in_flight_fifo (h : Host) s :
  reachable h s ->
  List.map rid (sent_of (trace s)) ++ List.map rid (_queue s) = seq 0 (next_rid s)
  /\ slot_after None (trace s) = Some (_currentRenderMsg s)
  /\ sent_of (trace s) = cleared_of (trace s) ++ in_flight s
  /\ List.length (in_flight s) <= 1
  /\ sublist (called_of (trace s)) (cleared_of (trace s)).
Proof.
  intros Hr. destruct (reachable_Inv h s Hr) as [_ [H1 H2 H3 H4]].
  repeat split; try done. unfold in_flight. destruct (_currentRenderMsg s); simpl; lia.
Qed.

(** Two requests and a worker error: the first is completed, the second
    is in flight. *)
Lemma one_request_in_flight_fifo_witness :
  reachable sample_host sample_run
  /\ List.map rid (sent_of (trace sample_run)) = [0; 1]
  /\ List.map rid (cleared_of (trace sample_run)) = [0]
  /\ List.map rid (called_of (trace sample_run)) = [0]
  /\ List.map rid (in_flight sample_run) = [1]
  /\ sent_of (trace sample_run) = cleared_of (trace sample_run) ++ in_flight sample_run.
Proof.
  assert (reachable sample_host sample_run) as Hr.
  { apply reachable_run; [apply reachable_init | vm_compute; tauto]. }
  split; [exact Hr|]. do 4 (split; [vm_compute; reflexivity|]).
  exact (proj1 (proj2 (proj2 (one_request_in_flight_fifo sample_host sample_run Hr)))).
Defined.

(** ** C3: log messages *)

(** C3 fails on the code.  The message listener is registered with
    [once]: in every reachable state with a request [m] in flight, a
    message with a [log] member leaves [m] in flight and is printed (when
    the listener is still attached), but afterwards no message listener
    is attached to the worker, and any later message, terminal or not,
    leaves the state as it is. *)
Theorem log_message_detaches_listener (h : Host) s m msg :
  reachable h s -> _currentRenderMsg s = Some m -> truthy (msg_log msg) = true ->
  exists p, _compilerProcess s = Some p
    /\ let s1 := step h s (WorkerMessage p msg) in
       _currentRenderMsg s1 = Some m
       /\ (forall c, procs s !! p = Some c -> on_message c <> [] ->
             trace s1 = trace s ++ [ConsoleLog (default "" (msg_log msg))])
       /\ (forall c, procs s1 !! p = Some c -> on_message c = [])
       /\ (forall msg', step h s1 (WorkerMessage p msg') = s1).
Proof.
  intros Hr Hc Hlog. destruct (reachable_busy h s m Hr Hc) as (p & t & Hb). exists p.
  split; [by destruct Hb|].
  pose proof Hb as [_ _ (c & Hl & _ & (Hm & _ & _) & _) _]. cbn [childProcess] in Hl.
  destruct Hm as [Hm|Hm].
  - rewrite (step_message_detached h s p c msg Hl Hm). cbn zeta.
    split; [done|]. split; [intros c' Hl'; congruence|].
    split; [intros c' Hl'; congruence|].
    intros msg'. by apply (step_message_detached h s p c).
  - assert (on_message c <> []) as Hne by by rewrite Hm.
    use_step (step_message_busy h _ s c msg Hb Hl Hne).
    unfold messageListener. rewrite Hlog.
    assert (forall c', procs (removeListener EvMessage
              (MessageListener {| renderMsg := m; childProcess := p; timeout := t |}) p s)
              !! p = Some c' -> on_message c' = []) as Hgone.
    { intros c'. unfold removeListener.
      rewrite lookup_update_process, decide_True, Hl by done. simpl. intros [= <-].
      simpl. rewrite Hm. by apply remove_last_single. }
    split; [done|]. split; [done|]. split; [exact Hgone|].
    intros msg'. simpl.
    destruct (procs (removeListener EvMessage _ p s) !! p) as [c'|] eqn:Hl'.
    + apply (emit_message_none _ p c'); [exact Hl'|]. by apply Hgone.
    + unfold emit. cbn [procs emit_obs]. by rewrite Hl'.
Qed.

(** The sample request: a log message, then the success message.  The
    success message changes nothing; the request stays in flight and
    its callback is not called. *)
Lemma log_message_detaches_listener_witness :
  reachable sample_host sample_state
  /\ _currentRenderMsg sample_state = Some sample_msg
  /\ truthy (msg_log sample_log) = true
  /\ let s1 := step sample_host sample_state (WorkerMessage 0 sample_log) in
     step sample_host s1 (WorkerMessage 0 sample_css) = s1
     /\ calls_of (trace s1) = []
     /\ in_flight s1 = [sample_msg].
Proof.
  assert (reachable sample_host sample_state) as Hr.
  { apply reachable_step; [apply reachable_init | exact I]. }
  assert (_currentRenderMsg sample_state = Some sample_msg) as Hc by (vm_compute; reflexivity).
  assert (truthy (msg_log sample_log) = true) as Hlog by (vm_compute; reflexivity).
  split; [exact Hr|]. split; [exact Hc|]. split; [exact Hlog|].
  destruct (log_message_detaches_listener sample_host sample_state sample_msg sample_log
              Hr Hc Hlog) as (p & Hp & _ & _ & _ & Hlater).
  assert (p = 0) as -> by (vm_compute in Hp; congruence).
  split; [exact (Hlater sample_css)|]. split; vm_compute; reflexivity.
Defined.

(** ** C4: the timeout *)

(** C4, as amended.  In every reachable state with a request [m] in
    flight on the worker [p], either the timer of the attempt is
    pending, set to 10000 ms and aimed at [p], or it has fired and [p]
    has been sent its signal.  When a pending timer fires, the only
    effect is [childProcess.kill()] on [p]: no callback is called and
    [m] stays in flight.  When the exit of [p] is then reported with a
    null code, the callback of [m] is called once, with no result and
    the one-element list of the fatal error [{errorString, path: m.file,
    pos: {ch: 0}, message: errorString}], [errorString] being ["Fatal
    node-sass error, signal="] followed by the signal; when it is
    reported with a code, the slot is cleared of [m] and no callback is
    called. *)
Theorem timeout_kills_worker (h : Host) s m :
  reachable h s -> _currentRenderMsg s = Some m ->
  exists p c, _compilerProcess s = Some p /\ procs s !! p = Some c
    /\ ((exists t, timers s = {[ t := {| delay := 10000%N; target := p |} ]})
        \/ (timers s = ∅ /\ killed c = true))
    /\ forall t tm, timers s !! t = Some tm ->
         let s1 := step h s (TimerFired t) in
         tm = {| delay := 10000%N; target := p |}
         /\ trace s1 = trace s ++ [Kill p]
         /\ _currentRenderMsg s1 = Some m
         /\ timers s1 = ∅
         /\ (forall signal,
               calls_of (trace (step h s1 (WorkerExit p None signal)))
               = calls_of (trace s)
                 ++ [(m,
                      ErrorList
                        [{| errorString :=
                              Some ("Fatal node-sass error, signal=" +:+ signal_text signal);
                            path := file m;
                            pos := Some {| line := None; ch := Some 0 |};
                            message :=
                              "Fatal node-sass error, signal=" +:+ signal_text signal |}],
                      None)])
         /\ (forall code signal,
               calls_of (trace (step h s1 (WorkerExit p (Some code) signal)))
               = calls_of (trace s)
               /\ cleared_of (trace (step h s1 (WorkerExit p (Some code) signal)))
                  = cleared_of (trace s) ++ [m]).
Proof.
  intros Hr Hc. destruct (reachable_busy h s m Hr Hc) as (p & t0 & Hb).
  pose proof Hb as [_ Hh (c & Hl & Hex & _ & Ht) _]. cbn [childProcess timeout] in *.
  exists p, c. split; [done|]. split; [done|]. split.
  { destruct Ht as [Ht|Ht]; [left; by exists t0 | by right]. }
  intros t tm Htm. set (s1 := step h s (TimerFired t)).
  assert (s1 = kill (target tm) (clearTimeout t s)) as Hs1.
  { unfold s1. simpl. by rewrite Htm. }
  clearbody s1.
  destruct (Busy_timer _ s t tm Hb Htm) as (Et & Etm & Hb1).
  cbn [timeout childProcess] in Et, Etm. subst t tm. cbn [target] in *.
  assert (trace s1 = trace s ++ [Kill p]) as Htr.
  { rewrite Hs1. unfold kill, alive. cbn [procs clearTimeout set_timers].
    by rewrite Hl, Hex. }
  split; [done|]. split; [done|].
  rewrite <- Hs1 in Hb1. split; [by destruct Hb1|]. split.
  { rewrite Hs1. unfold kill, alive. cbn [procs clearTimeout set_timers].
    rewrite Hl, Hex. cbn. destruct Ht as [Ht|[Ht _]]; rewrite Ht in *.
    - apply delete_singleton_eq.
    - by rewrite lookup_empty in Htm. }
  split.
  - intros signal. use_step (step_exit_busy h _ s1 None signal Hb1).
    rewrite call_callback_calls, cleanup_calls. cbn [trace renderMsg].
    change (trace (removeListener ?e ?f ?q ?x)) with (trace x).
    change (trace (set_compilerProcess None (mark_exited p s1))) with (trace s1).
    by rewrite Htr, calls_of_snoc, app_nil_r.
  - intros code signal. use_step (step_exit_busy h _ s1 (Some code) signal Hb1).
    rewrite cleanup_calls, cleanup_cleared. cbn [trace renderMsg].
    change (trace (removeListener ?e ?f ?q ?x)) with (trace x).
    change (trace (set_compilerProcess None (mark_exited p s1))) with (trace s1).
    by rewrite Htr, calls_of_snoc, cleared_of_snoc, !app_nil_r.
Qed.

(** The timer of the sample request fires and the worker dies of
    SIGTERM. *)
Lemma timeout_kills_worker_witness :
  reachable sample_host sample_state
  /\ _currentRenderMsg sample_state = Some sample_msg
  /\ timers sample_state !! 0 = Some {| delay := 10000%N; target := 0 |}
  /\ let s1 := step sample_host sample_state (TimerFired 0) in
     trace s1 = trace sample_state ++ [Kill 0]
     /\ calls_of (trace (step sample_host s1 (WorkerExit 0 None (Some "SIGTERM"))))
        = [(sample_msg,
            ErrorList [{| errorString := Some "Fatal node-sass error, signal=SIGTERM";
                          path := "/proj/src/a.scss";
                          pos := Some {| line := None; ch := Some 0 |};
                          message := "Fatal node-sass error, signal=SIGTERM" |}],
            None)].
Proof.
  assert (reachable sample_host sample_state) as Hr.
  { apply reachable_step; [apply reachable_init | exact I]. }
  assert (_currentRenderMsg sample_state = Some sample_msg) as Hc by (vm_compute; reflexivity).
  assert (timers sample_state !! 0 = Some {| delay := 10000%N; target := 0 |}) as Ht
    by (vm_compute; reflexivity).
  split; [exact Hr|]. split; [exact Hc|]. split; [exact Ht|].
  destruct (timeout_kills_worker sample_host sample_state sample_msg Hr Hc)
    as (p & c & Hp & _ & _ & Hfire).
  assert (p = 0) as -> by (vm_compute in Hp; congruence).
  destruct (Hfire 0 _ Ht) as (_ & Htr & _ & _ & Hexit & _).
  split; [exact Htr|]. exact (Hexit (Some "SIGTERM")).
Defined.

(** C4 as stated fails: the timer of the sample request fires, the
    worker is sent its signal, and its exit is reported with the status
    143.  The request has left the slot, its callback has not been
    called, and nothing is left that could call it: no request in flight
    or queued, no timer, no listener of this module but the one that
    resets the handle. *)
Lemma timeout_then_exit_status_completes_nothing :
  let s1 := step sample_host sample_state (TimerFired 0) in
  let s2 := step sample_host s1 (WorkerExit 0 (Some 143%Z) None) in
  trace s1 = trace sample_state ++ [Kill 0]
  /\ sent_of (trace s2) = [sample_msg]
  /\ cleared_of (trace s2) = [sample_msg]
  /\ calls_of (trace s2) = []
  /\ _currentRenderMsg s2 = None
  /\ _queue s2 = []
  /\ timers s2 = ∅
  /\ procs s2 = [{| on_message := []; on_error := []; on_exit := [reset_listener];
                    exited := true; killed := true |}].
Proof. vm_compute. repeat split; reflexivity. Qed.

(** ** C5: the fatal error *)

(** C5, as amended.  In every reachable state with a request [m] in
    flight on the worker [p], an exit of [p] with a null exit code calls
    the callback of [m] once, with no result and a one-element list
    whose element is [{errorString, path: m.file, pos: {ch: 0}, message:
    errorString}], where [errorString] is ["Fatal node-sass error,
    signal="] followed by the signal. *)
Theorem signal_exit_reports_fatal_error (h : Host) s m signal :
  reachable h s -> _currentRenderMsg s = Some m ->
  exists p, _compilerProcess s = Some p
    /\ calls_of (trace (step h s (WorkerExit p None signal)))
       = calls_of (trace s)
         ++ [(m,
              ErrorList
                [{| errorString :=
                      Some ("Fatal node-sass error, signal=" +:+ signal_text signal);
                    path := file m;
                    pos := Some {| line := None; ch := Some 0 |};
                    message := "Fatal node-sass error, signal=" +:+ signal_text signal |}],
              None)].
Proof.
  intros Hr Hc. destruct (reachable_busy h s m Hr Hc) as (p & t & Hb). exists p.
  split; [by destruct Hb|].
  use_step (step_exit_busy h _ s None signal Hb).
  by rewrite call_callback_calls, cleanup_calls.
Qed.

(** The worker of the sample request dies of SIGSEGV. *)
Lemma signal_exit_reports_fatal_error_witness :
  reachable sample_host sample_state
  /\ _currentRenderMsg sample_state = Some sample_msg
  /\ calls_of (trace (step sample_host sample_state (WorkerExit 0 None (Some "SIGSEGV"))))
     = [(sample_msg,
         ErrorList [{| errorString := Some "Fatal node-sass error, signal=SIGSEGV";
                       path := "/proj/src/a.scss";
                       pos := Some {| line := None; ch := Some 0 |};
                       message := "Fatal node-sass error, signal=SIGSEGV" |}],
         None)].
Proof.
  assert (reachable sample_host sample_state) as Hr.
  { apply reachable_step; [apply reachable_init | exact I]. }
  assert (_currentRenderMsg sample_state = Some sample_msg) as Hc by (vm_compute; reflexivity).
  split; [exact Hr|]. split; [exact Hc|].
  destruct (signal_exit_reports_fatal_error sample_host sample_state sample_msg
              (Some "SIGSEGV") Hr Hc) as (p & Hp & Hcall).
  assert (p = 0) as -> by (vm_compute in Hp; congruence).
  exact Hcall.
Defined.

(** C5 as stated fails.  The error that the callback of the sample
    request receives when its worker dies of SIGSEGV has a [pos] whose
    [ch] is 0 and which has no [line]; it is not [{line: 0}].  And when
    the worker exits with the status 1 the callback receives nothing:
    only an exit with a null code is reported. *)
Lemma fatal_error_position_is_ch :
  (exists e,
     calls_of (trace (step sample_host sample_state (WorkerExit 0 None (Some "SIGSEGV"))))
     = [(sample_msg, ErrorList [e], None)]
     /\ pos e = Some {| line := None; ch := Some 0 |}
     /\ pos e <> Some {| line := Some 0; ch := None |})
  /\ calls_of (trace (step sample_host sample_state (WorkerExit 0 (Some 1%Z) None))) = [].
Proof.
  split; [|vm_compute; reflexivity].
  eexists. split; [vm_compute; reflexivity|]. split; [reflexivity|discriminate].
Qed.

(** ** C6: the sources of a render *)

(** C6 fails on the code.  The callback built by [render] tests each
    source against [file] as it was passed, not against the entry file
    that is compiled, [path.resolve(file)].  With an absolute working
    directory: when [file] is its own resolved path, the sources that
    resolve from the folder of the output file to the compiled entry
    file come first, each as the entry file relative to that folder, and
    the others follow in their order; when [file] is not its own
    resolved path, no source is moved, the one that resolves to the
    compiled entry file included.  In both cases every source is
    re-expressed relative to the folder of the output file: resolved
    from that folder, the new source is the file the old one named. *)
Theorem render_moves_resolved_entry_first (h : Host) file outFile callback errors c
    sources e :
  starts_with_sep (cwd h) = true ->
  (path.resolve (cwd h) [file] = file ->
   invoke h (RenderCallback file outFile callback) errors
     (Some {| css := c; map := MapObject (Some sources); error := e |})
   = invoke h callback errors
       (Some {| css := c;
                map := MapObject (Some
                  (replicate
                     (List.length (List.filter (resolves_to_entry h file outFile) sources))
                     (path.relative (cwd h) (path.dirname outFile) file)
                   ++ List.map (to_outFolder h outFile)
                        (List.filter (fun s => negb (resolves_to_entry h file outFile s))
                           sources)));
                error := e |}))
  /\ (path.resolve (cwd h) [file] <> file ->
      invoke h (RenderCallback file outFile callback) errors
        (Some {| css := c; map := MapObject (Some sources); error := e |})
      = invoke h callback errors
          (Some {| css := c;
                   map := MapObject (Some (List.map (to_outFolder h outFile) sources));
                   error := e |}))
  /\ (forall source,
        path.resolve (cwd h) [path.dirname outFile; to_outFolder h outFile source]
        = path.resolve (cwd h) [path.dirname outFile; source])
  /\ path.resolve (cwd h)
       [path.dirname outFile; path.relative (cwd h) (path.dirname outFile) file]
     = path.resolve (cwd h) [file].
Proof.
  intros Hc.
  pose proof (render_sources_acc h file outFile sources 0 []) as H. simpl in H.
  split; [|split; [|split]].
  - intros Hf. simpl. unfold render_sources. rewrite H.
    rewrite (List.filter_ext _ _ (fun s => is_entry_resolved h file outFile s Hc Hf)).
    rewrite (List.filter_ext (fun s => negb (is_entry h file outFile s))
               (fun s => negb (resolves_to_entry h file outFile s))); [done|].
    intros s. by rewrite is_entry_resolved.
  - intros Hf. simpl. unfold render_sources. rewrite H.
    rewrite filter_none by (intros s; by apply is_entry_unresolved).
    rewrite filter_all; [done|]. intros s. by rewrite is_entry_unresolved.
  - intros source. unfold to_outFolder. rewrite resolve_relative by done.
    by apply resolve_resolve.
  - by apply resolve_relative.
Qed.

(** The entry file named relative to the working directory [/]: the
    second source resolves to it and stays second. *)
Lemma render_moves_resolved_entry_first_witness :
  starts_with_sep (cwd sample_host) = true
  /\ path.resolve (cwd sample_host) ["proj/src/b.scss"] <> "proj/src/b.scss"
  /\ resolves_to_entry sample_host "proj/src/b.scss" "/proj/out/b.css" "../src/b.scss" = true
  /\ invoke sample_host (RenderCallback "proj/src/b.scss" "/proj/out/b.css" (HostCallback 1))
       NoErrors
       (Some {| css := "a{}";
                map := MapObject (Some ["../src/a.scss"; "../src/b.scss"; "../src/c.scss"]);
                error := None |})
     = Returned
         [(1, NoErrors,
           Some {| css := "a{}";
                   map := MapObject
                            (Some ["../src/a.scss"; "../src/b.scss"; "../src/c.scss"]);
                   error := None |})].
Proof.
  assert (path.resolve (cwd sample_host) ["proj/src/b.scss"] <> "proj/src/b.scss") as Hf.
  { vm_compute. discriminate. }
  split; [reflexivity|]. split; [exact Hf|]. split; [vm_compute; reflexivity|].
  rewrite (proj1 (proj2 (render_moves_resolved_entry_first sample_host "proj/src/b.scss"
                           "/proj/out/b.css" (HostCallback 1) NoErrors "a{}"
                           ["../src/a.scss"; "../src/b.scss"; "../src/c.scss"] None
                           eq_refl)) Hf).
  vm_compute. reflexivity.
Defined.

(** The entry file named by its resolved path: output folder
    [/proj/out], entry [b.scss] listed second and moved to the front. *)
Example render_moves_entry_first_example :
  invoke sample_host (RenderCallback "/proj/src/b.scss" "/proj/out/b.css" (HostCallback 1))
    NoErrors
    (Some {| css := "a{}";
             map := MapObject (Some ["../src/a.scss"; "../src/b.scss"; "../src/c.scss"]);
             error := None |})
  = Returned
      [(1, NoErrors,
        Some {| css := "a{}";
                map := MapObject (Some ["../src/b.scss"; "../src/a.scss"; "../src/c.scss"]);
                error := None |})].
Proof. vm_compute. reflexivity. Qed.

(** ** C7: the errors of a preview *)

(** C7 fails on the code.  With a staging root that has no special
    character of a regular expression, the function that [preview]
    hands to [render] passes to the host every error of the list, and
    the error of the result with them, rewritten by the body of its
    loop.  That body leaves [errorString] and [pos] alone.  It sets the
    path to the file the caller passed to [preview] when the normalized
    path is the normalized staged copy of the entry file, and otherwise
    to the path resolved against the staged folder of the entry file:
    an absolute path, such as the path of a staged include file, is
    resolved to itself and stays inside the staging root.  From the
    message it removes every occurrence of the staging root that a
    search from left to right finds; the text on both sides of a removed
    occurrence is joined as it is. *)
Theorem preview_rewrites_errors (h : Host) env :
  literal_source (pv_tmpDirPath env) = true ->
  (forall k errs,
     invoke h (PreviewCallback env (HostCallback k)) (ErrorList errs) None
     = Returned [(k, ErrorList (List.map (preview_error h env) errs), None)])
  /\ (forall k errs c sources e,
        invoke h (PreviewCallback env (HostCallback k)) (ErrorList errs)
          (Some {| css := c; map := MapObject sources; error := Some e |})
        = Returned
            [(k, ErrorList (List.map (preview_error h env) (errs ++ [e])),
              Some {| css := c;
                      map := MapObject (List.map (preview_source h env) <$> sources);
                      error := Some (preview_error h env e) |})])
  /\ (forall k c sources e,
        invoke h (PreviewCallback env (HostCallback k)) NoErrors
          (Some {| css := c; map := MapObject sources; error := Some e |})
        = Returned
            [(k, NoErrors,
              Some {| css := c;
                      map := MapObject (List.map (preview_source h env) <$> sources);
                      error := Some (preview_error h env e) |})])
  /\ forall e,
       errorString (preview_error h env e) = errorString e
       /\ pos (preview_error h env e) = pos e
       /\ (path.normalize (path e) = path.normalize (pv_tmpFile env) ->
           path (preview_error h env e) = pv_file env)
       /\ (path.normalize (path e) <> path.normalize (pv_tmpFile env) ->
           path (preview_error h env e) = path.resolve (cwd h) [pv_tmpFolder env; path e])
       /\ (path.normalize (path e) <> path.normalize (pv_tmpFile env) ->
           starts_with_sep (path e) = true ->
           path (preview_error h env e) = path.resolve (cwd h) [path e])
       /\ (forall pieces post,
             message e = interleave (pv_tmpDirPath env) pieces post ->
             separated (pv_tmpDirPath env) pieces post = true ->
             message (preview_error h env e) = String.concat "" pieces +:+ post).
Proof.
  intros Hlit. split; [intros k errs; simpl; by rewrite app_nil_r|].
  split; [by intros k errs c [sources|] e|].
  split; [by intros k c [sources|] e|].
  intros e. unfold preview_error. cbn [errorString pos path message].
  split; [done|]. split; [done|]. split; [|split; [|split]].
  - intros ->. by rewrite String.eqb_refl.
  - intros Hn. apply String.eqb_neq in Hn. by rewrite Hn.
  - intros Hn Ha. apply String.eqb_neq in Hn. rewrite Hn.
    by apply (resolve_last_absolute (cwd h) [pv_tmpFolder env]).
  - intros pieces post -> Hs. unfold _removePathFromErrorString. rewrite Hlit.
    by apply remove_matches_interleave.
Qed.

(** An error in a staged include file: its path is inside the staging
    root and stays there, and its message, from which the one occurrence
    found is removed, holds the staging root afterwards.  An error
    with two occurrences in its message loses both. *)
Lemma preview_rewrites_errors_witness :
  literal_source (pv_tmpDirPath sample_env) = true
  /\ (exists e',
        invoke sample_host (PreviewCallback sample_env (HostCallback 3))
          (ErrorList [sample_include_error]) None
        = Returned [(3, ErrorList [e'], None)]
        /\ underb (pv_tmpDirPath sample_env) (path sample_include_error) = true
        /\ path e' = path sample_include_error
        /\ occursb (pv_tmpDirPath sample_env) (message e') = true)
  /\ preview_error sample_host sample_env sample_twice_error
     = {| errorString := None;
          path := "/proj/src/a.scss";
          pos := Some {| line := Some 3; ch := Some 1 |};
          message := "/proj/src/a.scss:3: import of /proj/src/inc/_p.scss failed" |}.
Proof.
  assert (literal_source (pv_tmpDirPath sample_env) = true) as Hl by (vm_compute; reflexivity).
  destruct (preview_rewrites_errors sample_host sample_env Hl) as (Hlist & _ & _ & Herr).
  split; [exact Hl|]. split.
  - exists (preview_error sample_host sample_env sample_include_error).
    split; [exact (Hlist 3 [sample_include_error])|]. split; [vm_compute; reflexivity|].
    destruct (Herr sample_include_error) as (_ & _ & _ & _ & Hp & _).
    split; [|vm_compute; reflexivity].
    rewrite Hp; [vm_compute; reflexivity|vm_compute; discriminate|reflexivity].
  - destruct (Herr sample_twice_error) as (He & Hpos & Hp & _ & _ & Hm).
    specialize (Hp ltac:(vm_compute; reflexivity)).
    specialize (Hm [""; "/proj/src/a.scss:3: import of "] "/proj/src/inc/_p.scss failed"
                  ltac:(vm_compute; reflexivity) ltac:(vm_compute; reflexivity)).
    destruct (preview_error sample_host sample_env sample_twice_error) as [es pa po me].
    cbn [errorString path pos message] in *. subst. vm_compute. reflexivity.
Defined.

(** ** C8: deleteTempFiles *)

(** C8.  Every [preview] appends its staging directory to the registry.
    [deleteTempFiles] empties the registry; afterwards no path is left
    at or below any directory that was registered, and nothing else is
    created; it adds nothing to the trace, an uncaught exception
    included; and called again at once it returns the state it is
    given. *)
Theorem deleteTempFiles_clears (h : Host) s :
  (forall file outFile mem inc img style comments smap compiler cb,
     tmpFolders (step h s (Preview file outFile mem inc img style comments smap compiler cb))
     = tmpFolders s ++ [pv_tmpDirPath (preview_env h file outFile s)])
  /\ tmpFolders (deleteTempFiles s) = []
  /\ (forall d q, d ∈ tmpFolders s -> q ∈ fs (deleteTempFiles s) -> underb d q = false)
  /\ fs (deleteTempFiles s) ⊆ fs s
  /\ trace (deleteTempFiles s) = trace s
  /\ deleteTempFiles (deleteTempFiles s) = deleteTempFiles s
  /\ step h (step h s DeleteTempFiles) DeleteTempFiles = step h s DeleteTempFiles.
Proof.
  split; [intros; apply preview_registers|].
  unfold deleteTempFiles. cbn. repeat split.
  - intros d q Hd Hq. apply elem_of_remove_all in Hq as [_ Hq]. auto.
  - intros q Hq. by apply elem_of_remove_all in Hq as [Hq _].
Qed.

(** The staged files of the sample preview are gone after the cleanup. *)
Example deleteTempFiles_clears_example :
  tmpFolders sample_preview_run = ["/tmp/brackets-sass/3a83d065326f37bc9020cece0238f4e9"]
  /\ bool_decide ("/tmp/brackets-sass/3a83d065326f37bc9020cece0238f4e9/proj/src/a.scss"
                  ∈ fs sample_preview_run) = true
  /\ bool_decide ("/tmp/brackets-sass/3a83d065326f37bc9020cece0238f4e9/proj/src/a.scss"
                  ∈ fs (deleteTempFiles sample_preview_run)) = false
  /\ bool_decide ("/tmp/brackets-sass/3a83d065326f37bc9020cece0238f4e9"
                  ∈ fs (deleteTempFiles sample_preview_run)) = false
  /\ bool_decide ("/proj/src/a.scss" ∈ fs (deleteTempFiles sample_preview_run)) = true.
Proof. repeat split; vm_compute; reflexivity. Qed.

(** ** C9: the worker handle *)



(** ** C10: a preview result without a map *)

(** C10.  Called with a result whose [map] is [null], the function that
    [preview] hands to [render] throws a [TypeError] and does not call
    its callback, whatever the errors and the rest of the result; the
    callback that [render] builds around it passes such a result on
    untouched, so the call made by the dispatcher throws as well. *)
Theorem preview_needs_map (h : Host) env callback errors c e file outFile :
  invoke h (PreviewCallback env callback) errors
    (Some {| css := c; map := MapNull; error := e |}) = Threw TypeError
  /\ invoke h (RenderCallback file outFile (PreviewCallback env callback)) errors
       (Some {| css := c; map := MapNull; error := e |}) = Threw TypeError.
Proof.
  split; simpl; destruct (errors_to_process _ _) as [[? ?]|]; reflexivity.
Qed.

(** The sample preview, answered with [css] and the map text [null]:
    the dispatcher makes its one call, which throws before the host's
    callback 3 is reached. *)
Example preview_needs_map_example :
  exists m,
    calls_of (trace sample_preview_run)
    = [(m, NoErrors, Some {| css := "a{}"; map := MapNull; error := None |})]
    /\ invoke sample_host (_callback m) NoErrors
         (Some {| css := "a{}"; map := MapNull; error := None |}) = Threw TypeError.
Proof. eexists. split; vm_compute; reflexivity. Qed.

(** * Further properties *)

(** ** Absolute and relative paths *)

(** X1.  With an absolute working directory, [normalize] is
    [path.resolve] of the normalized path, the search for the first
    separator finds it at index 0 and cuts nothing off, and the result
    starts with a separator. *)
Theorem normalize_starts_at_separator (h : Host) fullPath :
  starts_with_sep (cwd h) = true ->
  normalize h fullPath = path.resolve (cwd h) [path.normalize fullPath]
  /\ starts_with_sep (normalize h fullPath) = true.
Proof.
  intros Hc. unfold normalize.
  pose proof (resolve_absolute (cwd h) [path.normalize fullPath] Hc) as Ha.
  rewrite (index_of_sep_absolute _ Ha). simpl. by split.
Qed.

(** A relative path with a doubled separator and a [..]. *)
Lemma normalize_starts_at_separator_witness :
  starts_with_sep (cwd sample_host) = true
  /\ starts_with_sep (normalize sample_host "proj//src/../a.scss") = true.
Proof.
  split; [reflexivity|].
  exact (proj2 (normalize_starts_at_separator sample_host "proj//src/../a.scss" eq_refl)).
Defined.

(** X2.  With an absolute working directory, every path that
    [_toAbsolutePaths] returns is absolute; it returns one or two paths
    for each path it is given, and without a [tmpRoot] exactly one, the
    path resolved against [file], in the order given. *)
Theorem toAbsolutePaths_absolute (h : Host) file pathsArray tmpRoot :
  starts_with_sep (cwd h) = true ->
  Forall (fun q => starts_with_sep q = true) (_toAbsolutePaths h file pathsArray tmpRoot)
  /\ List.length (paths_of pathsArray)
     <= List.length (_toAbsolutePaths h file pathsArray tmpRoot)
     <= 2 * List.length (paths_of pathsArray)
  /\ (truthy tmpRoot = false ->
      _toAbsolutePaths h file pathsArray tmpRoot
      = List.map (fun p => path.resolve (cwd h) [file; p]) (paths_of pathsArray)).
Proof.
  intros Hc. unfold _toAbsolutePaths.
  induction (paths_of pathsArray) as [|p l (IH1 & IH2 & IH3)]; simpl.
  { split; [constructor|]. split; [lia|done]. }
  destruct (truthy tmpRoot && negb (String.eqb p (path.resolve (cwd h) [file; p]))) eqn:E.
  - split; [|split].
    + repeat (constructor; [by apply resolve_absolute|]). exact IH1.
    + simpl. lia.
    + intros Ht. by rewrite Ht in E.
  - split; [|split].
    + constructor; [by apply resolve_absolute|]. exact IH1.
    + simpl. lia.
    + intros Ht. simpl. f_equal. by apply IH3.
Qed.

(** A relative and an absolute include path, staged under [/tmp/x]. *)
Lemma toAbsolutePaths_absolute_witness :
  starts_with_sep (cwd sample_host) = true
  /\ Forall (fun q => starts_with_sep q = true)
       (_toAbsolutePaths sample_host "/proj/src/" (PathList ["inc"; "/lib"]) (Some "/tmp/x")).
Proof.
  split; [reflexivity|].
  exact (proj1 (toAbsolutePaths_absolute sample_host "/proj/src/" (PathList ["inc"; "/lib"])
                  (Some "/tmp/x") eq_refl)).
Defined.

(** X3.  [_toRelativePaths] returns one path for each path it is
    given, and none of them starts with a separator. *)
Theorem toRelativePaths_relative (h : Host) file pathsArray :
  Forall (fun q => starts_with_sep q = false) (_toRelativePaths h file pathsArray)
  /\ List.length (_toRelativePaths h file pathsArray) = List.length (paths_of pathsArray).
Proof.
  unfold _toRelativePaths. split; [|apply length_map].
  apply Forall_map, Forall_forall. intros p _. apply relative_not_absolute.
Qed.

Lemma length_filter_split {A} (f : A -> bool) (l : list A) :
  List.length (List.filter f l) + List.length (List.filter (fun x => negb (f x)) l)
  = List.length l.
Proof. induction l as [|x l IH]; [done|]. simpl. destruct (f x); simpl; lia. Qed.

(** X4.  The sources that [render]'s callback writes back into the
    map are as many as it read, and no source written by [render]'s or
    by [preview]'s callback starts with a separator. *)
Theorem rewritten_sources_relative (h : Host) file outFile env sources :
  List.length (render_sources h file outFile sources) = List.length sources
  /\ Forall (fun q => starts_with_sep q = false) (render_sources h file outFile sources)
  /\ Forall (fun q => starts_with_sep q = false) (List.map (preview_source h env) sources).
Proof.
  pose proof (render_sources_acc h file outFile sources 0 []) as H.
  simpl in H. unfold render_sources. rewrite H. split; [|split].
  - rewrite length_app, length_replicate, length_map. apply length_filter_split.
  - apply Forall_app. split.
    + apply Forall_replicate, relative_not_absolute.
    + apply Forall_map, Forall_forall. intros p _. apply relative_not_absolute.
  - apply Forall_map, Forall_forall. intros p _. unfold preview_source.
    destruct (occursb _ _); apply relative_not_absolute.
Qed.

(** X21.  With an absolute working directory, a path returned by
    [_toRelativePaths] names, from [file], the file that the path it was
    given names from [file]: resolving the two against [file] gives the
    same absolute path. *)
Theorem toRelativePaths_resolve_back (h : Host) file pathsArray :
  starts_with_sep (cwd h) = true ->
  List.map (fun r => path.resolve (cwd h) [file; r]) (_toRelativePaths h file pathsArray)
  = List.map (fun p => path.resolve (cwd h) [file; p]) (paths_of pathsArray).
Proof.
  intros Hc. unfold _toRelativePaths. rewrite List.map_map. apply List.map_ext.
  intros p. rewrite resolve_relative by done. by apply resolve_resolve.
Qed.

(** A relative and an absolute path, seen from [/proj/src/]. *)
Lemma toRelativePaths_resolve_back_witness :
  starts_with_sep (cwd sample_host) = true
  /\ _toRelativePaths sample_host "/proj/src/" (PathList ["../lib/x"; "/lib"])
     = ["../lib/x"; "../../lib"]
  /\ List.map (fun r => path.resolve (cwd sample_host) ["/proj/src/"; r])
       (_toRelativePaths sample_host "/proj/src/" (PathList ["../lib/x"; "/lib"]))
     = ["/proj/lib/x"; "/lib"].
Proof.
  split; [reflexivity|]. split; [vm_compute; reflexivity|].
  rewrite (toRelativePaths_resolve_back sample_host "/proj/src/"
             (PathList ["../lib/x"; "/lib"]) eq_refl).
  vm_compute. reflexivity.
Defined.

(** ** Where a dispatch goes *)

Lemma nextRender_dispatch_fresh s m rest :
  _currentRenderMsg s = None -> _queue s = m :: rest -> _compilerProcess s = None ->
  _compilerProcess (_nextRender s) = Some (List.length (procs s))
  /\ List.length (procs (_nextRender s)) = S (List.length (procs s))
  /\ alive (List.length (procs s)) (_nextRender s) = true
  /\ _currentRenderMsg (_nextRender s) = Some m
  /\ _queue (_nextRender s) = rest
  /\ trace (_nextRender s)
     = trace s ++ [Forked (List.length (procs s)); Sent (List.length (procs s)) m].
Proof.
  intros Hc Hq Hh. unfold _nextRender, _createChildProcess. rewrite Hc, Hq. cbn.
  rewrite Hh. cbn. unfold alive. cbn.
  rewrite !length_alter, length_app, !list_lookup_alter_eq, list_lookup_middle by done.
  cbn. rewrite <- app_assoc. repeat split; try done. lia.
Qed.

Lemma nextRender_dispatch_same s m rest p :
  _currentRenderMsg s = None -> _queue s = m :: rest -> _compilerProcess s = Some p ->
  _compilerProcess (_nextRender s) = Some p
  /\ List.length (procs (_nextRender s)) = List.length (procs s)
  /\ _currentRenderMsg (_nextRender s) = Some m
  /\ _queue (_nextRender s) = rest
  /\ trace (_nextRender s) = trace s ++ [Sent p m].
Proof.
  intros Hc Hq Hh. unfold _nextRender, _createChildProcess. rewrite Hc, Hq. cbn.
  rewrite Hh. cbn. by rewrite !length_alter.
Qed.

Lemma cleanup_is_nextRender a s :
  exists s5, cleanup a s = _nextRender s5
    /\ _currentRenderMsg s5 = None /\ _queue s5 = _queue s
    /\ _compilerProcess s5 = _compilerProcess s
    /\ List.length (procs s5) = List.length (procs s)
    /\ trace s5 = trace s ++ [SlotCleared (renderMsg a)]
    /\ next_rid s5 = next_rid s.
Proof.
  eexists. split; [reflexivity|]. unfold removeListener, update_process. cbn.
  by rewrite !length_alter.
Qed.

Lemma busy_handle h s m p :
  reachable h s -> _currentRenderMsg s = Some m -> _compilerProcess s = Some p ->
  exists t, Busy {| renderMsg := m; childProcess := p; timeout := t |} s.
Proof.
  intros Hr Hc Hp. destruct (reachable_busy h s m Hr Hc) as (p' & t & Hb).
  pose proof Hb as [_ Hh _ _]. cbn in Hh. assert (p' = p) as -> by congruence. eauto.
Qed.

(** X5.  When the worker exits while a request is in flight and
    another waits, the handle is reset before [cleanup] dispatches: the
    waiting request goes to a newly forked process, which has not
    exited, and not to the one that died. *)
Theorem exit_moves_queue_to_fresh_worker (h : Host) s m p m' rest code signal :
  reachable h s -> _currentRenderMsg s = Some m -> _compilerProcess s = Some p ->
  _queue s = m' :: rest ->
  let s' := step h s (WorkerExit p code signal) in
  _compilerProcess s' = Some (List.length (procs s))
  /\ p < List.length (procs s)
  /\ alive (List.length (procs s)) s' = true
  /\ _currentRenderMsg s' = Some m'
  /\ _queue s' = rest
  /\ sent_of (trace s') = sent_of (trace s) ++ [m'].
Proof.
  intros Hr Hc Hp Hq. destruct (busy_handle h s m p Hr Hc Hp) as (t & Hb).
  pose proof Hb as [_ _ (c & Hl & _) _]. cbn [childProcess] in Hl.
  assert (p < List.length (procs s)) as Hlt by by eapply lookup_lt_Some.
  use_step (step_exit_busy h _ s code signal Hb).
  match goal with |- context [cleanup ?a ?x] => set (s1 := x); set (a0 := a) end.
  destruct (cleanup_is_nextRender a0 s1) as (s5 & E & H1 & H2 & H3 & H4 & H5 & _).
  assert (List.length (procs s1) = List.length (procs s)) as HL.
  { unfold s1, removeListener, mark_exited, update_process. cbn. by rewrite !length_alter. }
  destruct (nextRender_dispatch_fresh s5 m' rest H1 (eq_trans H2 Hq) H3)
    as (G1 & G2 & G3 & G4 & G5 & G6).
  rewrite <- E, H4, HL in *.
  assert (sent_of (trace (cleanup a0 s1)) = sent_of (trace s) ++ [m']) as Hs.
  { rewrite G6, H5. unfold sent_of. rewrite !omap_app. cbn. by rewrite app_nil_r. }
  unfold alive in G3. cbn zeta. clearbody s1. generalize dependent (cleanup a0 s1).
  intros sc _ G1 G2 G3 G4 G5 _ Hs.
  destruct code; unfold call_callback, alive; cbn;
    rewrite ?sent_of_snoc, ?app_nil_r; repeat split; try done.
Qed.

(** Worker 0 exits with status 1 while the first request is in flight and the second waits. *)
Lemma exit_moves_queue_to_fresh_worker_witness :
  reachable sample_host sample_two
  /\ _currentRenderMsg sample_two = Some sample_msg
  /\ _compilerProcess sample_two = Some 0
  /\ _queue sample_two = [sample_msg_b]
  /\ _currentRenderMsg (step sample_host sample_two (WorkerExit 0 (Some 1%Z) None))
     = Some sample_msg_b.
Proof.
  assert (reachable sample_host sample_two) as Hr.
  { apply reachable_run; [apply reachable_init | vm_compute; tauto]. }
  assert (_currentRenderMsg sample_two = Some sample_msg) as Hc by (vm_compute; reflexivity).
  assert (_compilerProcess sample_two = Some 0) as Hp by (vm_compute; reflexivity).
  assert (_queue sample_two = [sample_msg_b]) as Hq by (vm_compute; reflexivity).
  split; [exact Hr|]. split; [exact Hc|]. split; [exact Hp|]. split; [exact Hq|].
  pose proof (exit_moves_queue_to_fresh_worker sample_host sample_two sample_msg 0
                sample_msg_b [] (Some 1%Z) None Hr Hc Hp Hq) as T.
  cbn zeta in T. exact (proj1 (proj2 (proj2 (proj2 T)))).
Defined.

(** X6.  When the worker emits ['error'] while a request is in
    flight and another waits, no process is forked: the waiting request
    is sent to the same worker, and it is sent before the callback of
    the failed request is called with the raw error. *)
Theorem error_keeps_worker_for_queue (h : Host) s m p m' rest err :
  reachable h s -> _currentRenderMsg s = Some m -> _compilerProcess s = Some p ->
  _queue s = m' :: rest ->
  let s' := step h s (WorkerError p err) in
  _compilerProcess s' = Some p
  /\ List.length (procs s') = List.length (procs s)
  /\ alive p s' = true
  /\ _currentRenderMsg s' = Some m'
  /\ _queue s' = rest
  /\ trace s' = trace s ++ [SlotCleared m; Sent p m'; Called m (RawError err) None].
Proof.
  intros Hr Hc Hp Hq. destruct (busy_handle h s m p Hr Hc Hp) as (t & Hb).
  assert (reachable h (step h s (WorkerError p err))) as Hr' by by apply reachable_step.
  pose proof (step_error_busy h _ s err Hb) as Es. cbn [childProcess renderMsg] in Es.
  cbn zeta. rewrite Es in *. clear Es.
  match goal with |- context [cleanup ?a ?x] => set (s1 := x) in *; set (a0 := a) in * end.
  destruct (cleanup_is_nextRender a0 s1) as (s5 & E & H1 & H2 & H3 & H4 & H5 & _).
  assert (List.length (procs s1) = List.length (procs s)) as HL.
  { unfold s1, removeListener, update_process. cbn. by rewrite !length_alter. }
  assert (_queue s5 = m' :: rest) as Hq5 by (rewrite H2; exact Hq).
  assert (_compilerProcess s5 = Some p) as Hp5 by (rewrite H3; exact Hp).
  destruct (nextRender_dispatch_same s5 m' rest p H1 Hq5 Hp5)
    as (G1 & G2 & G4 & G5 & G6).
  rewrite <- E, ?H4, ?HL, ?H5 in *.
  assert (trace s1 = trace s) as Ht by reflexivity. rewrite Ht in G6.
  assert (_compilerProcess (call_callback a0 (RawError err) None (cleanup a0 s1)) = Some p)
    as Hh' by exact G1.
  destruct (reachable_Inv h _ Hr') as [[Ha _ _ _] _].
  destruct (Ha p Hh') as (c & Hl & Hex).
  clearbody s1. generalize dependent (cleanup a0 s1).
  intros sc _ _ G1 G2 G4 G5 G6 _ _ Hl.
  unfold alive, call_callback in *; cbn in *. rewrite Hl, Hex, G6, <- !app_assoc.
  repeat split; done.
Qed.

(** Worker 0 reports [EPIPE] while the first request is in flight and the second waits. *)
Lemma error_keeps_worker_for_queue_witness :
  reachable sample_host sample_two
  /\ _currentRenderMsg sample_two = Some sample_msg
  /\ _compilerProcess sample_two = Some 0
  /\ _queue sample_two = [sample_msg_b]
  /\ _compilerProcess (step sample_host sample_two (WorkerError 0 "EPIPE")) = Some 0
  /\ _currentRenderMsg (step sample_host sample_two (WorkerError 0 "EPIPE"))
     = Some sample_msg_b.
Proof.
  assert (reachable sample_host sample_two) as Hr.
  { apply reachable_run; [apply reachable_init | vm_compute; tauto]. }
  assert (_currentRenderMsg sample_two = Some sample_msg) as Hc by (vm_compute; reflexivity).
  assert (_compilerProcess sample_two = Some 0) as Hp by (vm_compute; reflexivity).
  assert (_queue sample_two = [sample_msg_b]) as Hq by (vm_compute; reflexivity).
  split; [exact Hr|]. split; [exact Hc|]. split; [exact Hp|]. split; [exact Hq|].
  pose proof (error_keeps_worker_for_queue sample_host sample_two sample_msg 0
                sample_msg_b [] "EPIPE" Hr Hc Hp Hq) as T.
  cbn zeta in T. split; [exact (proj1 T)|exact (proj1 (proj2 (proj2 (proj2 T))))].
Defined.

(** X7.  When the worker exits with no request in flight, the
    handle is reset and nothing else is observable; the next [render]
    forks a new process and its request is in flight on it at once. *)
Theorem idle_exit_then_render_forks (h : Host) s p code signal
    file outFile inc img style comments smap compiler cb :
  reachable h s -> _currentRenderMsg s = None -> alive p s = true ->
  let s1 := step h s (WorkerExit p code signal) in
  let s2 := step h s1 (Render file outFile inc img style comments smap compiler cb) in
  _compilerProcess s1 = None
  /\ trace s1 = trace s
  /\ _compilerProcess s2 = Some (List.length (procs s))
  /\ p < List.length (procs s)
  /\ alive (List.length (procs s)) s2 = true
  /\ exists m, _currentRenderMsg s2 = Some m /\ rid m = next_rid s /\ _file m = file
       /\ _callback m = RenderCallback file outFile (HostCallback cb).
Proof.
  intros Hr Hc Ha. destruct (reachable_Inv h s Hr) as [HS _].
  pose proof Ha as Ha'. unfold alive in Ha'.
  destruct (procs s !! p) as [c|] eqn:Hl; [|done]. apply negb_true_iff in Ha'.
  assert (p < List.length (procs s)) as Hlt by by eapply lookup_lt_Some.
  destruct (InvS_on_exit s p c HS Hl Ha') as [Hp [[_ Hx]|(a & [Hb _ _ _] & _)]];
    [|congruence].
  destruct HS as [_ _ H3 _]. destruct (H3 Hc) as (Hq & _).
  assert (step h s (WorkerExit p code signal)
          = set_compilerProcess None (mark_exited p s)) as E1
    by (simpl; by apply (emit_exit_idle s p c)).
  cbn zeta. rewrite E1. split; [done|]. split; [done|].
  cbn [step]. unfold render.
  match goal with |- context [set_queue (_ ++ [?m0])] => set (msg := m0) in * end.
  match goal with |- context [_nextRender ?x] => set (s0 := x) end.
  assert (_queue s0 = msg :: []) as Hq0.
  { unfold s0. cbn. by rewrite Hq. }
  assert (List.length (procs s0) = List.length (procs s)) as HL.
  { unfold s0, mark_exited, update_process. cbn. by rewrite length_alter. }
  destruct (nextRender_dispatch_fresh s0 msg [] Hc Hq0 eq_refl)
    as (G1 & G2 & G3 & G4 & G5 & G6).
  rewrite HL in *. do 3 (split; [done|]). exists msg. by rewrite G4.
Qed.

(** The idle worker 0 exits with status 0. *)
Lemma idle_exit_then_render_forks_witness :
  reachable sample_host sample_idle
  /\ _currentRenderMsg sample_idle = None
  /\ alive 0 sample_idle = true
  /\ _compilerProcess (step sample_host sample_idle (WorkerExit 0 (Some 0%Z) None)) = None
  /\ trace (step sample_host sample_idle (WorkerExit 0 (Some 0%Z) None))
     = trace sample_idle.
Proof.
  assert (reachable sample_host sample_idle) as Hr.
  { apply reachable_run; [apply reachable_init | vm_compute; tauto]. }
  assert (_currentRenderMsg sample_idle = None) as Hc by (vm_compute; reflexivity).
  assert (alive 0 sample_idle = true) as Ha by (vm_compute; reflexivity).
  split; [exact Hr|]. split; [exact Hc|]. split; [exact Ha|].
  pose proof (idle_exit_then_render_forks sample_host sample_idle 0 (Some 0%Z) None
                "/proj/src/b.scss" "/proj/out/b.css" NoPaths NoPaths "nested" false "true"
                "libsass" 2 Hr Hc Ha) as T.
  cbn zeta in T. split; [exact (proj1 T)|exact (proj1 (proj2 T))].
Defined.

(** ** Messages that resolve nothing *)

Lemma detached_ignores_messages h s p :
  (forall c, procs s !! p = Some c -> on_message c = []) ->
  forall msg, step h s (WorkerMessage p msg) = s.
Proof.
  intros H msg. simpl. destruct (procs s !! p) as [c|] eqn:Hl.
  - apply (emit_message_none s p c); [exact Hl|]. by apply H.
  - unfold emit. by rewrite Hl.
Qed.

Lemma message_listener_taken s a p c :
  procs s !! p = Some c ->
  on_message c = [{| once := true; fn := MessageListener a |}] ->
  forall c', procs (removeListener EvMessage (MessageListener a) p s) !! p = Some c' ->
    on_message c' = [].
Proof.
  intros Hl Hm c'. unfold removeListener.
  rewrite lookup_update_process, decide_True, Hl by done. simpl. intros [= <-].
  simpl. rewrite Hm. by apply remove_last_single.
Qed.

(** X8.  A message with [css] whose [map] is not JSON text:
    [cleanup] has run when [JSON.parse] throws, so the request leaves
    the slot, its callback is never called for this message, and the
    last thing observed is the uncaught [SyntaxError]. *)
Theorem css_with_bad_map_drops_request (h : Host) s m p c msg :
  reachable h s -> _currentRenderMsg s = Some m -> _compilerProcess s = Some p ->
  procs s !! p = Some c -> on_message c <> [] ->
  truthy (msg_log msg) = false -> truthy (msg_css msg) = true -> msg_map msg = None ->
  let s' := step h s (WorkerMessage p msg) in
  calls_of (trace s') = calls_of (trace s)
  /\ cleared_of (trace s') = cleared_of (trace s) ++ [m]
  /\ last (trace s') = Some (Uncaught SyntaxError)
  /\ _currentRenderMsg s' <> Some m.
Proof.
  intros Hr Hc Hp Hl Hne Hlog Hcss Hmap.
  destruct (busy_handle h s m p Hr Hc Hp) as (t & Hb).
  assert (reachable h (step h s (WorkerMessage p msg))) as Hr' by by apply reachable_step.
  pose proof (step_message_busy h _ s c msg Hb Hl Hne) as Es.
  cbn [childProcess renderMsg] in Es. unfold messageListener in Es.
  rewrite Hlog, Hcss, Hmap in Es. cbn zeta. rewrite Es in *. clear Es.
  match goal with |- context [cleanup ?a ?x] => set (s1 := x) in *; set (a0 := a) in * end.
  pose proof (cleanup_calls a0 s1) as Hcalls. pose proof (cleanup_cleared a0 s1) as Hcl.
  change (trace s1) with (trace s) in *. change (renderMsg a0) with m in *.
  destruct (reachable_Inv h _ Hr') as [_ [H1 H2 _ _]].
  clearbody s1. generalize dependent (cleanup a0 s1). intros sc Hr' Hcalls Hcl H1 H2.
  cbn in *. rewrite calls_of_snoc, cleared_of_snoc, last_snoc, !app_nil_r in *.
  do 3 (split; [done|]).
  intros Hcur. unfold in_flight in H2. cbn in H2. rewrite Hcur, sent_of_snoc, app_nil_r in H2.
  pose proof (NoDup_seq 0 (next_rid sc)) as Hn. rewrite <- H1 in Hn.
  rewrite sent_of_snoc, app_nil_r in Hn.
  apply NoDup_app in Hn as [Hn _]. rewrite H2, Hcl, !map_app in Hn.
  apply NoDup_app in Hn as (_ & Hd & _). apply (Hd (rid m)); simpl.
  - apply elem_of_app. right. by left.
  - by left.
Qed.

(** The worker of the sample request answers with [css] and a [map] that is not JSON text. *)
Lemma css_with_bad_map_drops_request_witness :
  reachable sample_host sample_state
  /\ _currentRenderMsg sample_state = Some sample_msg
  /\ procs sample_state !! 0 = Some sample_worker
  /\ calls_of (trace (step sample_host sample_state (WorkerMessage 0 sample_bad_map)))
     = calls_of (trace sample_state)
  /\ last (trace (step sample_host sample_state (WorkerMessage 0 sample_bad_map)))
     = Some (Uncaught SyntaxError).
Proof.
  assert (reachable sample_host sample_state) as Hr.
  { apply reachable_step; [apply reachable_init | exact I]. }
  assert (_currentRenderMsg sample_state = Some sample_msg) as Hc by (vm_compute; reflexivity).
  assert (_compilerProcess sample_state = Some 0) as Hp by (vm_compute; reflexivity).
  assert (procs sample_state !! 0 = Some sample_worker) as Hl by (vm_compute; reflexivity).
  assert (on_message sample_worker <> []) as Hm by discriminate.
  split; [exact Hr|]. split; [exact Hc|]. split; [exact Hl|].
  pose proof (css_with_bad_map_drops_request sample_host sample_state sample_msg 0
                sample_worker sample_bad_map Hr Hc Hp Hl Hm eq_refl eq_refl eq_refl) as T.
  cbn zeta in T. split; [exact (proj1 T)|exact (proj1 (proj2 (proj2 T)))].
Defined.

(** X9.  A message with no [log], no [css] and no [error]
    consumes the once-listener and does nothing else: the request stays
    in flight with its timer, nothing is observed, and every later
    message of the worker is ignored. *)
Theorem unrecognised_message_stalls_request (h : Host) s m p c msg :
  reachable h s -> _currentRenderMsg s = Some m -> _compilerProcess s = Some p ->
  procs s !! p = Some c -> on_message c <> [] ->
  truthy (msg_log msg) = false -> truthy (msg_css msg) = false -> msg_error msg = None ->
  let s' := step h s (WorkerMessage p msg) in
  _currentRenderMsg s' = Some m
  /\ trace s' = trace s
  /\ timers s' = timers s
  /\ (forall c', procs s' !! p = Some c' -> on_message c' = [])
  /\ (forall msg', step h s' (WorkerMessage p msg') = s').
Proof.
  intros Hr Hc Hp Hl Hne Hlog Hcss Herr.
  destruct (busy_handle h s m p Hr Hc Hp) as (t & Hb).
  pose proof (step_message_busy h _ s c msg Hb Hl Hne) as Es.
  cbn [childProcess renderMsg] in Es. unfold messageListener in Es.
  rewrite Hlog, Hcss, Herr in Es. cbn zeta. rewrite Es. clear Es.
  pose proof Hb as [_ _ (c0 & Hl0 & _ & (Hm & _) & _) _]. cbn [childProcess] in Hl0.
  assert (c0 = c) as -> by congruence. destruct Hm as [Hm|Hm]; [done|].
  pose proof (message_listener_taken s _ p c Hl Hm) as Hgone.
  do 3 (split; [done|]). split; [exact Hgone|].
  by apply detached_ignores_messages.
Qed.

(** The worker of the sample request sends an empty object, then the result. *)
Lemma unrecognised_message_stalls_request_witness :
  reachable sample_host sample_state
  /\ _currentRenderMsg sample_state = Some sample_msg
  /\ procs sample_state !! 0 = Some sample_worker
  /\ _currentRenderMsg (step sample_host sample_state (WorkerMessage 0 sample_empty))
     = Some sample_msg
  /\ step sample_host (step sample_host sample_state (WorkerMessage 0 sample_empty))
       (WorkerMessage 0 sample_css)
     = step sample_host sample_state (WorkerMessage 0 sample_empty).
Proof.
  assert (reachable sample_host sample_state) as Hr.
  { apply reachable_step; [apply reachable_init | exact I]. }
  assert (_currentRenderMsg sample_state = Some sample_msg) as Hc by (vm_compute; reflexivity).
  assert (_compilerProcess sample_state = Some 0) as Hp by (vm_compute; reflexivity).
  assert (procs sample_state !! 0 = Some sample_worker) as Hl by (vm_compute; reflexivity).
  assert (on_message sample_worker <> []) as Hm by discriminate.
  split; [exact Hr|]. split; [exact Hc|]. split; [exact Hl|].
  pose proof (unrecognised_message_stalls_request sample_host sample_state sample_msg 0
                sample_worker sample_empty Hr Hc Hp Hl Hm eq_refl eq_refl eq_refl) as T.
  cbn zeta in T. split; [exact (proj1 T)|].
  exact (proj2 (proj2 (proj2 (proj2 T))) sample_css).
Defined.

(** ** What is left between two requests *)

(** X10.  Whenever no request is in flight, the queue is empty, no
    timer is pending, no process has a message or error listener left,
    and every request sent has been cleared. *)
Theorem idle_leaves_nothing_behind (h : Host) s :
  reachable h s -> _currentRenderMsg s = None ->
  _queue s = [] /\ timers s = ∅
  /\ (forall p c, procs s !! p = Some c -> on_message c = [] /\ on_error c = [])
  /\ sent_of (trace s) = cleared_of (trace s).
Proof.
  intros Hr Hc. destruct (reachable_Inv h s Hr) as [[H1 H2 H3 _] [_ Hf _ _]].
  destruct (H3 Hc) as (Hq & Ht & Hi). do 2 (split; [done|]). split.
  - intros p c Hl. destruct (decide (_compilerProcess s = Some p)) as [Hp|Hp].
    + by destruct (Hi p c Hp Hl) as (? & ? & _).
    + by destruct (H2 p c Hl Hp) as (_ & ? & ?).
  - unfold in_flight in Hf. by rewrite Hc, app_nil_r in Hf.
Qed.

(** The sample request, completed. *)
Lemma idle_leaves_nothing_behind_witness :
  reachable sample_host sample_idle
  /\ _currentRenderMsg sample_idle = None
  /\ _queue sample_idle = [] /\ timers sample_idle = ∅
  /\ sent_of (trace sample_idle) = cleared_of (trace sample_idle).
Proof.
  assert (reachable sample_host sample_idle) as Hr.
  { apply reachable_run; [apply reachable_init | vm_compute; tauto]. }
  assert (_currentRenderMsg sample_idle = None) as Hc by (vm_compute; reflexivity).
  split; [exact Hr|]. split; [exact Hc|].
  pose proof (idle_leaves_nothing_behind sample_host sample_idle Hr Hc) as T.
  split; [exact (proj1 T)|]. split; [exact (proj1 (proj2 T))|].
  exact (proj2 (proj2 (proj2 T))).
Defined.

(** X11.  In every reachable state at most one timer is pending,
    every process has at most one message listener and at most one
    error listener, and a process other than the current worker has
    none. *)
Theorem listeners_and_timers_bounded (h : Host) s :
  reachable h s ->
  size (timers s) <= 1
  /\ forall p c, procs s !! p = Some c ->
       List.length (on_message c) <= 1 /\ List.length (on_error c) <= 1
       /\ (_compilerProcess s <> Some p -> on_message c = [] /\ on_error c = []).
Proof.
  intros Hr. destruct (reachable_Inv h s Hr) as [HS _].
  destruct (_currentRenderMsg s) as [m|] eqn:Hc.
  - destruct (InvS_busy s m HS Hc) as (p0 & t & [_ Hh (c0 & Hl0 & _ & (Hm & He & _) & Ht) Ho]).
    cbn [childProcess timeout] in *. split.
    + destruct Ht as [-> | [-> _]]; [rewrite map_size_singleton; lia | rewrite map_size_empty; lia].
    + intros p c Hl. destruct (decide (p = p0)) as [->|Hne].
      * assert (c0 = c) as -> by congruence. rewrite He.
        split; [destruct Hm as [->| ->]; simpl; lia|]. split; [simpl; lia|]. congruence.
      * destruct (Ho p c Hl Hne) as (_ & -> & ->). simpl.
        split; [lia|]. split; [lia|]. done.
  - destruct HS as [_ H2 H3 _]. destruct (H3 Hc) as (_ & Ht & Hi). split.
    + rewrite Ht, map_size_empty. lia.
    + intros p c Hl. destruct (decide (_compilerProcess s = Some p)) as [Hp|Hp].
      * destruct (Hi p c Hp Hl) as (-> & -> & _). simpl.
        split; [lia|]. split; [lia|]. done.
      * destruct (H2 p c Hl Hp) as (_ & -> & ->). simpl.
        split; [lia|]. split; [lia|]. done.
Qed.

(** One request in flight, one in the queue. *)
Lemma listeners_and_timers_bounded_witness :
  reachable sample_host sample_two /\ size (timers sample_two) <= 1.
Proof.
  assert (reachable sample_host sample_two) as Hr.
  { apply reachable_run; [apply reachable_init | vm_compute; tauto]. }
  split; [exact Hr|].
  exact (proj1 (listeners_and_timers_bounded sample_host sample_two Hr)).
Defined.

(** X12.  The handler of the node process's ['exit'] event sends
    the current worker its signal and changes nothing of the
    dispatcher. *)
Theorem node_exit_kills_worker (h : Host) s p :
  reachable h s -> _compilerProcess s = Some p ->
  let s' := step h s NodeExit in
  trace s' = trace s ++ [Kill p]
  /\ (exists c, procs s' !! p = Some c /\ killed c = true /\ exited c = false)
  /\ _compilerProcess s' = Some p
  /\ _currentRenderMsg s' = _currentRenderMsg s
  /\ _queue s' = _queue s
  /\ timers s' = timers s.
Proof.
  intros Hr Hp. destruct (reachable_Inv h s Hr) as [[H1 _ _ _] _].
  destruct (H1 p Hp) as (c & Hl & Hex).
  cbn. unfold on_process_exit, kill, alive. rewrite Hp, Hl, Hex. cbn.
  rewrite list_lookup_alter_eq, Hl. cbn. split; [done|]. split; [|done].
  eexists. split; [reflexivity|]. by split.
Qed.

(** Node exits while worker 0 is idle. *)
Lemma node_exit_kills_worker_witness :
  reachable sample_host sample_idle
  /\ _compilerProcess sample_idle = Some 0
  /\ trace (step sample_host sample_idle NodeExit) = trace sample_idle ++ [Kill 0].
Proof.
  assert (reachable sample_host sample_idle) as Hr.
  { apply reachable_run; [apply reachable_init | vm_compute; tauto]. }
  assert (_compilerProcess sample_idle = Some 0) as Hp by (vm_compute; reflexivity).
  split; [exact Hr|]. split; [exact Hp|].
  pose proof (node_exit_kills_worker sample_host sample_idle 0 Hr Hp) as T.
  cbn zeta in T. exact (proj1 T).
Defined.

(** ** Workers are forked for a request only *)

Lemma Spawned_frame s s' :
  List.length (procs s') = List.length (procs s) ->
  sent_of (trace s') = sent_of (trace s) ->
  Spawned s -> Spawned s'.
Proof. unfold Spawned. intros -> ->. done. Qed.

Lemma nextRender_Spawned s : Spawned s -> Spawned (_nextRender s).
Proof.
  unfold Spawned. intros H. rewrite nextRender_sent, length_app.
  unfold _nextRender, dispatched, _createChildProcess.
  destruct (_currentRenderMsg s), (_queue s); simpl; try lia.
  destruct (_compilerProcess s); cbn; rewrite !length_alter, ?length_app; simpl; lia.
Qed.

Lemma cleanup_Spawned a s : Spawned s -> Spawned (cleanup a s).
Proof.
  intros H. destruct (cleanup_is_nextRender a s) as (s5 & -> & _ & _ & _ & HL & Ht & _).
  apply nextRender_Spawned. unfold Spawned. rewrite HL, Ht, sent_of_snoc, app_nil_r. exact H.
Qed.

Lemma call_callback_Spawned a errors result s :
  Spawned s -> Spawned (call_callback a errors result s).
Proof.
  apply Spawned_frame; [done|]. unfold call_callback. cbn.
  by rewrite sent_of_snoc, app_nil_r.
Qed.

Lemma obs_Spawned o s :
  match o with Sent _ _ => False | _ => True end -> Spawned s -> Spawned (emit_obs o s).
Proof.
  intros Ho. apply Spawned_frame; [done|]. cbn. rewrite sent_of_snoc.
  destruct o; try done; apply app_nil_r.
Qed.

Lemma update_process_Spawned p f s : Spawned s -> Spawned (update_process p f s).
Proof. apply Spawned_frame; [|done]. unfold update_process. cbn. apply length_alter. Qed.

Lemma step_Spawned h s i : Inv s -> admissible s i -> Spawned s -> Spawned (step h s i).
Proof.
  intros [HS _] Ha H.
  destruct i as [f o inc img style comments smap compiler cb
               |f o mem inc img style comments smap compiler cb
               | | | |p m|p err|p code signal|t|files|];
    cbn [step].
  - unfold render. apply nextRender_Spawned. revert H. by apply Spawned_frame.
  - unfold preview. cbn [fs set_fs set_tmpFolders]. destruct (copySync _ _ _ _).
    + unfold render. apply nextRender_Spawned. revert H. by apply Spawned_frame.
    + apply obs_Spawned; [done|]. revert H. by apply Spawned_frame.
  - revert H. by apply Spawned_frame.
  - apply obs_Spawned; [done|]. revert H. by apply Spawned_frame.
  - apply obs_Spawned; [done|]. revert H. by apply Spawned_frame.
  - destruct (procs s !! p) as [c|] eqn:Hl; [|unfold emit; by rewrite Hl].
    destruct (InvS_on_message s p c HS Hl) as [Hm|(a & Hb & <- & Hm)].
    { by rewrite (emit_message_none s _ c). }
    rewrite (emit_message_one s a c) by done. unfold messageListener.
    pose proof (update_process_Spawned (childProcess a)
      (fun c => set_listeners EvMessage (remove_last (MessageListener a)
                  (get_listeners EvMessage c)) c) s H) as H1.
    fold (removeListener EvMessage (MessageListener a) (childProcess a) s) in H1.
    destruct (truthy (msg_log m)); [by apply obs_Spawned|].
    destruct (truthy (msg_css m)).
    { destruct (msg_map m).
      - by apply call_callback_Spawned, cleanup_Spawned.
      - apply obs_Spawned; [done|]. by apply cleanup_Spawned. }
    destruct (msg_error m); [|done]. by apply call_callback_Spawned, cleanup_Spawned.
  - destruct (procs s !! p) as [c|] eqn:Hl; [|unfold emit; by rewrite Hl].
    destruct (InvS_on_error s p c HS Hl) as [Hm|(a & Hb & <- & Hm)].
    { rewrite (emit_error_none s _ c) by done. by apply obs_Spawned. }
    rewrite (emit_error_one s a c) by done.
    apply call_callback_Spawned, cleanup_Spawned. by apply update_process_Spawned.
  - simpl in Ha. unfold alive in Ha. destruct (procs s !! p) as [c|] eqn:Hl; [|done].
    apply negb_true_iff in Ha.
    destruct (InvS_on_exit s p c HS Hl Ha) as [Hp [[Hc Hx]|(a & Hb & <- & Hx)]].
    + rewrite (emit_exit_idle s p c) by done. revert H. apply Spawned_frame; [|done].
      unfold mark_exited, update_process. cbn. apply length_alter.
    + rewrite (emit_exit_busy s a c) by done. cbn zeta.
      assert (Spawned (cleanup a (removeListener EvExit (ExitListener a) (childProcess a)
                (set_compilerProcess None (mark_exited (childProcess a) s))))) as H1.
      { apply cleanup_Spawned, update_process_Spawned.
        revert H. apply Spawned_frame; [|done].
        unfold mark_exited, update_process. cbn. apply length_alter. }
      destruct code; [done|]. by apply call_callback_Spawned.
  - destruct (timers s !! t); [|done]. unfold kill.
    destruct (alive _ _); [|revert H; by apply Spawned_frame].
    apply obs_Spawned; [done|]. apply update_process_Spawned. revert H. by apply Spawned_frame.
  - revert H. by apply Spawned_frame.
  - unfold on_process_exit. destruct (_compilerProcess s); [|done]. unfold kill.
    destruct (alive _ _); [|done]. apply obs_Spawned; [done|]. by apply update_process_Spawned.
Qed.

(** X13.  Processes are forked for a request only: there are never
    more processes than requests sent, and before the first request is
    sent there is no process and no handle. *)
Theorem workers_forked_on_demand (h : Host) s :
  reachable h s ->
  List.length (procs s) <= List.length (sent_of (trace s))
  /\ (sent_of (trace s) = [] -> procs s = [] /\ _compilerProcess s = None).
Proof.
  intros Hr. assert (Spawned s) as H.
  { induction Hr as [|s i Hr IH Ha]; [unfold Spawned; simpl; lia|].
    apply step_Spawned; [by apply (reachable_Inv h)|done|done]. }
  split; [exact H|]. intros Hs. unfold Spawned in H. rewrite Hs in H. simpl in H.
  destruct (procs s) eqn:Hp; [|simpl in H; lia]. split; [done|].
  destruct (reachable_Inv h s Hr) as [[H1 _ _ _] _].
  destruct (_compilerProcess s) as [p|]; [|done].
  destruct (H1 p eq_refl) as (c & Hl & _). rewrite Hp in Hl. by rewrite lookup_nil in Hl.
Qed.

(** Two requests accepted, one worker forked. *)
Lemma workers_forked_on_demand_witness :
  reachable sample_host sample_two
  /\ List.length (procs sample_two) <= List.length (sent_of (trace sample_two)).
Proof.
  assert (reachable sample_host sample_two) as Hr.
  { apply reachable_run; [apply reachable_init | vm_compute; tauto]. }
  split; [exact Hr|].
  exact (proj1 (workers_forked_on_demand sample_host sample_two Hr)).
Defined.

(** ** The requests the worker is given *)

Lemma nextRender_all_requests s : all_requests (_nextRender s) = all_requests s.
Proof.
  unfold all_requests. rewrite nextRender_sent. unfold dispatched.
  destruct (_currentRenderMsg s) as [m|] eqn:Hc.
  { rewrite (nextRender_busy s m Hc). cbn. by rewrite app_nil_r. }
  destruct (_queue s) as [|m rest] eqn:Hq.
  { unfold _nextRender. rewrite Hc, Hq. cbn. by rewrite Hq, !app_nil_r. }
  destruct (_compilerProcess s) as [p|] eqn:Hp.
  - destruct (nextRender_dispatch_same s m rest p Hc Hq Hp) as (_ & _ & _ & -> & _).
    by rewrite <- app_assoc.
  - destruct (nextRender_dispatch_fresh s m rest Hc Hq Hp) as (_ & _ & _ & _ & -> & _).
    by rewrite <- app_assoc.
Qed.

Lemma cleanup_all_requests a s : all_requests (cleanup a s) = all_requests s.
Proof.
  destruct (cleanup_is_nextRender a s) as (s5 & -> & _ & Hq & _ & _ & Ht & _).
  rewrite nextRender_all_requests. unfold all_requests.
  by rewrite Hq, Ht, sent_of_snoc, app_nil_r.
Qed.

Lemma all_requests_frame s s' :
  sent_of (trace s') = sent_of (trace s) -> _queue s' = _queue s ->
  all_requests s' = all_requests s.
Proof. unfold all_requests. by intros -> ->. Qed.

Lemma obs_all_requests o s :
  match o with Sent _ _ => False | _ => True end ->
  all_requests (emit_obs o s) = all_requests s.
Proof.
  intros Ho. apply all_requests_frame; [|done]. cbn. rewrite sent_of_snoc.
  destruct o; try done; apply app_nil_r.
Qed.

Lemma call_callback_all_requests a errors result s :
  all_requests (call_callback a errors result s) = all_requests s.
Proof. by apply obs_all_requests. Qed.

Lemma render_all_requests h f o inc img style comments smap compiler cb s :
  exists m,
    all_requests (render h f o inc img style comments smap compiler cb s)
    = all_requests s ++ [m]
    /\ rid m = next_rid s /\ _file m = f /\ outFile m = o
    /\ file m = path.resolve (cwd h) [f]
    /\ includePaths m
       = _toAbsolutePaths h (path.resolve (cwd h) [path.dirname f] +:+ path.sep) inc None
    /\ imagePaths m
       = _toAbsolutePaths h (path.resolve (cwd h) [path.dirname f] +:+ path.sep) img None
    /\ outputStyle m = style /\ sourceComments m = comments /\ sourceMap m = smap
    /\ _compiler m = compiler
    /\ _callback m = RenderCallback f o cb.
Proof.
  eexists. unfold render. rewrite nextRender_all_requests. unfold all_requests. cbn.
  rewrite app_assoc. split; [reflexivity|]. cbn. by repeat split.
Qed.

(** Apart from [render] and [preview], nothing adds a request, and no
    event takes one away. *)
Lemma step_all_requests h s i :
  Inv s -> admissible s i ->
  match i with
  | Render _ _ _ _ _ _ _ _ _ | Preview _ _ _ _ _ _ _ _ _ _ => True
  | _ => all_requests (step h s i) = all_requests s
  end.
Proof.
  intros [HS _] Ha.
  destruct i as [f o inc img style comments smap compiler cb
               |f o mem inc img style comments smap compiler cb
               | | | |p m|p err|p code signal|t|files|];
    cbn [step]; try done.
  - unfold mkdirp. by rewrite obs_all_requests.
  - unfold setTempDir, mkdirp. by rewrite obs_all_requests.
  - destruct (procs s !! p) as [c|] eqn:Hl; [|unfold emit; by rewrite Hl].
    destruct (InvS_on_message s p c HS Hl) as [Hm|(a & Hb & <- & Hm)].
    { by rewrite (emit_message_none s _ c). }
    rewrite (emit_message_one s a c) by done. unfold messageListener.
    assert (all_requests (removeListener EvMessage (MessageListener a) (childProcess a) s)
            = all_requests s) as H1 by done.
    destruct (truthy (msg_log m)); [by rewrite obs_all_requests|].
    destruct (truthy (msg_css m)).
    { destruct (msg_map m).
      - by rewrite call_callback_all_requests, cleanup_all_requests.
      - by rewrite obs_all_requests, cleanup_all_requests. }
    destruct (msg_error m); [|done].
    by rewrite call_callback_all_requests, cleanup_all_requests.
  - destruct (procs s !! p) as [c|] eqn:Hl; [|unfold emit; by rewrite Hl].
    destruct (InvS_on_error s p c HS Hl) as [Hm|(a & Hb & <- & Hm)].
    { rewrite (emit_error_none s _ c) by done. by rewrite obs_all_requests. }
    rewrite (emit_error_one s a c) by done.
    by rewrite call_callback_all_requests, cleanup_all_requests.
  - simpl in Ha. unfold alive in Ha. destruct (procs s !! p) as [c|] eqn:Hl; [|done].
    apply negb_true_iff in Ha.
    destruct (InvS_on_exit s p c HS Hl Ha) as [Hp [[Hc Hx]|(a & Hb & <- & Hx)]].
    + by rewrite (emit_exit_idle s p c).
    + rewrite (emit_exit_busy s a c) by done. cbn zeta.
      destruct code; rewrite ?call_callback_all_requests, cleanup_all_requests; done.
  - destruct (timers s !! t); [|done]. unfold kill.
    destruct (alive _ _); [|done]. by rewrite obs_all_requests.
  - unfold on_process_exit. destruct (_compilerProcess s); [|done]. unfold kill.
    destruct (alive _ _); [|done]. by rewrite obs_all_requests.
Qed.

Lemma toAbsolutePaths_Forall h file pathsArray tmpRoot :
  starts_with_sep (cwd h) = true ->
  Forall (fun q => starts_with_sep q = true) (_toAbsolutePaths h file pathsArray tmpRoot).
Proof.
  intros Hc. unfold _toAbsolutePaths. apply Forall_flat_map, Forall_forall. intros p _.
  destruct (_ && _); repeat (constructor; [by apply resolve_absolute|]); constructor.
Qed.


Lemma preview_all_requests h f o mem inc img style comments smap compiler cb s files :
  copySync h f (pv_tmpFile (preview_env h f o s))
    (removeSync (pv_tmpDirPath (preview_env h f o s)) (fs s)) = Some files ->
  exists m,
    all_requests (preview h f o mem inc img style comments smap compiler cb s)
    = all_requests s ++ [m]
    /\ rid m = next_rid s
    /\ _file m = pv_tmpFile (preview_env h f o s)
    /\ file m = path.resolve (cwd h) [pv_tmpFile (preview_env h f o s)]
    /\ outFile m = pv_tmpOutFolder (preview_env h f o s) +:+ path.sep +:+ path.basename o
    /\ Forall (fun q => starts_with_sep (cwd h) = true -> starts_with_sep q = true)
         (includePaths m ++ imagePaths m)
    /\ _callback m
       = RenderCallback (pv_tmpFile (preview_env h f o s))
           (pv_tmpOutFolder (preview_env h f o s) +:+ path.sep +:+ path.basename o)
           (PreviewCallback (preview_env h f o s) cb).
Proof.
  intros Hcp. unfold preview. cbn [fs set_fs set_tmpFolders]. rewrite Hcp.
  match goal with |- context [render h ?a ?b ?c ?d ?e ?g ?i ?j ?k ?st] =>
    destruct (render_all_requests h a b c d e g i j k st)
      as (m & E & Hr & Hf & Ho & Hfile & Hinc & Himg & _ & _ & _ & _ & Hcb)
  end.
  exists m. split; [exact E|]. split; [exact Hr|]. split; [exact Hf|].
  split; [exact Hfile|]. split; [exact Ho|]. split; [|exact Hcb].
  rewrite Hinc, Himg. apply Forall_app. split; apply Forall_forall; intros q Hq Hc;
    (eapply Forall_forall in Hq; [exact Hq|]; by apply toAbsolutePaths_Forall).
Qed.

Lemma step_built h s i :
  Inv s -> admissible s i -> Forall (built h) (all_requests s) ->
  Forall (built h) (all_requests (step h s i)).
Proof.
  intros HI Ha H. pose proof (step_all_requests h s i HI Ha) as E.
  destruct i as [f o inc img style comments smap compiler cb
               |f o mem inc img style comments smap compiler cb
               | | | |p m|p err|p code signal|t|files|];
    try (by rewrite E).
  - cbn [step].
    destruct (render_all_requests h f o inc img style comments smap compiler
                (HostCallback cb) s)
      as (m & -> & _ & Hf & Ho & Hfile & _ & _ & _ & _ & _ & _ & Hcb).
    apply Forall_app. split; [exact H|]. constructor; [|constructor]. split.
    + by rewrite Hfile, Hf.
    + rewrite Hf, Ho. eauto.
  - cbn [step].
    destruct (copySync h f (pv_tmpFile (preview_env h f o s))
                (removeSync (pv_tmpDirPath (preview_env h f o s)) (fs s)))
      as [files|] eqn:Hcp.
    + destruct (preview_all_requests h f o mem inc img style comments smap compiler
                  (HostCallback cb) s files Hcp)
        as (m & -> & _ & Hf & Hfile & Ho & _ & Hcb).
      apply Forall_app. split; [exact H|]. constructor; [|constructor]. split.
      * by rewrite Hfile, Hf.
      * rewrite Hf, Ho. eauto 10.
    + unfold preview. cbn [fs set_fs set_tmpFolders]. rewrite Hcp.
      by rewrite obs_all_requests.
Qed.

Lemma reachable_built h s : reachable h s -> Forall (built h) (all_requests s).
Proof.
  induction 1 as [|s i Hr IH Ha]; [constructor|].
  apply step_built; [by apply (reachable_Inv h)|done|done].
Qed.

Lemma step_absolute h s i :
  starts_with_sep (cwd h) = true ->
  Inv s -> admissible s i -> Forall absolute_paths (all_requests s) ->
  Forall absolute_paths (all_requests (step h s i)).
Proof.
  intros Hc HI Ha H. pose proof (step_all_requests h s i HI Ha) as E.
  destruct i as [f o inc img style comments smap compiler cb
               |f o mem inc img style comments smap compiler cb
               | | | |p m|p err|p code signal|t|files|];
    try (by rewrite E).
  - cbn [step].
    destruct (render_all_requests h f o inc img style comments smap compiler
                (HostCallback cb) s)
      as (m & -> & _ & _ & _ & Hfile & Hinc & Himg & _).
    apply Forall_app. split; [exact H|]. constructor; [|constructor].
    split; [rewrite Hfile; by apply resolve_absolute|].
    rewrite Hinc, Himg. split; by apply toAbsolutePaths_Forall.
  - cbn [step].
    destruct (copySync h f (pv_tmpFile (preview_env h f o s))
                (removeSync (pv_tmpDirPath (preview_env h f o s)) (fs s)))
      as [files|] eqn:Hcp.
    + destruct (preview_all_requests h f o mem inc img style comments smap compiler
                  (HostCallback cb) s files Hcp)
        as (m & -> & _ & _ & Hfile & _ & Hp & _).
      apply Forall_app. split; [exact H|]. constructor; [|constructor].
      split; [rewrite Hfile; by apply resolve_absolute|].
      apply Forall_app. eapply Forall_impl; [exact Hp|]. cbn. auto.
    + unfold preview. cbn [fs set_fs set_tmpFolders]. rewrite Hcp.
      by rewrite obs_all_requests.
Qed.

(** X14.  Every request the dispatcher holds or has sent was put
    together by [render]: its [file] is the resolved [_file], its
    completion function is [render]'s wrapper for that file and output
    file, around the host's callback directly or around the wrapper of a
    [preview] of that file.  When the working directory of the node
    process is absolute, the entry file and every include and image path
    it names are absolute. *)
Theorem requests_built_by_render (h : Host) s :
  reachable h s ->
  Forall (fun m => built h m /\ (starts_with_sep (cwd h) = true -> absolute_paths m))
    (sent_of (trace s) ++ _queue s).
Proof.
  intros Hr. apply Forall_and. split; [by apply reachable_built|].
  destruct (starts_with_sep (cwd h)) eqn:Hc.
  - apply (Forall_impl absolute_paths); [|by intros m Hm _].
    fold (all_requests s). induction Hr as [|s i Hr IH Ha]; [constructor|].
    apply step_absolute; [done|by apply (reachable_Inv h)|done|done].
  - apply Forall_forall. intros m _ Hf. discriminate.
Qed.

(** The request of the sample preview. *)
Lemma requests_built_by_render_witness :
  reachable sample_host sample_staged
  /\ Forall (fun m => built sample_host m
                      /\ (starts_with_sep (cwd sample_host) = true -> absolute_paths m))
       (sent_of (trace sample_staged) ++ _queue sample_staged).
Proof.
  assert (reachable sample_host sample_staged) as Hr.
  { apply reachable_step; [|exact I].
    apply reachable_step; [apply reachable_init | exact I]. }
  split; [exact Hr|].
  exact (requests_built_by_render sample_host sample_staged Hr).
Defined.

(** X15.  A crash of the worker during a preview.  The request in
    flight is the one [preview] built around the environment [env]; when
    the staging root has no special character of a regular expression
    and the staged entry file resolves to its own normalized path, the
    host's callback is called once, with one error whose path is the
    file the caller passed to [preview]. *)
Theorem preview_crash_names_callers_file (h : Host) s m f o env k signal :
  reachable h s -> _currentRenderMsg s = Some m ->
  _callback m = RenderCallback f o (PreviewCallback env (HostCallback k)) ->
  literal_source (pv_tmpDirPath env) = true ->
  path.normalize (path.resolve (cwd h) [pv_tmpFile env]) = path.normalize (pv_tmpFile env) ->
  exists p errors,
    _compilerProcess s = Some p
    /\ calls_of (trace (step h s (WorkerExit p None signal)))
       = calls_of (trace s) ++ [(m, errors, None)]
    /\ invoke h (_callback m) errors None
       = Returned
           [(k,
             ErrorList
               [{| errorString :=
                     Some ("Fatal node-sass error, signal=" +:+ signal_text signal);
                   path := pv_file env;
                   pos := Some {| line := None; ch := Some 0 |};
                   message :=
                     remove_matches (pv_tmpDirPath env) 0
                       ("Fatal node-sass error, signal=" +:+ signal_text signal) |}],
             None)].
Proof.
  intros Hr Hc Hcb Hlit Hn. destruct (reachable_busy h s m Hr Hc) as (p & t & Hb).
  exists p. eexists. split; [by destruct Hb|]. split.
  { use_step (step_exit_busy h _ s None signal Hb).
    by rewrite call_callback_calls, cleanup_calls. }
  assert (m ∈ all_requests s) as Hin.
  { destruct (reachable_Inv h s Hr) as [_ [_ Hfl _ _]]. unfold all_requests.
    rewrite Hfl. unfold in_flight. rewrite Hc. set_solver. }
  pose proof (reachable_built h s Hr) as Hall.
  eapply Forall_forall in Hall; [|exact Hin].
  destruct Hall as [Hfile (cb & Hcb' & Hk)]. rewrite Hcb in Hcb'.
  injection Hcb' as Ef Eo <-.
  destruct Hk as [(k' & Hk)|(env' & k' & Hk & Hf)]; [discriminate|].
  injection Hk as <- <-.
  rewrite Hcb. cbn [invoke render_result errors_to_process app List.map].
  unfold preview_error, fatal_error, _removePathFromErrorString.
  cbn [path errorString pos message].
  rewrite Hfile, Hf, Hn, String.eqb_refl, Hlit. reflexivity.
Qed.

(** The worker dies of SIGSEGV during the sample preview. *)
Lemma preview_crash_names_callers_file_witness :
  reachable sample_host sample_staged
  /\ _currentRenderMsg sample_staged = Some sample_staged_msg
  /\ literal_source (pv_tmpDirPath sample_env) = true
  /\ exists p errors,
       _compilerProcess sample_staged = Some p
       /\ calls_of (trace (step sample_host sample_staged (WorkerExit p None (Some "SIGSEGV"))))
          = calls_of (trace sample_staged) ++ [(sample_staged_msg, errors, None)]
       /\ invoke sample_host (_callback sample_staged_msg) errors None
          = Returned
              [(3,
                ErrorList
                  [{| errorString := Some "Fatal node-sass error, signal=SIGSEGV";
                      path := "/proj/src/a.scss";
                      pos := Some {| line := None; ch := Some 0 |};
                      message := "Fatal node-sass error, signal=SIGSEGV" |}],
                None)].
Proof.
  assert (reachable sample_host sample_staged) as Hr.
  { apply reachable_step; [|exact I].
    apply reachable_step; [apply reachable_init | exact I]. }
  assert (_currentRenderMsg sample_staged = Some sample_staged_msg) as Hc
    by (vm_compute; reflexivity).
  assert (literal_source (pv_tmpDirPath sample_env) = true) as Hl by (vm_compute; reflexivity).
  split; [exact Hr|]. split; [exact Hc|]. split; [exact Hl|].
  destruct (preview_crash_names_callers_file sample_host sample_staged sample_staged_msg
              (pv_tmpFile sample_env) (pv_tmpOutFolder sample_env +:+ "/a.css") sample_env 3
              (Some "SIGSEGV") Hr Hc eq_refl Hl ltac:(vm_compute; reflexivity))
    as (p & errors & Hp & Hcalls & Hinv).
  exists p, errors. split; [exact Hp|]. split; [exact Hcalls|].
  rewrite Hinv. vm_compute. reflexivity.
Defined.

(** ** The files of a preview *)













(** ** The message without the staging root *)

Lemma remove_matches_length pat skip s :
  String.length (remove_matches pat skip s) <= String.length s.
Proof.
  revert skip. induction s as [|c s IH]; intros skip; [done|]. simpl.
  destruct skip as [|k]; [|specialize (IH k); lia].
  destruct (prefixb pat (String c s)).
  - destruct (String.length pat) as [|k]; simpl.
    + specialize (IH 0). lia.
    + specialize (IH k). lia.
  - simpl. specialize (IH 0). lia.
Qed.

(** X18.  With a staging root that has no special character of a regular
    expression, [_removePathFromErrorString] never makes a message
    longer, and returns unchanged a message in which the root does not
    occur. *)
Theorem removePath_only_removes (h : Host) errorString root :
  literal_source root = true ->
  String.length (_removePathFromErrorString h errorString root) <= String.length errorString
  /\ (occursb root errorString = false ->
      _removePathFromErrorString h errorString root = errorString).
Proof.
  intros Hl. unfold _removePathFromErrorString. rewrite Hl. split.
  - apply remove_matches_length.
  - apply remove_matches_none.
Qed.

(** The message of the error in the staged entry file. *)
Lemma removePath_only_removes_witness :
  literal_source (pv_tmpDirPath sample_env) = true
  /\ String.length
       (_removePathFromErrorString sample_host (message sample_entry_error)
          (pv_tmpDirPath sample_env))
     <= String.length (message sample_entry_error).
Proof.
  assert (literal_source (pv_tmpDirPath sample_env) = true) as Hl by (vm_compute; reflexivity).
  split; [exact Hl|].
  exact (proj1 (removePath_only_removes sample_host (message sample_entry_error)
                  (pv_tmpDirPath sample_env) Hl)).
Defined.

(** ** The staging root *)

Lemma join_nonempty l : nonempty (path.join l) = true.
Proof. apply normalize_nonempty. Qed.

(** X19.  After [setTempDir d], the staging root is [d/brackets-sass] whatever
    the temporary directory of the system is, and every preview stages
    under it, in the folder named by the digest of its file.  The
    command answers through its callback and leaves the dispatcher and
    the files already on disk alone. *)
Theorem setTempDir_moves_staging_root (h : Host) s d cb :
  let s' := step h s (SetTempDir d cb) in
  tmpdir h s' = path.join [d; "brackets-sass"]
  /\ (forall f o,
        pv_tmpDirPath (preview_env h f o s')
        = path.join [path.join [d; "brackets-sass"]; md5_hex h f])
  /\ trace s' = trace s ++ [FsCallback cb]
  /\ fs s ⊆ fs s'
  /\ _queue s' = _queue s /\ _currentRenderMsg s' = _currentRenderMsg s
  /\ _compilerProcess s' = _compilerProcess s /\ tmpFolders s' = tmpFolders s.
Proof.
  intros s'. assert (tmpdir h s' = path.join [d; "brackets-sass"]) as Ht.
  { subst s'. cbn [step]. unfold setTempDir, mkdirp, tmpdir. cbn.
    by rewrite join_nonempty. }
  split; [exact Ht|]. split.
  { intros f o. unfold preview_env. cbn [pv_tmpDirPath]. by rewrite Ht. }
  subst s'. cbn [step]. unfold setTempDir, mkdirp. cbn. repeat split. set_solver.
Qed.
